(** * Factorisation enumerators of timeloop's [util/numeric.cpp]

    A shallow embedding of the [Factors] and [ResidualFactors] classes, of
    the helpers [SmallestFactor] and [GetTiling] and of the pattern
    generators [SequenceGenerator128] and [RandomGenerator128], followed by
    the properties the specification states about them and by further
    properties that the code shows.

    Conventions.
    - [unsigned long] and [uint64_t] are 64-bit words (LP64): a value is a [Z]
      in [0, 2^64) and every arithmetic result is reduced by [wrap].
    - A [std::vector] is a [list]; [push_back] appends at the end.
    - A [std::map<unsigned, unsigned long>] is an association list kept in
      strictly ascending key order, which is the order a C++ iteration sees.
    - A call that can leave the normal path returns an [outcome]: the value,
      or the way it failed.
    - An [int order] is a natural number: it counts tuple positions, and a
      negative one would make [MultiplicativeSplitRecursive_] recurse without
      end. Vectors hold fewer than 2^32 elements, so that the [unsigned]
      counters running over them do not wrap. *)

From Stdlib Require Import ZArith List Lia Bool Sorted.
Import ListNotations.
Local Open Scope Z_scope.

(** ** Machine words *)

Definition ULONG_BITS : Z := 64.
Definition ULONG_MODULUS : Z := 2 ^ ULONG_BITS.
Definition UINT_MAX : Z := 2 ^ 32 - 1.
Definition ULONG_MAX : Z := ULONG_MODULUS - 1.

(** Reduction of an arithmetic result to an [unsigned long]. *)
Definition wrap (z : Z) : Z := z mod ULONG_MODULUS.

Definition uadd (a b : Z) : Z := wrap (a + b).
Definition usub (a b : Z) : Z := wrap (a - b).
Definition umul (a b : Z) : Z := wrap (a * b).
Definition ushl (a : Z) (k : Z) : Z := wrap (Z.shiftl a k).
Definition ushr (a : Z) (k : Z) : Z := Z.shiftr a k.

Definition is_ulong (z : Z) : Prop := 0 <= z < ULONG_MODULUS.

(** ** Outcomes of a call *)

Inductive failure : Set :=
| AssertionFailure   (* an [assert] whose condition is false *)
| OutOfRange         (* [std::out_of_range] thrown by [vector::at] *)
| Undefined          (* undefined behaviour: division by zero, an iterator
                        moved past [end()], an insertion past the end *)
| Diverges           (* a loop whose counter wraps and never leaves *)
| OutOfFuel.         (* the model's loop bound was too small *)

Inductive outcome (A : Type) : Type :=
| Returns (a : A)
| Fails (e : failure).
Arguments Returns {A} a.
Arguments Fails {A} e.

Definition bind {A B : Type} (m : outcome A) (k : A -> outcome B) : outcome B :=
  match m with
  | Returns a => k a
  | Fails e => Fails e
  end.

Notation "x <- m ;; k" := (bind m (fun x => k))
  (at level 61, m at next level, right associativity).
Notation "' pat <- m ;; k" := (bind m (fun x => match x with pat => k end))
  (at level 61, pat pattern, m at next level, right associativity).

Definition check (b : bool) (e : failure) : outcome unit :=
  if b then Returns tt else Fails e.

(** [mapM f l]: run [f] over [l] from the front, stopping at the first
    failure. *)
Fixpoint mapM {A B : Type} (f : A -> outcome B) (l : list A) : outcome (list B) :=
  match l with
  | [] => Returns []
  | x :: l' => y <- f x ;; ys <- mapM f l' ;; Returns (y :: ys)
  end.

(** ** Lists as vectors *)

(** The values [lo, lo+1, ..., hi] that a counting loop
    [for (i = lo; i <= hi; i++)] visits. *)
Definition range (lo hi : Z) : list Z :=
  map (fun k => lo + Z.of_nat k) (seq 0 (Z.to_nat (hi + 1 - lo))).

(** [vector::insert(begin() + index, value)]; past the end it is undefined. *)
Definition insert_at (index : nat) (value : Z) (v : list Z) : outcome (list Z) :=
  if (index <=? length v)%nat
  then Returns (firstn index v ++ value :: skipn index v)
  else Fails Undefined.

(** [vector::at(index)]. *)
Definition at_ (v : list Z) (index : nat) : outcome Z :=
  match nth_error v index with
  | Some x => Returns x
  | None => Fails OutOfRange
  end.

Definition product (t : list Z) : Z := fold_right Z.mul 1 t.
Definition sum (t : list Z) : Z := fold_right Z.add 0 t.

(** A [std::map<unsigned, unsigned long>]: pairs (position, value) in
    ascending position order. *)
Definition given_map : Type := list (nat * Z).

(** Keys strictly ascending, the first one at [lo] or above. *)
Fixpoint ascending_from (lo : nat) (m : given_map) : Prop :=
  match m with
  | [] => True
  | (k, _) :: m' => (lo <= k)%nat /\ ascending_from (S k) m'
  end.

(** Well-formed maps: strictly ascending keys. *)
Definition wf_map (m : given_map) : Prop := ascending_from 0 m.

(** ** Integer square root, shared by both classes

    [ISqrt_] is written twice in the source, once per class, with the same
    body. Each [while] runs on fuel; [one] is divided by four in every round,
    so seventeen rounds exhaust it (lemma [ISqrt_returns]). *)

(** [while (one > op) one >>= 2;] *)
Fixpoint ISqrt_shrink (fuel : nat) (one op : Z) : option Z :=
  match fuel with
  | O => None
  | S fuel' =>
    if one >? op then ISqrt_shrink fuel' (ushr one 2) op else Some one
  end.

(** [while (one != 0) { ... }] *)
Fixpoint ISqrt_loop (fuel : nat) (op res one : Z) : option Z :=
  match fuel with
  | O => None
  | S fuel' =>
    if one =? 0 then Some res
    else
      let '(op, res) :=
        if op >=? uadd res one
        then (usub op (uadd res one), uadd res (ushl one 1))
        else (op, res) in
      ISqrt_loop fuel' op (ushr res 1) (ushr one 2)
  end.

Definition ISqrt_fuel : nat := 20.

(** [ISqrt_(x)], with [one = 1 << 30] to start from. *)
Definition ISqrt_ (x : Z) : option Z :=
  match ISqrt_shrink ISqrt_fuel (Z.shiftl 1 30) x with
  | Some one => ISqrt_loop ISqrt_fuel x 0 one
  | None => None
  end.

(** ** Class [Factors] *)

Module Factors.

Record t : Type := mk {
  n_ : Z;
  all_factors_ : list Z;
  cofactors_ : list (list Z)
}.

(** One round of the loop of [CalculateAllFactors_]. *)
Definition CalculateAllFactors_step (n_ : Z) (all_factors_ : list Z) (i : Z) : list Z :=
  if n_ mod i =? 0 then
    let all_factors_ := all_factors_ ++ [i] in
    if negb (umul i i =? n_) then all_factors_ ++ [n_ / i] else all_factors_
  else all_factors_.

(** [all_factors_.clear()], then the trial divisions up to [ISqrt_(n_)]. *)
Definition CalculateAllFactors_ (n_ : Z) : outcome (list Z) :=
  match ISqrt_ n_ with
  | Some s => Returns (fold_left (CalculateAllFactors_step n_) (range 1 s) [])
  | None => Fails OutOfFuel
  end.

(** [order] counts tuple positions; the recursion is on it. The loop runs over
    [all_factors_] in order; an accepted factor is appended to every vector of
    the sub-problem, and these are appended to [retval]. No member of
    [all_factors_] is 0 (lemma [all_factors_positive]), so [n % factor] and
    [n / factor] are defined. *)
Fixpoint MultiplicativeSplitRecursive_ (all_factors_ : list Z) (n : Z) (order : nat)
  : list (list Z) :=
  match order with
  | O => [[]]
  | S order' =>
    match order' with
    | O => [[n]]
    | S _ =>
      fold_left
        (fun retval factor =>
           if n mod factor =? 0 then
             let subproblem :=
               MultiplicativeSplitRecursive_ all_factors_ (n / factor) order' in
             retval ++ map (fun vector => vector ++ [factor]) subproblem
           else retval)
        all_factors_ []
    end
  end.

(** [Factors::Factors(n, order)]. *)
Definition Factors (n : Z) (order : nat) : outcome t :=
  all <- CalculateAllFactors_ n ;;
  Returns (mk n all (MultiplicativeSplitRecursive_ all n order)).

(** The validation loop of the constructor that takes a Given Assignment:
    [for (auto f = given.begin(); f != given.end(); f++)]. [todo] is the part
    of the map from [f] on, [kept] the entries before [f] that are still in
    the map. When the entry is refused, [f = given.erase(f)] leaves [f] on the
    entry after it, and the [f++] of the loop header then steps over that
    entry, which stays in the map unexamined; when the erased entry was the
    last one, [f] is [end()] and [f++] is undefined. *)
Fixpoint validate_given (n partial_product : Z) (todo kept : given_map)
  : outcome (Z * given_map) :=
  match todo with
  | [] => Returns (partial_product, kept)
  | (index, factor) :: rest =>
    let d := umul factor partial_product in
    _ <- check (negb (d =? 0)) Undefined ;;
    if n mod d =? 0 then
      let partial_product := umul partial_product factor in
      _ <- check (n mod partial_product =? 0) AssertionFailure ;;
      validate_given n partial_product rest (kept ++ [(index, factor)])
    else
      _ <- check (n mod partial_product =? 0) AssertionFailure ;;
      match rest with
      | [] => Fails Undefined
      | skipped :: rest' => validate_given n partial_product rest' (kept ++ [skipped])
      end
  end.

(** The insertion of the given factors into one solution, in map order. *)
Fixpoint insert_given (given : given_map) (cofactors : list Z) : outcome (list Z) :=
  match given with
  | [] => Returns cofactors
  | (index, value) :: given' =>
    _ <- check (index <=? length cofactors)%nat AssertionFailure ;;
    cofactors <- insert_at index value cofactors ;;
    insert_given given' cofactors
  end.

(** [Factors::Factors(n, order, given)]. *)
Definition Factors_given (n : Z) (order : nat) (given : given_map) : outcome t :=
  _ <- check (length given <=? order)%nat AssertionFailure ;;
  '(partial_product, given) <- validate_given n 1 given [] ;;
  all <- CalculateAllFactors_ n ;;
  let cofactors_ :=
    MultiplicativeSplitRecursive_ all (n / partial_product) (order - length given) in
  cofactors_ <- mapM (insert_given given) cofactors_ ;;
  Returns (mk n all cofactors_).

(** The inner loop of [PruneMax] on one tuple: [true] when some entry of
    [max] is exceeded; the loop breaks at the first such entry. *)
Fixpoint illegal (max : given_map) (cofactors : list Z) : outcome bool :=
  match max with
  | [] => Returns false
  | (index, max_value) :: max' =>
    _ <- check (index <=? length cofactors)%nat AssertionFailure ;;
    value <- at_ cofactors index ;;
    if value >? max_value then Returns true else illegal max' cofactors
  end.

Fixpoint PruneMax_loop (max : given_map) (cofactors_ : list (list Z))
  : outcome (list (list Z)) :=
  match cofactors_ with
  | [] => Returns []
  | cofactors :: rest =>
    bad <- illegal max cofactors ;;
    rest <- PruneMax_loop max rest ;;
    Returns (if bad : bool then rest else cofactors :: rest)
  end.

(** [Factors::PruneMax(max)]. *)
Definition PruneMax (max : given_map) (self : t) : outcome t :=
  cofactors_ <- PruneMax_loop max (cofactors_ self) ;;
  Returns (mk (n_ self) (all_factors_ self) cofactors_).

(** [Factors::size()]. *)
Definition size (self : t) : nat := length (cofactors_ self).

(** [Factors::operator[](index)]: [cofactors_[index]], which is not checked;
    an [int index] that is negative or not below [size()] is outside the
    vector. *)
Definition get (self : t) (index : Z) : outcome (list Z) :=
  if index <? 0 then Fails Undefined
  else
    match nth_error (cofactors_ self) (Z.to_nat index) with
    | Some cofactors => Returns cofactors
    | None => Fails Undefined
    end.

End Factors.

(** ** Miscellaneous helpers *)

(** [SmallestFactor(n, factor, residue)]: the pair (factor, residue). The
    loop [for (i = 2; i < n; i++)] returns at the first divisor. *)
Definition SmallestFactor (n : Z) : Z * Z :=
  match find (fun i => n mod i =? 0) (range 2 (n - 1)) with
  | Some i => (i, n / i)
  | None => (n, 1)
  end.

(** The first loop of [GetTiling]: [while (residue > 1)]. *)
Fixpoint GetTiling_factors (fuel : nat) (residue : Z) (factors : list Z)
  : option (list Z) :=
  match fuel with
  | O => None
  | S fuel' =>
    if residue >? 1 then
      let '(cur_factor, residue) := SmallestFactor residue in
      GetTiling_factors fuel' residue (factors ++ [cur_factor])
    else Some factors
  end.

(** The second loop of [GetTiling]: factors at even indices go to [height],
    the others to [width]. *)
Definition GetTiling_split (factors : list Z) : Z * Z :=
  fold_left
    (fun '(height, width) '(i, f) =>
       if Nat.even i then (umul height f, width) else (height, umul width f))
    (combine (seq 0 (length factors)) factors) (1, 1).

(** The residue is at least halved in every round of the first loop. *)
Definition GetTiling_fuel : nat := 65.

(** [GetTiling(num_elems, height, width)]: the pair (height, width). *)
Definition GetTiling (num_elems : Z) : option (Z * Z) :=
  match GetTiling_factors GetTiling_fuel num_elems [] with
  | Some factors =>
    let '(height, width) := GetTiling_split factors in
    Some (if height >? width then (width, height) else (height, width))
  | None => None
  end.

(** ** Class [ResidualFactors] *)

(** [std::set<unsigned long>::insert]: the set is the ascending list of its
    members. (The class declaration, [util/numeric.hpp], is not among the
    sources; [all_factors_] is used through [insert], [clear] and iteration,
    as a [std::set] is.) *)
Fixpoint set_insert (x : Z) (s : list Z) : list Z :=
  match s with
  | [] => [x]
  | y :: s' =>
    if x <? y then x :: s
    else if x =? y then s
    else y :: set_insert x s'
  end.

Fixpoint set_nth {A : Type} (k : nat) (x : A) (v : list A) : list A :=
  match v, k with
  | [], _ => []
  | _ :: v', O => x :: v'
  | y :: v', S k' => y :: set_nth k' x v'
  end.

(** [std::swap(v[i], v[j])] for positions inside [v]. *)
Definition swap_elems {A : Type} (d : A) (i j : nat) (v : list A) : list A :=
  set_nth j (nth i v d) (set_nth i (nth j v d) v).

Module ResidualFactors.

Record t : Type := mk {
  n_ : Z;
  spatial_factors_ : list Z;
  spatial_ix_ : list Z;
  all_factors_ : list Z;
  replicated_factors_ : list (list Z);
  pruned_product_factors_ : list (list Z);
  pruned_residual_factors_ : list (list Z);
  cofactors_ : list (list Z);
  rfactors_ : list (list Z)
}.

Definition set_all_factors_ (self : t) (v : list Z) : t :=
  mk (n_ self) (spatial_factors_ self) (spatial_ix_ self) v
     (replicated_factors_ self) (pruned_product_factors_ self)
     (pruned_residual_factors_ self) (cofactors_ self) (rfactors_ self).

Definition set_product_factors_ (self : t) (replicated pruned : list (list Z)) : t :=
  mk (n_ self) (spatial_factors_ self) (spatial_ix_ self) (all_factors_ self)
     replicated pruned
     (pruned_residual_factors_ self) (cofactors_ self) (rfactors_ self).

Definition set_pruned_residual_factors_ (self : t) (v : list (list Z)) : t :=
  mk (n_ self) (spatial_factors_ self) (spatial_ix_ self) (all_factors_ self)
     (replicated_factors_ self) (pruned_product_factors_ self)
     v (cofactors_ self) (rfactors_ self).

Definition set_solutions_ (self : t) (pruned cof rf : list (list Z)) : t :=
  mk (n_ self) (spatial_factors_ self) (spatial_ix_ self) (all_factors_ self)
     (replicated_factors_ self) pruned
     (pruned_residual_factors_ self) cof rf.

(** The object after the member initialisers
    [n_(n), spatial_factors_(spatial), spatial_ix_(spatial_indices)]. *)
Definition init (n : Z) (spatial spatial_indices : list Z) : t :=
  mk n spatial spatial_indices [] [] [] [] [] [].

Definition ClearAllFactors_ (self : t) : t := set_all_factors_ self [].

Definition CalculateAllFactors_step (n_ : Z) (all_factors_ : list Z) (i : Z) : list Z :=
  if n_ mod i =? 0 then
    let all_factors_ := set_insert i all_factors_ in
    if negb (umul i i =? n_) then set_insert (n_ / i) all_factors_ else all_factors_
  else all_factors_.

Definition CalculateAllFactors_ (self : t) : outcome t :=
  match ISqrt_ (n_ self) with
  | Some s =>
    Returns (set_all_factors_ self
               (fold_left (CalculateAllFactors_step (n_ self)) (range 1 s)
                          (all_factors_ self)))
  | None => Fails OutOfFuel
  end.

(** [cart_product(v)]. *)
Definition cart_product (v : list (list Z)) : list (list Z) :=
  fold_left
    (fun s u => flat_map (fun x => map (fun y => x ++ [y]) u) s)
    v [[]].

Section FloatingPoint.

(** The two expressions of the class that go through [double]; their values
    are taken as given.
    - [sqrt_bound n_] is [(unsigned int)(pow((double)n_, 1.0/(2.0)) + 1.5)].
    - [spatial_multiple n n_] is the [unsigned long] that
      [n * n_ * ceil((double)n_/(double)n)] is converted to. *)
Variable sqrt_bound : Z -> Z.
Variable spatial_multiple : Z -> Z -> Z.

(** One round of the inner loop of [CalculateSpatialFactors_]. *)
Definition CalculateSpatialFactors_step (n_ g : Z) (all_factors_ : list Z) (i : Z)
  : list Z :=
  if g mod i =? 0 then
    let all_factors_ := if i <? n_ then set_insert i all_factors_ else all_factors_ in
    if negb (umul i i =? g) then
      if g / i <? n_ then set_insert (g / i) all_factors_ else all_factors_
    else all_factors_
  else all_factors_.

(** [CalculateSpatialFactors_()]. A counter [unsigned long i] that has to
    pass [ULONG_MAX] never leaves its loop. *)
Definition CalculateSpatialFactors_ (self : t) : outcome t :=
  _ <- check (forallb (fun n => n <? ULONG_MAX) (spatial_factors_ self)) Diverges ;;
  let spatial_possible := flat_map (fun n => range 1 n) (spatial_factors_ self) in
  _ <- check (match spatial_possible with
              | [] => true
              | _ :: _ => n_ self <? ULONG_MAX
              end) Diverges ;;
  Returns (set_all_factors_ self
    (fold_left
       (fun all_factors_ n =>
          let g := spatial_multiple n (n_ self) in
          fold_left (CalculateSpatialFactors_step (n_ self) g)
                    (range 1 (n_ self)) all_factors_)
       spatial_possible (all_factors_ self))).

(** The candidates [v2] of position [i] in rotation [rec]: the chain of
    [if]/[else if] of [GenerateFactorProduct_]. *)
Definition position_candidates (self : t) (rec i : nat) : list Z :=
  filter
    (fun a =>
       if (i =? 0)%nat && (rec =? 0)%nat then true
       else if (a <=? sqrt_bound (n_ self)) && (0 <? i)%nat then true
       else if (0 <? rec)%nat && (i =? 0)%nat && (a >=? sqrt_bound (n_ self)) then true
       else false)
    (all_factors_ self).

(** The product of the [(p - 1)] over the entries other than 1. *)
Definition pruning_product (t : list Z) : Z :=
  fold_left (fun product p => if negb (p =? 1) then umul product (usub p 1) else product)
            t 1.

(** [GenerateFactorProduct_(n, order)]. *)
Definition GenerateFactorProduct_ (n : Z) (order : nat) (self : t) : t :=
  let replicated :=
    fold_left
      (fun replicated rec =>
         let inter_factors := map (position_candidates self rec) (seq 0 order) in
         let inter_factors := swap_elems [] 0 rec inter_factors in
         replicated ++ cart_product inter_factors)
      (seq 0 order) (replicated_factors_ self) in
  let pruned :=
    fold_left
      (fun pruned t => if pruning_product t <=? n then pruned ++ [t] else pruned)
      replicated (pruned_product_factors_ self) in
  set_product_factors_ self replicated pruned.

(** [GenerateResidual_(n, order)]. The counter [unsigned j] of the inner loop
    never passes a bound of [UINT_MAX] or more. *)
Definition GenerateResidual_ (n : Z) (order : nat) (self : t) : outcome t :=
  _ <- check (forallb (fun i => i <? UINT_MAX) (spatial_factors_ self)) Diverges ;;
  let residual_factors := map (fun i => range 1 i) (spatial_factors_ self) in
  let residual_factors := cart_product residual_factors in
  Returns (set_pruned_residual_factors_ self
    (fold_left
       (fun pruned t =>
          if fold_left uadd t 0 <=? uadd n (Z.of_nat order)
          then pruned ++ [t] else pruned)
       residual_factors (pruned_residual_factors_ self))).

(** The first loop of [EquationSolver_] on one candidate: the given factors
    are inserted in map order (there is no assertion on the index here). *)
Fixpoint splice_given (given : given_map) (f : list Z) : outcome (list Z) :=
  match given with
  | [] => Returns f
  | (index, value) :: given' =>
    f <- insert_at index value f ;;
    splice_given given' f
  end.

(** The loop over the positions [i] of [f] that builds
    [valid_residual_factors]; [fs] is [f] from position [i] on. *)
Fixpoint residual_vector (spatial_ix_ spatial_factors_ r fs : list Z)
         (i : Z) (s_i : nat) (valid_residual_factors : list Z) (valid : bool)
  : outcome (list Z * bool) :=
  match fs with
  | [] => Returns (valid_residual_factors, valid)
  | f_i :: fs' =>
    if (0 <? count_occ Z.eq_dec spatial_ix_ i)%nat then
      r_i <- at_ r s_i ;;
      bound <- match nth_error spatial_factors_ s_i with
               | Some b => Returns b
               | None => Fails Undefined
               end ;;
      residual_vector spatial_ix_ spatial_factors_ r fs' (i + 1) (S s_i)
                      (valid_residual_factors ++ [r_i])
                      (if f_i >? bound then false else valid)
    else
      residual_vector spatial_ix_ spatial_factors_ r fs' (i + 1) s_i
                      (valid_residual_factors ++ [f_i]) valid
  end.

(** The loop [for (j = f.size(); j > 0; j--)]: the last position is folded
    first. *)
Definition equation (f valid_residual_factors : list Z) (valid : bool) : Z * bool :=
  fold_right
    (fun '(f_j, r_j) '(equation_answer, valid) =>
       (uadd (umul f_j equation_answer) (usub r_j 1),
        if f_j <? r_j then false else valid))
    (0, valid) (combine f valid_residual_factors).

(** The body of the two nested loops of [EquationSolver_] for one pair
    [(f, r)]: the solutions extended by the pair when it is accepted. *)
Definition solve_pair (self : t) (n : Z) (f r : list Z)
           (sol : list (list Z) * list (list Z))
  : outcome (list (list Z) * list (list Z)) :=
  '(valid_residual_factors, valid) <-
     residual_vector (spatial_ix_ self) (spatial_factors_ self) r f 0 0 [] true ;;
  let '(equation_answer, valid) := equation f valid_residual_factors valid in
  if (uadd equation_answer 1 =? n) && valid
  then Returns (fst sol ++ [f], snd sol ++ [valid_residual_factors])
  else Returns sol.

Fixpoint foldM {A B : Type} (f : B -> A -> outcome A) (l : list B) (a : A) : outcome A :=
  match l with
  | [] => Returns a
  | x :: l' => a <- f x a ;; foldM f l' a
  end.

(** [EquationSolver_(n, given)]. *)
Definition EquationSolver_ (n : Z) (given : given_map) (self : t) : outcome t :=
  pruned <- mapM (splice_given given) (pruned_product_factors_ self) ;;
  sol <- foldM
           (fun f sol =>
              foldM (fun r sol => solve_pair self n f r sol)
                    (pruned_residual_factors_ self) sol)
           pruned (cofactors_ self, rfactors_ self) ;;
  Returns (set_solutions_ self pruned (fst sol) (snd sol)).

(** [ResidualFactors::ResidualFactors(n, order, spatial, spatial_indices)].
    The local [std::map<unsigned, unsigned long> given = {{}}] is
    list-initialised from one value-initialised pair: it holds the single
    entry (0, 0). *)
Definition ResidualFactors (n : Z) (order : nat) (spatial spatial_indices : list Z)
  : outcome t :=
  let self := init n spatial spatial_indices in
  let self := ClearAllFactors_ self in
  self <- CalculateAllFactors_ self ;;
  self <- CalculateSpatialFactors_ self ;;
  let self := GenerateFactorProduct_ n order self in
  self <- GenerateResidual_ n order self ;;
  let given : given_map := [(0%nat, 0)] in
  self <- EquationSolver_ n given self ;;
  Returns (set_solutions_ self (pruned_product_factors_ self)
             (map (@rev Z) (cofactors_ self)) (map (@rev Z) (rfactors_ self))).

(** [ResidualFactors::ResidualFactors(n, order, spatial, spatial_indices, given)].
    The validation loop is the one of [Factors]. *)
Definition ResidualFactors_given (n : Z) (order : nat) (spatial spatial_indices : list Z)
           (given : given_map) : outcome t :=
  let self := init n spatial spatial_indices in
  _ <- check (length given <=? order)%nat AssertionFailure ;;
  '(partial_product, given) <- Factors.validate_given n 1 given [] ;;
  let self := ClearAllFactors_ self in
  self <- CalculateAllFactors_ self ;;
  self <- CalculateSpatialFactors_ self ;;
  let self := GenerateFactorProduct_ (n / partial_product) (order - length given) self in
  self <- GenerateResidual_ (n / partial_product) (order - length given) self ;;
  self <- EquationSolver_ n given self ;;
  Returns (mk (n_ self) [] [] (all_factors_ self) [] [] [] (cofactors_ self) (rfactors_ self)).

End FloatingPoint.

(** The values of the two floating-point expressions on operands small enough
    for [double] to be exact on them: the integer part of [sqrt n_ + 1.5],
    and [n * n_] times the quotient [n_ / n] rounded up. *)
Definition small_sqrt_bound (n_ : Z) : Z := (Z.sqrt (4 * n_) + 3) / 2.
Definition small_spatial_multiple (n n_ : Z) : Z := umul n n_ * ((n_ + n - 1) / n).

(** [ResidualFactors::size()]. *)
Definition size (self : t) : nat := length (cofactors_ self).

(** [ResidualFactors::operator[](index)]: the factor tuple and the residual
    tuple at [index]. *)
Definition get (self : t) (index : nat) : outcome (list Z * list Z) :=
  match nth_error (cofactors_ self) index, nth_error (rfactors_ self) index with
  | Some cfm, Some rfm => Returns (cfm, rfm)
  | _, _ => Fails OutOfRange
  end.

End ResidualFactors.

(** ** Pattern generators

    A [uint128_t] is Boost's unchecked 128-bit unsigned integer: a value in
    [0, 2^128), every arithmetic result reduced by [wrap128]. The class
    declarations, [util/numeric.hpp], are not among the sources: the members
    are those that the constructors initialise, in that order. *)

Definition UINT128_MODULUS : Z := 2 ^ 128.
Definition wrap128 (z : Z) : Z := z mod UINT128_MODULUS.

Module SequenceGenerator128.

Record t : Type := mk {
  bound_ : Z;
  autoloop_ : bool;
  cur_ : Z
}.

(** [SequenceGenerator128::SequenceGenerator128(bound, autoloop)]. *)
Definition SequenceGenerator128 (bound : Z) (autoloop : bool) : t :=
  mk bound autoloop 0.

(** [SequenceGenerator128::Next()]: the value returned and the object after
    the call. *)
Definition Next (self : t) : outcome (Z * t) :=
  let retval := cur_ self in
  if cur_ self =? wrap128 (bound_ self - 1) then
    _ <- check (autoloop_ self) AssertionFailure ;;
    Returns (retval, mk (bound_ self) (autoloop_ self) 0)
  else
    Returns (retval, mk (bound_ self) (autoloop_ self) (wrap128 (cur_ self + 1))).

End SequenceGenerator128.

Module RandomGenerator128.

(** A [std::uniform_int_distribution<std::uint64_t>] is the pair of its
    limits: it delivers a value from the first limit to the second one. The
    engine is left out: [Next] takes the values delivered. *)
Record t : Type := mk {
  bound_ : Z;
  use_two_generators_ : bool;
  low_gen_ : Z * Z;
  high_gen_ : Z * Z
}.

Section Limits.

(** The member constant [uint64_max_], a [std::uint64_t] set in the class
    declaration. *)
Variable uint64_max_ : Z.

(** [RandomGenerator128::RandomGenerator128(bound)]. A conversion
    [(std::uint64_t)(...)] is written as keeping the low 64 bits; the
    statements below only use limits whose value before the conversion fits
    64 bits, where the conversion changes nothing. *)
Definition RandomGenerator128 (bound : Z) : t :=
  let use_two_generators_ := bound >? uint64_max_ in
  mk bound use_two_generators_
     (0, if use_two_generators_ then uint64_max_ else wrap (wrap128 (bound - 1)))
     (0, wrap (wrap128 (bound / uint64_max_ - 1))).

(** [RandomGenerator128::Next()], given the value [low_draw] that
    [low_gen_(engine_)] delivers and the value [high_draw] that
    [high_gen_(engine_)] delivers when it is called. *)
Definition Next (self : t) (low_draw high_draw : Z) : outcome Z :=
  let low := low_draw in
  let high := if use_two_generators_ self then high_draw else 0 in
  let rand := wrap128 (low + wrap128 (high * uint64_max_)) in
  _ <- check (rand <? bound_ self) AssertionFailure ;;
  Returns rand.

End Limits.

End RandomGenerator128.

(** * Notions used by the statements *)

(** The values [one] runs through: 4^j for j = k-1 down to 0, then 0. *)
Definition quarter_chain (k : nat) : Z :=
  match k with
  | O => 0
  | S j => 4 ^ Z.of_nat j
  end.

(** A tuple is within [max] when no position named in [max] holds a value
    above the maximum stated for it. *)
Definition within_max (max : given_map) (cofactors : list Z) : bool :=
  forallb (fun '(index, max_value) => negb (nth index cofactors 0 >? max_value)) max.

(** The reconstruction as the specification writes it: the sum over the
    positions i of (r_i - 1) times the product of the f_m with m < i, position
    0 being the least significant. *)
Definition mixed_radix (f r : list Z) : Z :=
  sum (map (fun i => (nth i r 0 - 1) * product (firstn i f)) (seq 0 (length f))).

(** A pair as the check of [EquationSolver_] accepts it: no residual above
    its factor, no residual below 1 where the factor is 1 or more, the
    reconstruction plus 1 equal to [n] in 64-bit arithmetic, and equal to [n]
    as integers when the product of the (positive) factors fits 64 bits. *)
Definition boundary_pair (n : Z) (f r : list Z) : Prop :=
  Forall2 (fun f_i r_i => r_i <= f_i /\ (1 <= f_i -> 1 <= r_i)) f r /\
  wrap (mixed_radix f r + 1) = n /\
  (Forall (fun f_i => 1 <= f_i) f -> product f < ULONG_MODULUS ->
   mixed_radix f r + 1 = n).

(** The pair [(f, r)] is retained: [operator[]] returns it at some index. *)
Definition retained (self : ResidualFactors.t) (f r : list Z) : Prop :=
  exists index, ResidualFactors.get self index = Returns (f, r).


(** What one round of the loop of [CalculateAllFactors_] appends. *)
Definition divisor_pair (n_ i : Z) : list Z :=
  if n_ mod i =? 0
  then i :: (if negb (umul i i =? n_) then [n_ / i] else [])
  else [].

(** The positions at which the entries of a map can be inserted one after
    the other into a tuple of length [len]. *)
Fixpoint placeable (lo len : nat) (given : given_map) : Prop :=
  match given with
  | [] => True
  | (i, _) :: rest => (lo <= i <= len)%nat /\ placeable (S i) (S len) rest
  end.

(** A prime: 2 or more, with no divisor strictly between 1 and itself. *)
Definition is_prime (p : Z) : Prop :=
  2 <= p /\ forall d, 1 < d < p -> ~ (d | p).

(** The tuple with [p] at position [j] and 1 at the other [k] positions. *)
Definition unit_tuple (p : Z) (k j : nat) : list Z :=
  repeat 1 j ++ p :: repeat 1 (k - j).

(** Position [i] of a factor tuple is spatial: [std::count] finds it in
    [spatial_ix_]. *)
Definition flagged (spatial_ix_ : list Z) (i : nat) : bool :=
  (0 <? count_occ Z.eq_dec spatial_ix_ (Z.of_nat i))%nat.

(** The number of spatial positions below position [i]: the value of the
    counter [s_i] when the loop of [EquationSolver_] reaches [i]. *)
Definition flag_rank (spatial_ix_ : list Z) (i : nat) : nat :=
  length (filter (flagged spatial_ix_) (seq 0 i)).

(** A pair whose residual equals the factor at every position that is not
    spatial, and whose factor and residual at a spatial position are within
    the spatial bound of that position's rank, the residual being 1 or
    more. *)
Definition spatial_pair (spatial spatial_indices f r : list Z) : Prop :=
  forall i f_i r_i,
    nth_error f i = Some f_i -> nth_error r i = Some r_i ->
    (flagged spatial_indices i = false -> r_i = f_i) /\
    (flagged spatial_indices i = true ->
     exists bound,
       nth_error spatial (flag_rank spatial_indices i) = Some bound /\
       f_i <= bound /\ 1 <= r_i <= bound).

(** The size of a Cartesian product. *)
Definition product_of_sizes (v : list (list Z)) : nat :=
  fold_right (fun u k => (length u * k)%nat) 1%nat v.

(** [k] calls of [Next()] in a row: the values returned, in order, and the
    object after the last call. *)
Fixpoint Next_times (k : nat) (self : SequenceGenerator128.t)
  : outcome (list Z * SequenceGenerator128.t) :=
  match k with
  | O => Returns ([], self)
  | S k' =>
    '(x, self) <- SequenceGenerator128.Next self ;;
    '(xs, self) <- Next_times k' self ;;
    Returns (x :: xs, self)
  end.

(** A value that a distribution with the limits [limits] can deliver. *)
Definition delivers (limits : Z * Z) (x : Z) : Prop :=
  fst limits <= x <= snd limits.

(** * Properties *)

(** ** Outcomes and list helpers *)

Lemma bind_returns {A B : Type} (m : outcome A) (k : A -> outcome B) (b : B) :
  bind m k = Returns b -> exists a, m = Returns a /\ k a = Returns b.
Proof.
  destruct m as [a|e]; simpl; intros H; [exists a; auto | discriminate].
Qed.

Lemma check_returns (b : bool) (e : failure) (u : unit) :
  check b e = Returns u -> b = true.
Proof. destruct b; simpl; [reflexivity | discriminate]. Qed.

Lemma in_range (lo hi i : Z) : In i (range lo hi) <-> lo <= i <= hi.
Proof.
  unfold range. rewrite in_map_iff. split.
  - intros [k [<- Hk]]. apply in_seq in Hk. lia.
  - intros H. exists (Z.to_nat (i - lo)). split; [lia|].
    apply in_seq. lia.
Qed.

Lemma range_empty (lo hi : Z) : hi < lo -> range lo hi = [].
Proof.
  intros H. unfold range. replace (Z.to_nat (hi + 1 - lo)) with 0%nat by lia.
  reflexivity.
Qed.

Lemma range_cons (lo hi : Z) : lo <= hi -> range lo hi = lo :: range (lo + 1) hi.
Proof.
  intros H. unfold range.
  replace (Z.to_nat (hi + 1 - lo)) with (S (Z.to_nat (hi + 1 - (lo + 1)))) by lia.
  simpl. f_equal; [lia|].
  rewrite <- seq_shift, map_map. apply map_ext. intros k. lia.
Qed.

Lemma range_snoc (lo hi : Z) : lo <= hi -> range lo hi = range lo (hi - 1) ++ [hi].
Proof.
  intros H. unfold range.
  replace (Z.to_nat (hi + 1 - lo)) with (Z.to_nat (hi - 1 + 1 - lo) + 1)%nat by lia.
  rewrite seq_app, map_app. simpl. do 2 f_equal. lia.
Qed.

Lemma wrap_small (z : Z) : is_ulong z -> wrap z = z.
Proof. unfold is_ulong, wrap. intros H. apply Z.mod_small. exact H. Qed.

Lemma wrap_is_ulong (z : Z) : is_ulong (wrap z).
Proof.
  unfold is_ulong, wrap. apply Z.mod_pos_bound. unfold ULONG_MODULUS, ULONG_BITS. lia.
Qed.

Lemma product_app (a b : list Z) : product (a ++ b) = product a * product b.
Proof.
  induction a as [|x a IH].
  - change (product ([] ++ b)) with (product b). change (product []) with 1. lia.
  - change (product ((x :: a) ++ b)) with (x * product (a ++ b)).
    change (product (x :: a)) with (x * product a). rewrite IH. ring.
Qed.

Lemma product_pos (fs : list Z) : Forall (fun f => 1 <= f) fs -> 1 <= product fs.
Proof.
  induction 1 as [|f fs Hf _ IH]; [change (product []) with 1; lia|].
  change (product (f :: fs)) with (f * product fs). nia.
Qed.

(** ** [ISqrt_] returns *)

Lemma quarter_chain_step (k : nat) : ushr (quarter_chain (S k)) 2 = quarter_chain k.
Proof.
  unfold ushr. rewrite Z.shiftr_div_pow2 by lia. simpl quarter_chain.
  destruct k as [|j]; [reflexivity|]. simpl quarter_chain.
  replace (Z.of_nat (S j)) with (Z.of_nat j + 1) by lia.
  rewrite Z.pow_add_r by lia. change (2 ^ 2) with 4. change (4 ^ 1) with 4.
  apply Z.div_mul. lia.
Qed.

Lemma quarter_chain_pos (k : nat) : 0 < quarter_chain (S k).
Proof. simpl. apply Z.pow_pos_nonneg; lia. Qed.

Lemma ISqrt_shrink_returns (k fuel : nat) (op : Z) :
  (k < fuel)%nat -> 0 <= op ->
  exists j, (j <= k)%nat /\ ISqrt_shrink fuel (quarter_chain k) op = Some (quarter_chain j)
            /\ quarter_chain j <= op
            /\ ((j < k)%nat -> op < quarter_chain (S j)).
Proof.
  revert fuel. induction k as [|k IH]; intros fuel Hf Hop.
  - destruct fuel as [|fuel]; [lia|]. exists 0%nat. simpl.
    destruct (0 >? op) eqn:E; [lia|]. repeat split; auto; lia.
  - destruct fuel as [|fuel]; [lia|].
    cbn [ISqrt_shrink]. destruct (quarter_chain (S k) >? op) eqn:E.
    + rewrite quarter_chain_step.
      destruct (IH fuel ltac:(lia) Hop) as [j [Hj [Hs [Hle Hlt]]]].
      exists j. repeat split; auto.
      intros _. destruct (Nat.eq_dec j k) as [->|Hne]; [lia|]. apply Hlt. lia.
    + exists (S k). repeat split; auto; lia.
Qed.

Lemma ISqrt_loop_returns (k fuel : nat) (op res : Z) :
  (k < fuel)%nat -> exists r, ISqrt_loop fuel op res (quarter_chain k) = Some r.
Proof.
  revert fuel op res. induction k as [|k IH]; intros fuel op res Hf.
  - destruct fuel as [|fuel]; [lia|]. exists res. reflexivity.
  - destruct fuel as [|fuel]; [lia|]. cbn [ISqrt_loop].
    pose proof (quarter_chain_pos k) as Hpos.
    destruct (quarter_chain (S k) =? 0) eqn:E; [lia|].
    rewrite quarter_chain_step.
    destruct (op >=? uadd res (quarter_chain (S k))); apply IH; lia.
Qed.

(** The fuel of [ISqrt_] is never exhausted. *)
Lemma ISqrt_returns (x : Z) : 0 <= x -> exists r, ISqrt_ x = Some r.
Proof.
  intros Hx. unfold ISqrt_.
  change (Z.shiftl 1 30) with (quarter_chain 16).
  destruct (ISqrt_shrink_returns 16 ISqrt_fuel x) as [j [Hj [-> _]]];
    [unfold ISqrt_fuel; lia | exact Hx |].
  apply ISqrt_loop_returns. unfold ISqrt_fuel. lia.
Qed.

Lemma CalculateAllFactors_returns (n : Z) :
  0 <= n -> exists all, Factors.CalculateAllFactors_ n = Returns all.
Proof.
  intros Hn. unfold Factors.CalculateAllFactors_.
  destruct (ISqrt_returns n Hn) as [s ->]. eauto.
Qed.

(** ** [ISqrt_] below 2^32 *)

Lemma quarter_chain_square (k : nat) :
  quarter_chain (S k) = 2 ^ Z.of_nat k * 2 ^ Z.of_nat k.
Proof.
  cbn [quarter_chain]. change 4 with (2 * 2). apply Z.pow_mul_l.
Qed.

Lemma pow2_succ (k : nat) : 2 ^ Z.of_nat (S k) = 2 * 2 ^ Z.of_nat k.
Proof.
  rewrite Nat2Z.inj_succ. apply Z.pow_succ_r. lia.
Qed.

Lemma pow2_bounds (k : nat) : (k <= 16)%nat -> 1 <= 2 ^ Z.of_nat k <= 65536.
Proof.
  intros Hk. split.
  - assert (0 < 2 ^ Z.of_nat k) by (apply Z.pow_pos_nonneg; lia). lia.
  - change 65536 with (2 ^ 16). apply Z.pow_le_mono_r; lia.
Qed.

(** The invariant of the second loop: with [one] = 4^(k-1), the root found so
    far is [R], a lower bound of the root that is less than 2^k away from it,
    [res] is [R * 2^k] and [op] is what is left of [x]. *)
Lemma ISqrt_loop_exact (k fuel : nat) (x op res R : Z) :
  (k < fuel)%nat -> (k <= 16)%nat ->
  0 <= R -> res = R * 2 ^ Z.of_nat k -> op = x - R * R ->
  R * R <= x < (R + 2 ^ Z.of_nat k) * (R + 2 ^ Z.of_nat k) ->
  x < 4294967296 ->
  ISqrt_loop fuel op res (quarter_chain k) = Some (Z.sqrt x).
Proof.
  revert fuel op res R. induction k as [|k IH]; intros fuel op res R Hf Hk HR Hres Hop Hx Hx32.
  - destruct fuel as [|fuel]; [lia|]. cbn [ISqrt_loop quarter_chain Z.eqb].
    f_equal. symmetry. apply Z.sqrt_unique.
    change (2 ^ Z.of_nat 0) with 1 in *. unfold Z.succ. lia.
  - destruct fuel as [|fuel]; [lia|]. cbn [ISqrt_loop].
    pose proof (quarter_chain_pos k) as Hpos.
    destruct (quarter_chain (S k) =? 0) eqn:E; [lia|]. clear E.
    rewrite quarter_chain_step.
    rewrite quarter_chain_square in *. rewrite pow2_succ in *.
    pose proof (pow2_bounds k ltac:(lia)) as Hp.
    set (p := 2 ^ Z.of_nat k) in *.
    assert (HR16 : R < 65536) by nia.
    assert (Hsum : uadd res (p * p) = res + p * p).
    { apply wrap_small. unfold is_ulong, ULONG_MODULUS, ULONG_BITS. subst res. nia. }
    rewrite Hsum.
    destruct (op >=? res + p * p) eqn:Hc.
    + assert (Hsub : usub op (res + p * p) = op - (res + p * p)).
      { apply wrap_small. unfold is_ulong, ULONG_MODULUS, ULONG_BITS. lia. }
      assert (Hshl : ushl (p * p) 1 = 2 * (p * p)).
      { unfold ushl. rewrite Z.shiftl_mul_pow2 by lia. change (2 ^ 1) with 2.
        rewrite Z.mul_comm. apply wrap_small.
        unfold is_ulong, ULONG_MODULUS, ULONG_BITS. nia. }
      assert (Hadd : uadd res (2 * (p * p)) = res + 2 * (p * p)).
      { apply wrap_small. unfold is_ulong, ULONG_MODULUS, ULONG_BITS. subst res. nia. }
      rewrite Hsub, Hshl, Hadd.
      apply (IH fuel _ _ (R + p)); try lia.
      unfold ushr. rewrite Z.shiftr_div_pow2 by lia. change (2 ^ 1) with 2.
      subst res. replace (R * (2 * p) + 2 * (p * p)) with ((R + p) * p * 2) by ring.
      apply Z.div_mul. lia.
    + apply (IH fuel _ _ R); try lia.
      unfold ushr. rewrite Z.shiftr_div_pow2 by lia. change (2 ^ 1) with 2.
      subst res. replace (R * (2 * p)) with (R * p * 2) by ring.
      apply Z.div_mul. lia.
Qed.

(** Below 2^32 [ISqrt_] is the integer square root. *)
Lemma ISqrt_exact (x : Z) : 0 <= x < 4294967296 -> ISqrt_ x = Some (Z.sqrt x).
Proof.
  intros Hx. unfold ISqrt_. change (Z.shiftl 1 30) with (quarter_chain 16).
  destruct (ISqrt_shrink_returns 16 ISqrt_fuel x) as [j [Hj [-> [Hle Hlt]]]];
    [unfold ISqrt_fuel; lia | lia |].
  apply (ISqrt_loop_exact j ISqrt_fuel x x 0 0); try lia.
  - unfold ISqrt_fuel. lia.
  - split; [lia|]. cbn [Z.add].
    destruct (Nat.eq_dec j 16) as [->|Hne].
    + change (2 ^ Z.of_nat 16 * 2 ^ Z.of_nat 16) with 4294967296. lia.
    + rewrite <- quarter_chain_square. apply Hlt. lia.
Qed.

(** For every argument below 2^32, [ISqrt_] returns the integer square
    root. *)
Theorem ISqrt_is_root_below_32_bits (x : Z) :
  0 <= x < 4294967296 ->
  exists r, ISqrt_ x = Some r /\ r * r <= x < (r + 1) * (r + 1).
Proof.
  intros Hx. exists (Z.sqrt x). split; [apply ISqrt_exact; exact Hx|].
  pose proof (Z.sqrt_spec x ltac:(lia)) as H. unfold Z.succ in H. exact H.
Qed.

Lemma ISqrt_is_root_below_32_bits_witness :
  exists r, ISqrt_ 4294967295 = Some r /\ r * r <= 4294967295 < (r + 1) * (r + 1).
Proof.
  apply (ISqrt_is_root_below_32_bits 4294967295). lia.
Defined.

(** For every [unsigned long] argument the two loops of [ISqrt_] end. *)
Theorem ISqrt_terminates (x : Z) : is_ulong x -> exists r, ISqrt_ x = Some r.
Proof.
  intros [Hx _]. apply ISqrt_returns. exact Hx.
Qed.

Lemma ISqrt_terminates_witness : exists r, ISqrt_ 18446744073709551615 = Some r.
Proof.
  apply (ISqrt_terminates 18446744073709551615).
  unfold is_ulong, ULONG_MODULUS, ULONG_BITS. lia.
Defined.

(** ** Dimension size zero *)

(** C9. The divisor set of 0 is empty; [Factors(0, k)] holds no tuple for
    every order k >= 2 (written [S (S order)]), and [Factors(0, 1)] holds the
    single tuple [0]. *)
Theorem zero_dimension_size :
  Factors.CalculateAllFactors_ 0 = Returns [] /\
  (forall order : nat,
      Factors.Factors 0 (S (S order)) = Returns (Factors.mk 0 [] [])) /\
  Factors.Factors 0 1 = Returns (Factors.mk 0 [] [[0]]).
Proof.
  assert (H0 : Factors.CalculateAllFactors_ 0 = Returns []) by reflexivity.
  split; [exact H0|]. split.
  - intros order. unfold Factors.Factors. rewrite H0. reflexivity.
  - reflexivity.
Qed.

(** ** The divisor set below 2^32 *)

Lemma CalculateAllFactors_flat_map (n_ : Z) (l acc : list Z) :
  fold_left (Factors.CalculateAllFactors_step n_) l acc
  = acc ++ flat_map (divisor_pair n_) l.
Proof.
  revert acc. induction l as [|i l IH]; intros acc; cbn [fold_left flat_map].
  - rewrite app_nil_r. reflexivity.
  - rewrite IH. unfold Factors.CalculateAllFactors_step, divisor_pair.
    destruct (n_ mod i =? 0); [|reflexivity].
    destruct (negb (umul i i =? n_)); cbn [app]; rewrite <- !app_assoc; reflexivity.
Qed.

(** Whatever [n_] is, the members of [all_factors_] are 1 or more. *)
Lemma all_factors_positive (n_ : Z) (all : list Z) :
  0 <= n_ -> Factors.CalculateAllFactors_ n_ = Returns all ->
  Forall (fun f => 1 <= f) all.
Proof.
  intros Hn H. destruct (Z.eq_dec n_ 0) as [->|H0].
  - change (Factors.CalculateAllFactors_ 0) with (Returns (@nil Z)) in H.
    injection H as <-. constructor.
  - unfold Factors.CalculateAllFactors_ in H.
    destruct (ISqrt_ n_) as [s|]; [|discriminate]. injection H as <-.
    rewrite CalculateAllFactors_flat_map. cbn [app].
    apply Forall_forall. intros d Hd. apply in_flat_map in Hd.
    destruct Hd as [i [Hi Hd]]. apply in_range in Hi. unfold divisor_pair in Hd.
    destruct (n_ mod i =? 0) eqn:E; [|destruct Hd]. apply Z.eqb_eq in E.
    destruct Hd as [<-|Hd]; [lia|].
    destruct (negb (umul i i =? n_)); [|destruct Hd]. destruct Hd as [<-|[]].
    assert (Hq : n_ = i * (n_ / i)) by (apply Z_div_exact_full_2; lia).
    assert (0 < n_ / i) by nia. lia.
Qed.

Lemma NoDup_flat_map_disjoint {A B : Type} (g : A -> list B) (l : list A) :
  NoDup l ->
  (forall x, In x l -> NoDup (g x)) ->
  (forall x y b, In x l -> In y l -> x <> y -> In b (g x) -> ~ In b (g y)) ->
  NoDup (flat_map g l).
Proof.
  induction 1 as [|x l Hx Hl IH]; intros Hg Hd; cbn [flat_map]; [constructor|].
  apply NoDup_app.
  - apply Hg. left. reflexivity.
  - apply IH.
    + intros y Hy. apply Hg. right. exact Hy.
    + intros y z b Hy Hz. apply Hd; right; assumption.
  - intros b Hb Hin. apply in_flat_map in Hin. destruct Hin as [y [Hy Hby]].
    apply (Hd x y b); auto; [left; reflexivity|right; exact Hy|].
    intros ->. contradiction.
Qed.

Lemma NoDup_range (lo hi : Z) : NoDup (range lo hi).
Proof.
  unfold range. apply NoDup_map_NoDup_ForallPairs; [|apply seq_NoDup].
  intros a b _ _ H. lia.
Qed.

Section DivisorsBelowRoot.

Variable n s : Z.
Hypothesis n_pos : 1 <= n.
Hypothesis s_root : s * s <= n < (s + 1) * (s + 1).
Hypothesis s_small : 0 <= s < 65536.

Lemma umul_below_root (i : Z) : 1 <= i <= s -> umul i i = i * i.
Proof.
  intros Hi. apply wrap_small. unfold is_ulong, ULONG_MODULUS, ULONG_BITS. nia.
Qed.

(** The cofactor of a divisor below the root, other than the root itself, is
    above the root. *)
Lemma cofactor_above_root (i : Z) :
  1 <= i <= s -> n mod i = 0 -> i * i <> n -> s < n / i.
Proof.
  intros Hi Hmod Hne.
  assert (Hq : n = i * (n / i)) by (apply Z_div_exact_full_2; lia).
  generalize dependent (n / i). intros q Hq.
  destruct (Z_lt_le_dec s q) as [Hlt|Hle]; [exact Hlt|]. exfalso.
  assert (0 < q) by nia.
  assert (i * q <= s * q) by nia.
  assert (s * q <= s * s) by nia.
  assert (q = s) by nia.
  assert (i = s) by nia.
  subst. lia.
Qed.

Lemma divisor_pair_members (i d : Z) :
  1 <= i <= s ->
  (In d (divisor_pair n i) <->
   n mod i = 0 /\ (d = i \/ (i * i <> n /\ d = n / i))).
Proof.
  intros Hi. unfold divisor_pair. rewrite (umul_below_root i Hi).
  destruct (n mod i =? 0) eqn:E.
  - apply Z.eqb_eq in E. destruct (i * i =? n) eqn:E2; cbn [negb In].
    + apply Z.eqb_eq in E2. split; [intros [<-|[]]; auto|].
      intros [_ [->|[Hne _]]]; [left; reflexivity|contradiction].
    + apply Z.eqb_neq in E2. split.
      * intros [<-|[<-|[]]]; auto.
      * intros [_ [->|[_ ->]]]; auto.
  - apply Z.eqb_neq in E. split; [intros []|intros [H _]; contradiction].
Qed.

Lemma divisor_pairs_complete (d : Z) :
  In d (flat_map (divisor_pair n) (range 1 s)) <-> 0 < d /\ (d | n).
Proof.
  rewrite in_flat_map. split.
  - intros [i [Hi Hd]]. apply in_range in Hi.
    apply divisor_pair_members in Hd; [|exact Hi]. destruct Hd as [Hmod Hd].
    assert (Hq : n = i * (n / i)) by (apply Z_div_exact_full_2; lia).
    destruct Hd as [->|[_ ->]].
    + split; [lia|]. apply Z.mod_divide; [lia|exact Hmod].
    + split; [|exists i; lia].
      apply Z.div_str_pos. nia.
  - intros [Hd [q Hq]]. assert (0 < q) by nia.
    destruct (Z_le_gt_dec d s) as [Hle|Hgt].
    + exists d. split; [apply in_range; lia|].
      apply divisor_pair_members; [lia|]. split; [|left; reflexivity].
      rewrite Hq. apply Z.mod_mul. lia.
    + assert (q <= s) by nia.
      exists q. split; [apply in_range; lia|].
      apply divisor_pair_members; [lia|].
      split; [rewrite Hq, Z.mul_comm; apply Z.mod_mul; lia|].
      right. split; [nia|]. rewrite Hq. replace (q * d) with (d * q) by ring.
      symmetry. apply Z.div_mul. lia.
Qed.

Lemma divisor_pairs_NoDup : NoDup (flat_map (divisor_pair n) (range 1 s)).
Proof.
  apply NoDup_flat_map_disjoint; [apply NoDup_range| |].
  - intros i Hi. apply in_range in Hi.
    unfold divisor_pair. rewrite (umul_below_root i Hi).
    destruct (n mod i =? 0) eqn:E; [|constructor]. apply Z.eqb_eq in E.
    destruct (i * i =? n) eqn:E2; cbn [negb].
    + constructor; [intros []|constructor].
    + apply Z.eqb_neq in E2.
      pose proof (cofactor_above_root i Hi E E2).
      constructor; [|constructor; [intros []|constructor]].
      intros [H'|[]]. lia.
  - intros i j b Hi Hj Hne Hbi Hbj. apply in_range in Hi, Hj.
    apply divisor_pair_members in Hbi; [|exact Hi].
    apply divisor_pair_members in Hbj; [|exact Hj].
    destruct Hbi as [Hmi Hbi], Hbj as [Hmj Hbj].
    destruct Hbi as [->|[Hni ->]], Hbj as [Hb|[Hnj Hb]].
    + contradiction.
    + pose proof (cofactor_above_root j Hj Hmj Hnj). lia.
    + pose proof (cofactor_above_root i Hi Hmi Hni). lia.
    + assert (Hqi : n = i * (n / i)) by (apply Z_div_exact_full_2; lia).
      assert (Hqj : n = j * (n / j)) by (apply Z_div_exact_full_2; lia).
      pose proof (cofactor_above_root i Hi Hmi Hni).
      rewrite <- Hb in Hqj. generalize dependent (n / i). intros q. intros. nia.
Qed.

End DivisorsBelowRoot.

(** Below 2^32 the loop of [CalculateAllFactors_] runs up to the integer
    square root, which is below 2^16. *)
Lemma CalculateAllFactors_below_32_bits (n : Z) :
  1 <= n < 4294967296 ->
  Factors.CalculateAllFactors_ n
    = Returns (flat_map (divisor_pair n) (range 1 (Z.sqrt n))) /\
  Z.sqrt n * Z.sqrt n <= n < (Z.sqrt n + 1) * (Z.sqrt n + 1) /\
  0 <= Z.sqrt n < 65536.
Proof.
  intros Hn. unfold Factors.CalculateAllFactors_.
  rewrite ISqrt_exact by lia. rewrite CalculateAllFactors_flat_map. cbn [app].
  pose proof (Z.sqrt_spec n ltac:(lia)) as Hs. unfold Z.succ in Hs.
  pose proof (Z.sqrt_nonneg n) as Hs0.
  split; [reflexivity|]. split; [exact Hs|]. nia.
Qed.

(** For 1 <= n < 2^32 the Divisor Set Builder returns the positive divisors of
    [n], each once. *)
Theorem divisors_exact_below_32_bits (n : Z) :
  1 <= n < 4294967296 ->
  exists all,
    Factors.CalculateAllFactors_ n = Returns all /\
    NoDup all /\
    forall d, In d all <-> 0 < d /\ (d | n).
Proof.
  intros Hn.
  destruct (CalculateAllFactors_below_32_bits n Hn) as [Hall [Hroot Hsmall]].
  exists (flat_map (divisor_pair n) (range 1 (Z.sqrt n))).
  split; [exact Hall|]. split.
  - apply divisor_pairs_NoDup; [lia|exact Hroot|exact Hsmall].
  - intros d. apply divisor_pairs_complete; [lia|exact Hroot|exact Hsmall].
Qed.

Lemma divisors_exact_below_32_bits_witness :
  exists all,
    Factors.CalculateAllFactors_ 12 = Returns all /\
    NoDup all /\
    forall d, In d all <-> 0 < d /\ (d | 12).
Proof.
  apply (divisors_exact_below_32_bits 12). lia.
Defined.

(** ** Dimension sizes of 2^32 and more *)

(** 65537 has no divisor from 2 to 256, hence none below itself. *)
Lemma F4_no_small_divisor :
  forallb (fun d => negb (65537 mod d =? 0)) (range 2 256) = true.
Proof. vm_compute. reflexivity. Qed.

Lemma F4_no_divisor (d : Z) : 1 < d < 65537 -> ~ (d | 65537).
Proof.
  intros Hd [q Hq].
  assert (Hsmall : forall e, 2 <= e <= 256 -> 65537 mod e <> 0).
  { intros e He Hmod. pose proof F4_no_small_divisor as H.
    rewrite forallb_forall in H. specialize (H e (proj2 (in_range 2 256 e) He)).
    cbn beta in H. rewrite Hmod in H. discriminate. }
  assert (Hq1 : 1 < q < 65537) by nia.
  destruct (Z_le_gt_dec d 256) as [Hle|Hgt].
  - apply (Hsmall d ltac:(lia)). rewrite Hq. apply Z.mod_mul. lia.
  - assert (q <= 256) by nia.
    apply (Hsmall q ltac:(lia)). rewrite Hq, Z.mul_comm. apply Z.mod_mul. lia.
Qed.

(** No value from 2 to 65535 divides 65537 * 65537. *)
Lemma F4_square_no_divisor (i : Z) :
  2 <= i <= 65535 -> 4295098369 mod i <> 0.
Proof.
  intros Hi Hmod. apply Z.mod_divide in Hmod; [|lia].
  assert (Hg : Z.gcd i 65537 = 1).
  { pose proof (Z.gcd_divide_l i 65537) as Hl.
    pose proof (Z.gcd_divide_r i 65537) as Hr.
    pose proof (Z.gcd_nonneg i 65537) as Hn.
    assert (Z.gcd i 65537 <> 0).
    { intros H0. rewrite H0 in Hr. apply Z.divide_0_l in Hr. discriminate. }
    apply Z.divide_pos_le in Hl; [|lia].
    destruct (Z.eq_dec (Z.gcd i 65537) 1) as [H1|H1]; [exact H1|].
    exfalso. apply (F4_no_divisor (Z.gcd i 65537)); [lia|exact Hr]. }
  change 4295098369 with (65537 * 65537) in Hmod.
  apply Z.gauss in Hmod; [|exact Hg].
  apply (F4_no_divisor i); [lia|exact Hmod].
Qed.

Lemma CalculateAllFactors_skips (n_ : Z) (l acc : list Z) :
  (forall i, In i l -> n_ mod i <> 0) ->
  fold_left (Factors.CalculateAllFactors_step n_) l acc = acc.
Proof.
  revert acc. induction l as [|i l IH]; intros acc H; cbn [fold_left]; [reflexivity|].
  unfold Factors.CalculateAllFactors_step at 2.
  destruct (n_ mod i =? 0) eqn:E.
  - apply Z.eqb_eq in E. exfalso. apply (H i); [left; reflexivity|exact E].
  - apply IH. intros j Hj. apply H. right. exact Hj.
Qed.

(** When no value from 2 to [ISqrt_(n_)] divides [n_], the loop only acts in
    its round for i = 1. *)
Lemma CalculateAllFactors_from_one (n_ s : Z) :
  1 <= s -> ISqrt_ n_ = Some s ->
  (forall i, 2 <= i <= s -> n_ mod i <> 0) ->
  Factors.CalculateAllFactors_ n_ =
    Returns (Factors.CalculateAllFactors_step n_ [] 1).
Proof.
  intros Hs Hsqrt Hno. unfold Factors.CalculateAllFactors_. rewrite Hsqrt.
  rewrite range_cons by exact Hs. cbn [fold_left].
  rewrite CalculateAllFactors_skips; [reflexivity|].
  intros i Hi. apply in_range in Hi. apply Hno. lia.
Qed.

Lemma F4_square_all_factors :
  Factors.CalculateAllFactors_ 4295098369 = Returns [1; 4295098369].
Proof.
  rewrite (CalculateAllFactors_from_one 4295098369 65535).
  - vm_compute. reflexivity.
  - lia.
  - vm_compute. reflexivity.
  - exact F4_square_no_divisor.
Qed.

(** C3, at the failing input 65537 * 65537: [ISqrt_] starts from [1 << 30]
    and answers 65535, so the trial divisions stop before 65537, and the
    divisor 65537 is not in the set. *)
Theorem divisors_missed_above_32_bits :
  ISqrt_ 4295098369 = Some 65535 /\
  Factors.CalculateAllFactors_ 4295098369 = Returns [1; 4295098369] /\
  4295098369 mod 65537 = 0 /\
  ~ In 65537 [1; 4295098369].
Proof.
  split; [vm_compute; reflexivity|].
  split; [exact F4_square_all_factors|].
  split; [reflexivity|].
  simpl. intros [H|[H|[]]]; discriminate.
Qed.

(** C1, at the failing input n = 65537 * 65537, k = 2: the collection holds
    two tuples, and the ordered factorisation (65537, 65537) is not one of
    them. *)
Theorem factorisation_missed_above_32_bits :
  Factors.Factors 4295098369 2 =
    Returns (Factors.mk 4295098369 [1; 4295098369]
                        [[4295098369; 1]; [1; 4295098369]]) /\
  length [65537; 65537] = 2%nat /\
  product [65537; 65537] = 4295098369 /\
  ~ In [65537; 65537] [[4295098369; 1]; [1; 4295098369]].
Proof.
  split.
  { unfold Factors.Factors. rewrite F4_square_all_factors. reflexivity. }
  split; [reflexivity|]. split; [reflexivity|].
  simpl. intros [H|[H|[]]]; discriminate.
Qed.

(** ** The ordered factorisations below 2^32 *)

Lemma fold_left_flat_map {A B : Type} (c : B -> bool) (g : B -> list A)
      (l : list B) (acc : list A) :
  fold_left (fun retval f => if c f then retval ++ g f else retval) l acc
  = acc ++ flat_map (fun f => if c f then g f else []) l.
Proof.
  revert acc. induction l as [|f l IH]; intros acc; cbn [fold_left flat_map].
  - rewrite app_nil_r. reflexivity.
  - rewrite IH. destruct (c f); [rewrite app_assoc|]; reflexivity.
Qed.

Lemma MultiplicativeSplitRecursive_flat_map (D : list Z) (m : Z) (k : nat) :
  Factors.MultiplicativeSplitRecursive_ D m (S (S k))
  = flat_map
      (fun f => if m mod f =? 0
                then map (fun v => v ++ [f])
                         (Factors.MultiplicativeSplitRecursive_ D (m / f) (S k))
                else [])
      D.
Proof.
  cbn [Factors.MultiplicativeSplitRecursive_].
  rewrite (fold_left_flat_map
             (fun f => m mod f =? 0)
             (fun f => map (fun v => v ++ [f])
                           (Factors.MultiplicativeSplitRecursive_ D (m / f) (S k)))).
  reflexivity.
Qed.

Lemma product_positive (t : list Z) : Forall (fun x => 0 < x) t -> 0 < product t.
Proof.
  intros H. assert (1 <= product t); [|lia].
  apply product_pos. eapply Forall_impl; [|exact H]. cbn beta. intros; lia.
Qed.

Section OrderedFactorisations.

Variable n : Z.
Variable D : list Z.
Hypothesis n_pos : 1 <= n.
Hypothesis D_NoDup : NoDup D.
Hypothesis D_divisors : forall d, In d D <-> 0 < d /\ (d | n).

Lemma cofactor_divides (m f : Z) :
  0 < m -> (m | n) -> In f D -> m mod f = 0 ->
  0 < m / f /\ (m / f | n) /\ m = m / f * f.
Proof.
  intros Hm Hmn Hf Hmod. apply D_divisors in Hf. destruct Hf as [Hf _].
  assert (Hq : m = f * (m / f)) by (apply Z_div_exact_full_2; lia).
  assert (0 < m / f) by nia.
  repeat split; [lia| |lia].
  apply Z.divide_trans with m; [|exact Hmn]. exists f. lia.
Qed.

Lemma MultiplicativeSplitRecursive_members (k : nat) (m : Z) (t : list Z) :
  0 < m -> (m | n) ->
  (In t (Factors.MultiplicativeSplitRecursive_ D m (S k)) <->
   length t = S k /\ Forall (fun x => 0 < x) t /\ product t = m).
Proof.
  revert m t. induction k as [|k IH]; intros m t Hm Hmn.
  - cbn [Factors.MultiplicativeSplitRecursive_ In]. split.
    + intros [<-|[]]. repeat split; [repeat constructor; exact Hm|].
      unfold product. cbn. lia.
    + intros [Hlen [Hpos Hprod]]. left.
      destruct t as [|x [|y t]]; try discriminate.
      unfold product in Hprod. cbn in Hprod. f_equal. lia.
  - rewrite MultiplicativeSplitRecursive_flat_map, in_flat_map. split.
    + intros [f [Hf Ht]]. destruct (m mod f =? 0) eqn:E; [|destruct Ht].
      apply Z.eqb_eq in E. apply in_map_iff in Ht. destruct Ht as [v [<- Hv]].
      destruct (cofactor_divides m f Hm Hmn Hf E) as [Hq [Hqn Hmul]].
      apply IH in Hv; [|exact Hq|exact Hqn]. destruct Hv as [Hlen [Hpos Hprod]].
      apply D_divisors in Hf. destruct Hf as [Hf0 _].
      repeat split.
      * rewrite last_length, Hlen. reflexivity.
      * apply Forall_app. split; [exact Hpos|repeat constructor; exact Hf0].
      * rewrite product_app, Hprod. unfold product at 1. cbn [fold_right]. lia.
    + intros [Hlen [Hpos Hprod]].
      destruct (exists_last (l := t)) as [v [f ->]]; [intros ->; discriminate|].
      rewrite last_length in Hlen. injection Hlen as Hlen.
      apply Forall_app in Hpos. destruct Hpos as [Hv Hf].
      apply Forall_inv in Hf. rename Hf into Hf0.
      rewrite product_app in Hprod. unfold product at 2 in Hprod.
      cbn [fold_right] in Hprod. rewrite Z.mul_1_r in Hprod.
      pose proof (product_positive v Hv) as Hpv.
      assert (Hfm : (f | m)) by (exists (product v); lia).
      assert (Hdiv : m / f = product v).
      { rewrite <- Hprod. apply Z.div_mul. lia. }
      exists f. split.
      * apply D_divisors. split; [exact Hf0|].
        apply Z.divide_trans with m; assumption.
      * replace (m mod f =? 0) with true
          by (symmetry; apply Z.eqb_eq; apply Z.mod_divide; [lia|exact Hfm]).
        apply in_map_iff. exists v. split; [reflexivity|].
        rewrite Hdiv. apply IH; [exact Hpv| |auto].
        apply Z.divide_trans with m; [|exact Hmn]. exists f. lia.
Qed.

Lemma MultiplicativeSplitRecursive_NoDup (k : nat) (m : Z) :
  0 < m -> (m | n) -> NoDup (Factors.MultiplicativeSplitRecursive_ D m (S k)).
Proof.
  revert m. induction k as [|k IH]; intros m Hm Hmn.
  - cbn [Factors.MultiplicativeSplitRecursive_]. constructor; [intros []|constructor].
  - rewrite MultiplicativeSplitRecursive_flat_map.
    apply NoDup_flat_map_disjoint; [exact D_NoDup| |].
    + intros f Hf. destruct (m mod f =? 0) eqn:E; [|constructor].
      apply Z.eqb_eq in E.
      destruct (cofactor_divides m f Hm Hmn Hf E) as [Hq [Hqn _]].
      apply NoDup_map_NoDup_ForallPairs; [|apply IH; assumption].
      intros v w _ _ H. apply app_inj_tail in H. apply H.
    + intros f g t _ _ Hne Hf Hg.
      destruct (m mod f =? 0); [|destruct Hf].
      destruct (m mod g =? 0); [|destruct Hg].
      apply in_map_iff in Hf, Hg.
      destruct Hf as [v [<- _]], Hg as [w [Hw _]].
      apply app_inj_tail in Hw. destruct Hw as [_ Hw]. congruence.
Qed.

End OrderedFactorisations.

(** For 1 <= n < 2^32 and k >= 1, [Factors(n, k)] holds exactly the ordered
    factorisations of [n] into [k] positive parts, each once. *)
Theorem factorisations_exact_below_32_bits (n : Z) (k : nat) :
  1 <= n < 4294967296 -> (1 <= k)%nat ->
  exists self,
    Factors.Factors n k = Returns self /\
    NoDup (Factors.cofactors_ self) /\
    forall t, In t (Factors.cofactors_ self) <->
              length t = k /\ Forall (fun x => 0 < x) t /\ product t = n.
Proof.
  intros Hn Hk. destruct k as [|k]; [lia|].
  destruct (CalculateAllFactors_below_32_bits n Hn) as [HD [Hroot Hsmall]].
  pose proof (divisor_pairs_NoDup n (Z.sqrt n) ltac:(lia) Hroot Hsmall) as HND.
  pose proof (fun d => divisor_pairs_complete n (Z.sqrt n) ltac:(lia) Hroot Hsmall d)
    as Hdiv.
  unfold Factors.Factors. rewrite HD. cbn [bind].
  eexists. split; [reflexivity|]. cbn [Factors.cofactors_]. split.
  - apply (MultiplicativeSplitRecursive_NoDup n _ HND Hdiv); [lia|].
    apply Z.divide_refl.
  - intros t. apply (MultiplicativeSplitRecursive_members n _ Hdiv); [lia|].
    apply Z.divide_refl.
Qed.

Lemma factorisations_exact_below_32_bits_witness :
  exists self,
    Factors.Factors 12 2 = Returns self /\
    NoDup (Factors.cofactors_ self) /\
    forall t, In t (Factors.cofactors_ self) <->
              length t = 2%nat /\ Forall (fun x => 0 < x) t /\ product t = 12.
Proof.
  apply (factorisations_exact_below_32_bits 12 2); lia.
Defined.

(** For n = 1 the collection is the single tuple of [order] ones. *)
Theorem unit_dimension_size (order : nat) :
  Factors.Factors 1 order = Returns (Factors.mk 1 [1] [repeat 1 order]).
Proof.
  unfold Factors.Factors. change (Factors.CalculateAllFactors_ 1) with (Returns [1]).
  cbn [bind]. do 2 f_equal.
  destruct order as [|order]; [reflexivity|].
  induction order as [|order IH]; [reflexivity|].
  rewrite MultiplicativeSplitRecursive_flat_map. cbn [flat_map].
  change (1 mod 1 =? 0) with true. change (1 / 1) with 1. cbv iota.
  rewrite IH. cbn [map app]. f_equal.
  symmetry. apply (repeat_cons (S order) 1).
Qed.

(** ** The examples of the specification *)

(** [Factors(n=12, order=2)] holds the six ordered pairs and no others. *)
Theorem twelve_in_two :
  Factors.Factors 12 2 =
    Returns (Factors.mk 12 [1; 12; 2; 6; 3; 4]
                        [[12; 1]; [1; 12]; [6; 2]; [2; 6]; [4; 3]; [3; 4]]).
Proof. reflexivity. Qed.

(** [Factors(n=12, order=3, given={1: 4})] holds the two tuples with 4 at
    position 1 and product 12. *)
Theorem twelve_in_three_given_four :
  Factors.Factors_given 12 3 [(1%nat, 4)] =
    Returns (Factors.mk 12 [1; 12; 2; 6; 3; 4] [[3; 4; 1]; [1; 4; 3]]).
Proof. reflexivity. Qed.

(** ** Given Assignment with every entry accepted *)

(** Soundness of the recursion for any candidate list: the tuples have the
    requested length and multiply to the residual. *)
Lemma MultiplicativeSplitRecursive_sound (D : list Z) (k : nat) (m : Z) (t : list Z) :
  In t (Factors.MultiplicativeSplitRecursive_ D m (S k)) ->
  length t = S k /\ product t = m.
Proof.
  revert m t. induction k as [|k IH]; intros m t H.
  - cbn [Factors.MultiplicativeSplitRecursive_ In] in H. destruct H as [<-|[]].
    split; [reflexivity|]. unfold product. cbn [fold_right]. lia.
  - rewrite MultiplicativeSplitRecursive_flat_map, in_flat_map in H.
    destruct H as [f [_ H]]. destruct (m mod f =? 0) eqn:E; [|destruct H].
    apply Z.eqb_eq in E. apply in_map_iff in H. destruct H as [v [<- Hv]].
    apply IH in Hv. destruct Hv as [Hlen Hprod].
    split; [rewrite last_length, Hlen; reflexivity|].
    rewrite product_app, Hprod. unfold product at 1. cbn [fold_right].
    pose proof (Z_div_mod_eq_full m f). lia.
Qed.

Lemma validate_given_accepts_all (n : Z) (todo kept : given_map) (pp : Z) :
  1 <= n < ULONG_MODULUS -> 1 <= pp ->
  Forall (fun kv => 1 <= snd kv) todo ->
  (pp * product (map snd todo) | n) ->
  Factors.validate_given n pp todo kept
  = Returns (pp * product (map snd todo), kept ++ todo).
Proof.
  intros Hn. revert kept pp. induction todo as [|[i f] todo IH]; intros kept pp Hpp Hpos Hdiv.
  - cbn [Factors.validate_given map]. change (product []) with 1.
    rewrite Z.mul_1_r, app_nil_r. reflexivity.
  - inversion Hpos as [|? ? Hf Hrest]; subst. cbn [snd] in Hf.
    cbn [map snd] in Hdiv. change (product (f :: map snd todo))
      with (f * product (map snd todo)) in Hdiv.
    assert (Hp : 1 <= product (map snd todo)).
    { apply product_pos. clear - Hrest. induction Hrest; constructor; auto. }
    assert (Hd : (pp * f | n)).
    { apply Z.divide_trans with (pp * (f * product (map snd todo))); [|exact Hdiv].
      exists (product (map snd todo)). ring. }
    assert (Hle : pp * f <= n) by (apply Z.divide_pos_le; [lia|exact Hd]).
    assert (Hm : umul f pp = pp * f).
    { unfold umul. rewrite Z.mul_comm. apply wrap_small. unfold is_ulong. nia. }
    assert (Hm' : umul pp f = pp * f).
    { unfold umul. apply wrap_small. unfold is_ulong. nia. }
    assert (Hmod : n mod (pp * f) = 0) by (apply Z.mod_divide; [nia|exact Hd]).
    cbn [Factors.validate_given]. rewrite Hm, Hm', Hmod.
    replace (pp * f =? 0) with false by (symmetry; apply Z.eqb_neq; nia).
    cbn [negb check bind Z.eqb].
    rewrite IH; [|nia|exact Hrest|].
    + cbn [map snd]. change (product (f :: map snd todo))
        with (f * product (map snd todo)).
      rewrite <- app_assoc. cbn [app]. do 2 f_equal. ring.
    + replace (pp * f * product (map snd todo))
        with (pp * (f * product (map snd todo))) by ring. exact Hdiv.
Qed.

Lemma insert_at_spec (index : nat) (value : Z) (c : list Z) :
  (index <= length c)%nat ->
  exists t, insert_at index value c = Returns t /\
            length t = S (length c) /\
            nth index t 0 = value /\
            (forall j, (j < index)%nat -> nth j t 0 = nth j c 0) /\
            product t = product c * value.
Proof.
  intros Hi. unfold insert_at.
  replace (index <=? length c)%nat with true by (symmetry; apply Nat.leb_le; exact Hi).
  eexists. split; [reflexivity|].
  assert (Hlen : length (firstn index c) = index) by (apply firstn_length_le; exact Hi).
  repeat split.
  - rewrite length_app. cbn [length]. rewrite Hlen, length_skipn. lia.
  - rewrite app_nth2 by lia. rewrite Hlen, Nat.sub_diag. reflexivity.
  - intros j Hj. rewrite app_nth1 by lia.
    rewrite <- (firstn_skipn index c) at 2. rewrite app_nth1 by lia. reflexivity.
  - rewrite product_app. change (product (value :: skipn index c))
      with (value * product (skipn index c)).
    rewrite <- (firstn_skipn index c) at 3. rewrite product_app. ring.
Qed.

Lemma insert_given_spec (given : given_map) (lo : nat) (c : list Z) :
  placeable lo (length c) given ->
  exists t, Factors.insert_given given c = Returns t /\
            length t = (length c + length given)%nat /\
            (forall i v, In (i, v) given -> nth i t 0 = v) /\
            (forall j, (j < lo)%nat -> nth j t 0 = nth j c 0) /\
            product t = product c * product (map snd given).
Proof.
  revert lo c. induction given as [|[i v] given IH]; intros lo c H.
  - exists c. cbn [Factors.insert_given length map]. change (product []) with 1.
    repeat split; [lia|intros i v []|lia].
  - destruct H as [Hi Hrest]. cbn [Factors.insert_given].
    replace (i <=? length c)%nat with true by (symmetry; apply Nat.leb_le; lia).
    cbn [check bind].
    destruct (insert_at_spec i v c ltac:(lia)) as [c' [-> [Hlen [Hnth [Hbefore Hprod]]]]].
    cbn [bind]. rewrite <- Hlen in Hrest.
    destruct (IH (S i) c' Hrest) as [t [-> [Hlt [Hall [Hlow Hpt]]]]].
    exists t. split; [reflexivity|]. repeat split.
    + rewrite Hlt, Hlen. cbn [length]. lia.
    + intros i' v' [Heq|Hin]; [|apply Hall; exact Hin].
      injection Heq as <- <-. rewrite Hlow by lia. exact Hnth.
    + intros j Hj. rewrite Hlow by lia. apply Hbefore. lia.
    + rewrite Hpt, Hprod. cbn [map snd].
      change (product (v :: map snd given)) with (v * product (map snd given)). ring.
Qed.

Lemma ascending_keys_fit (given : given_map) (lo order : nat) :
  ascending_from lo given ->
  Forall (fun kv => (fst kv < order)%nat) given ->
  (lo <= order)%nat ->
  (lo + length given <= order)%nat /\
  placeable lo (order - length given) given.
Proof.
  revert lo. induction given as [|[i v] given IH]; intros lo Hasc Hlt Hlo.
  - cbn [length placeable]. split; [lia|exact I].
  - destruct Hasc as [Hi Hasc]. inversion Hlt as [|? ? Hio Hrest]; subst.
    cbn [fst] in Hio.
    destruct (IH (S i) Hasc Hrest ltac:(lia)) as [Hsum Hplace].
    cbn [length placeable]. split; [lia|]. split; [lia|].
    replace (S (order - S (length given))) with (order - length given)%nat by lia.
    exact Hplace.
Qed.

Lemma mapM_returns {A B : Type} (f : A -> outcome B) (Q : B -> Prop) (l : list A) :
  (forall x, In x l -> exists y, f x = Returns y /\ Q y) ->
  exists ys, mapM f l = Returns ys /\ Forall Q ys /\ length ys = length l.
Proof.
  induction l as [|x l IH]; intros H.
  - exists []. repeat split. constructor.
  - destruct (H x ltac:(left; reflexivity)) as [y [Hy HQ]].
    destruct IH as [ys [Hys [Hall Hlen]]]; [intros z Hz; apply H; right; exact Hz|].
    exists (y :: ys). cbn [mapM]. rewrite Hy. cbn [bind]. rewrite Hys. cbn [bind].
    repeat split; [constructor; assumption|cbn [length]; lia].
Qed.

Lemma insert_given_at_end (given : given_map) (c : list Z) :
  placeable (length c) (length c) given ->
  Factors.insert_given given c = Returns (c ++ map snd given).
Proof.
  revert c. induction given as [|[i v] given IH]; intros c H.
  - cbn [Factors.insert_given map]. rewrite app_nil_r. reflexivity.
  - destruct H as [Hi Hrest]. assert (i = length c) by lia. subst i.
    cbn [Factors.insert_given]. rewrite Nat.leb_refl. cbn [check bind].
    unfold insert_at. rewrite Nat.leb_refl. cbn [bind].
    rewrite firstn_all, skipn_all. rewrite IH.
    + rewrite <- app_assoc. reflexivity.
    + rewrite last_length. exact Hrest.
Qed.

(** C4, amended. When the keys of the Given Assignment are positions of the
    tuple (in the ascending order of the map), its values are positive and
    their product divides [n], so that no entry is refused, the construction
    returns, and every produced tuple has [order] entries, carries each given
    value at its declared position, and multiplies exactly to [n] provided a
    position is left free; when every position is given, the only tuple is
    the given values themselves. *)
Theorem given_assignment_accepted (n : Z) (order : nat) (given : given_map) :
  1 <= n < ULONG_MODULUS ->
  wf_map given ->
  Forall (fun kv => (fst kv < order)%nat) given ->
  Forall (fun kv => 1 <= snd kv) given ->
  (product (map snd given) | n) ->
  exists self,
    Factors.Factors_given n order given = Returns self /\
    Forall (fun t => length t = order /\
                     (forall i v, In (i, v) given -> nth i t 0 = v) /\
                     ((length given < order)%nat -> product t = n))
           (Factors.cofactors_ self) /\
    (length given = order -> Factors.cofactors_ self = [map snd given]).
Proof.
  intros Hn Hwf Hkeys Hvals Hdiv. unfold Factors.Factors_given.
  destruct (ascending_keys_fit given 0 order Hwf Hkeys ltac:(lia)) as [Hle Hplace].
  replace (length given <=? order)%nat with true by (symmetry; apply Nat.leb_le; lia).
  cbn [check bind].
  rewrite (validate_given_accepts_all n given [] 1 Hn ltac:(lia) Hvals)
    by (rewrite Z.mul_1_l; exact Hdiv).
  cbn [bind app]. rewrite Z.mul_1_l.
  destruct (CalculateAllFactors_returns n ltac:(lia)) as [D ->]. cbn [bind].
  set (P := product (map snd given)) in *.
  destruct (order - length given)%nat as [|k] eqn:Ek.
  - cbn [Factors.MultiplicativeSplitRecursive_ mapM].
    rewrite (insert_given_at_end given []) by exact Hplace. cbn [bind app].
    eexists. split; [reflexivity|]. cbn [Factors.cofactors_]. split; [|reflexivity].
    destruct (insert_given_spec given 0 [] Hplace) as [t [Ht [Hlt [Hpos _]]]].
    rewrite (insert_given_at_end given []) in Ht by exact Hplace.
    cbn [app] in Ht. injection Ht as <-.
    constructor; [|constructor]. cbn [length] in Hlt.
    repeat split; [lia|exact Hpos|lia].
  - destruct (mapM_returns (Factors.insert_given given)
                (fun t => length t = order /\
                          (forall i v, In (i, v) given -> nth i t 0 = v) /\
                          ((length given < order)%nat -> product t = n))
                (Factors.MultiplicativeSplitRecursive_ D (n / P) (S k)))
      as [ts [-> [Hall _]]].
    + intros c Hc. apply MultiplicativeSplitRecursive_sound in Hc.
      destruct Hc as [Hlen Hprod].
      destruct (insert_given_spec given 0 c) as [t [Ht [Hlt [Hpos [_ Hpt]]]]];
        [rewrite Hlen; exact Hplace|].
      exists t. split; [exact Ht|]. repeat split; [lia|exact Hpos|]. intros _.
      rewrite Hpt, Hprod. fold P. destruct Hdiv as [q Hq].
      assert (1 <= P).
      { apply product_pos. clear - Hvals. induction Hvals; constructor; auto. }
      rewrite Hq, Z.div_mul by lia. reflexivity.
    + cbn [bind]. eexists. split; [reflexivity|]. split; [exact Hall|]. lia.
Qed.

Lemma given_assignment_accepted_witness :
  exists self,
    Factors.Factors_given 12 3 [(1%nat, 4)] = Returns self /\
    Forall (fun t => length t = 3%nat /\
                     (forall i v, In (i, v) [(1%nat, 4)] -> nth i t 0 = v) /\
                     ((length [(1%nat, 4)] < 3)%nat -> product t = 12))
           (Factors.cofactors_ self) /\
    (length [(1%nat, 4)] = 3%nat -> Factors.cofactors_ self = [map snd [(1%nat, 4)]]).
Proof.
  apply (given_assignment_accepted 12 3 [(1%nat, 4)]).
  - unfold ULONG_MODULUS, ULONG_BITS. lia.
  - cbn. split; [lia|exact I].
  - repeat constructor.
  - repeat constructor. cbn. lia.
  - exists 3. reflexivity.
Defined.

(** C4 as stated fails when every position is given: for n = 12, order = 1
    and given = {0: 4} the entry is accepted, the recursion is asked for
    order 0 and returns the empty tuple, and the collection is the single
    tuple (4), which multiplies to 4. *)
Lemma fully_given_counterexample :
  Factors.validate_given 12 1 [(0%nat, 4)] [] = Returns (4, [(0%nat, 4)]) /\
  Factors.Factors_given 12 1 [(0%nat, 4)] =
    Returns (Factors.mk 12 [1; 12; 2; 6; 3; 4] [[4]]) /\
  product [4] <> 12.
Proof.
  split; [reflexivity|]. split; [reflexivity|]. discriminate.
Qed.

(** ** Given Assignment with a refused entry *)

(** A refused entry. For n = 12, order = 3, given = {0: 5, 1: 4} the entry
    (0, 5) is refused and erased, the loop then steps over (1, 4), which
    stays in the map without entering the partial product, and every tuple
    multiplies to 48. With given = {1: 5} the refused entry is the last one,
    and the iterator is moved past the end. *)
Theorem refused_entry_shadows_next :
  Factors.validate_given 12 1 [(0%nat, 5); (1%nat, 4)] [] = Returns (1, [(1%nat, 4)]) /\
  (exists self,
      Factors.Factors_given 12 3 [(0%nat, 5); (1%nat, 4)] = Returns self /\
      Factors.cofactors_ self =
        [[12; 4; 1]; [1; 4; 12]; [6; 4; 2]; [2; 4; 6]; [4; 4; 3]; [3; 4; 4]] /\
      Forall (fun cofactors => product cofactors = 48) (Factors.cofactors_ self)) /\
  Factors.Factors_given 12 3 [(1%nat, 5)] = Fails Undefined.
Proof.
  split; [reflexivity|]. split.
  - eexists. split; [vm_compute; reflexivity|]. split; [reflexivity|].
    simpl. repeat constructor.
  - reflexivity.
Qed.

(** ** Pruning *)

Lemma illegal_in_range (max : given_map) (c : list Z) :
  (forall i m, In (i, m) max -> (i < length c)%nat) ->
  Factors.illegal max c = Returns (negb (within_max max c)).
Proof.
  induction max as [|[i m] max IH]; intros H; [reflexivity|].
  assert (Hi : (i < length c)%nat) by (apply (H i m); left; reflexivity).
  cbn [Factors.illegal within_max forallb].
  replace (i <=? length c)%nat with true by (symmetry; apply Nat.leb_le; lia).
  cbn [check bind]. unfold at_.
  destruct (nth_error c i) as [x|] eqn:E.
  - rewrite (nth_error_nth _ _ 0 E). cbn [bind].
    destruct (x >? m); [reflexivity|].
    rewrite IH by (intros i' m' H'; apply (H i' m'); right; exact H').
    reflexivity.
  - apply nth_error_None in E. lia.
Qed.

Lemma PruneMax_loop_filter (max : given_map) (cof : list (list Z)) :
  (forall c i m, In c cof -> In (i, m) max -> (i < length c)%nat) ->
  Factors.PruneMax_loop max cof = Returns (filter (within_max max) cof).
Proof.
  induction cof as [|c cof IH]; intros H; [reflexivity|].
  cbn [Factors.PruneMax_loop filter].
  rewrite illegal_in_range by (intros i m; apply H; left; reflexivity).
  cbn [bind]. rewrite IH by (intros c' i m Hc; apply H; right; exact Hc).
  cbn [bind]. destruct (within_max max c); reflexivity.
Qed.

Lemma filter_idempotent {A : Type} (p : A -> bool) (l : list A) :
  filter p (filter p l) = filter p l.
Proof.
  induction l as [|x l IH]; [reflexivity|]. simpl.
  destruct (p x) eqn:E; simpl; rewrite ?E, IH; reflexivity.
Qed.

(** C5. When every position named in [max] exists in every tuple,
    [PruneMax(max)] keeps, in their order, exactly the tuples that are within
    [max]; no tuple it keeps exceeds a stated maximum; and a second
    [PruneMax(max)] changes nothing. *)
Theorem PruneMax_keeps_within_max (max : given_map) (self : Factors.t) :
  (forall c i m, In c (Factors.cofactors_ self) -> In (i, m) max -> (i < length c)%nat) ->
  exists pruned,
    Factors.PruneMax max self = Returns pruned /\
    Factors.cofactors_ pruned = filter (within_max max) (Factors.cofactors_ self) /\
    (forall c i m, In c (Factors.cofactors_ pruned) -> In (i, m) max -> nth i c 0 <= m) /\
    Factors.PruneMax max pruned = Returns pruned.
Proof.
  intros H. unfold Factors.PruneMax.
  rewrite PruneMax_loop_filter by exact H. cbn [bind].
  eexists. split; [reflexivity|]. cbn [Factors.cofactors_ Factors.n_ Factors.all_factors_].
  split; [reflexivity|]. split.
  - intros c i m Hc Hm. apply filter_In in Hc. destruct Hc as [_ Hc].
    unfold within_max in Hc. rewrite forallb_forall in Hc.
    specialize (Hc (i, m) Hm). cbn beta iota in Hc.
    destruct (nth i c 0 >? m) eqn:E; [discriminate|]. lia.
  - rewrite PruneMax_loop_filter.
    + rewrite filter_idempotent. reflexivity.
    + intros c i m Hc. apply filter_In in Hc. apply H. apply Hc.
Qed.

Lemma PruneMax_keeps_within_max_witness :
  exists pruned,
    Factors.PruneMax [(0%nat, 3)]
      (Factors.mk 12 [1; 12; 2; 6; 3; 4]
                  [[12; 1]; [1; 12]; [6; 2]; [2; 6]; [4; 3]; [3; 4]]) = Returns pruned /\
    Factors.cofactors_ pruned =
      filter (within_max [(0%nat, 3)])
        (Factors.cofactors_
           (Factors.mk 12 [1; 12; 2; 6; 3; 4]
                       [[12; 1]; [1; 12]; [6; 2]; [2; 6]; [4; 3]; [3; 4]])) /\
    (forall c i m, In c (Factors.cofactors_ pruned) -> In (i, m) [(0%nat, 3)] ->
                   nth i c 0 <= m) /\
    Factors.PruneMax [(0%nat, 3)] pruned = Returns pruned.
Proof.
  apply PruneMax_keeps_within_max.
  intros c i m Hc Hm. simpl in Hc, Hm.
  destruct Hm as [Hm|[]]. inversion Hm; subst.
  repeat (destruct Hc as [Hc|Hc]; [subst c; simpl; lia|]). destruct Hc.
Defined.

(** ** [SmallestFactor] and [GetTiling] *)

Lemma SmallestFactor_splits (n : Z) :
  2 <= n ->
  exists factor residue,
    SmallestFactor n = (factor, residue) /\
    factor * residue = n /\ 2 <= factor /\ 1 <= residue /\ 2 * residue <= n.
Proof.
  intros Hn. unfold SmallestFactor.
  destruct (find (fun i => n mod i =? 0) (range 2 (n - 1))) as [i|] eqn:E.
  - apply find_some in E. destruct E as [Hin Hdiv].
    apply in_range in Hin. apply Z.eqb_eq in Hdiv.
    exists i, (n / i). split; [reflexivity|].
    assert (Hq : n = i * (n / i)) by (apply Z_div_exact_full_2; lia).
    assert (Hpos : 0 < n / i) by (apply Z.div_str_pos; lia).
    generalize dependent (n / i). intros q Hq Hpos.
    repeat split; try lia; nia.
  - exists n, 1. repeat split; lia.
Qed.

Lemma GetTiling_factors_returns (fuel : nat) (residue : Z) (factors : list Z) :
  1 <= residue < 2 ^ (Z.of_nat fuel - 1) ->
  exists fs,
    GetTiling_factors fuel residue factors = Some (factors ++ fs) /\
    product fs = residue /\ Forall (fun f => 2 <= f) fs.
Proof.
  revert residue factors. induction fuel as [|fuel IH]; intros residue factors H.
  - simpl in H. lia.
  - cbn [GetTiling_factors]. destruct (residue >? 1) eqn:E.
    + destruct (SmallestFactor_splits residue ltac:(lia))
        as [cur [res' [-> [Hmul [Hcur [Hres Hhalf]]]]]].
      assert (Hfuel : (1 <= fuel)%nat).
      { destruct fuel; [|lia]. simpl in H. lia. }
      assert (Hpow : 2 ^ (Z.of_nat (S fuel) - 1) = 2 * 2 ^ (Z.of_nat fuel - 1)).
      { replace (Z.of_nat (S fuel) - 1) with (Z.succ (Z.of_nat fuel - 1)) by lia.
        apply Z.pow_succ_r. lia. }
      destruct (IH res' (factors ++ [cur]) ltac:(lia)) as [fs [Hfs [Hprod Hall]]].
      exists (cur :: fs). rewrite Hfs, <- app_assoc. split; [reflexivity|].
      split; [|constructor; assumption].
      change (product (cur :: fs)) with (cur * product fs). lia.
    + exists []. rewrite app_nil_r. split; [reflexivity|].
      split; [|constructor]. change (product []) with 1. lia.
Qed.

Lemma GetTiling_split_from (fs : list Z) (s : nat) (h0 w0 : Z) :
  1 <= h0 -> 1 <= w0 -> Forall (fun f => 1 <= f) fs ->
  h0 * w0 * product fs < ULONG_MODULUS ->
  exists height width,
    fold_left
      (fun '(height, width) '(i, f) =>
         if Nat.even i then (umul height f, width) else (height, umul width f))
      (combine (seq s (length fs)) fs) (h0, w0) = (height, width) /\
    height * width = h0 * w0 * product fs /\ 1 <= height /\ 1 <= width.
Proof.
  revert s h0 w0. induction fs as [|f fs IH]; intros s h0 w0 Hh Hw Hall Hbound.
  - exists h0, w0. change (product []) with 1. repeat split; auto; lia.
  - inversion Hall as [|? ? Hf Hfs]; subst.
    pose proof (product_pos fs Hfs) as Hp.
    change (product (f :: fs)) with (f * product fs) in *.
    cbn [length seq combine fold_left].
    destruct (Nat.even s).
    + assert (Hm : umul h0 f = h0 * f).
      { apply wrap_small. unfold is_ulong. split; [nia|].
        assert (1 <= w0 * product fs) by nia.
        assert (h0 * f <= h0 * f * (w0 * product fs)) by nia.
        replace (h0 * w0 * (f * product fs))
          with (h0 * f * (w0 * product fs)) in Hbound by ring. lia. }
      rewrite Hm.
      destruct (IH (S s) (h0 * f) w0 ltac:(nia) Hw Hfs) as [h [w [E [Hhw [H1 H2]]]]].
      { replace (h0 * f * w0 * product fs) with (h0 * w0 * (f * product fs)) by ring.
        exact Hbound. }
      exists h, w. rewrite E. repeat split; auto. rewrite Hhw. ring.
    + assert (Hm : umul w0 f = w0 * f).
      { apply wrap_small. unfold is_ulong. split; [nia|].
        assert (1 <= h0 * product fs) by nia.
        assert (w0 * f <= w0 * f * (h0 * product fs)) by nia.
        replace (h0 * w0 * (f * product fs))
          with (w0 * f * (h0 * product fs)) in Hbound by ring. lia. }
      rewrite Hm.
      destruct (IH (S s) h0 (w0 * f) Hh ltac:(nia) Hfs) as [h [w [E [Hhw [H1 H2]]]]].
      { replace (h0 * (w0 * f) * product fs) with (h0 * w0 * (f * product fs)) by ring.
        exact Hbound. }
      exists h, w. rewrite E. repeat split; auto. rewrite Hhw. ring.
Qed.

(** C10. For every [num_elems] from 1 up, [GetTiling] returns a height and a
    width whose product is [num_elems], the height being the smaller one. *)
Theorem GetTiling_height_times_width (num_elems : Z) :
  1 <= num_elems < ULONG_MODULUS ->
  exists height width,
    GetTiling num_elems = Some (height, width) /\
    height * width = num_elems /\ height <= width.
Proof.
  intros Hn. unfold GetTiling.
  destruct (GetTiling_factors_returns GetTiling_fuel num_elems [])
    as [fs [-> [Hprod Hall]]].
  { unfold GetTiling_fuel. change (2 ^ (Z.of_nat 65 - 1)) with ULONG_MODULUS. exact Hn. }
  cbn [app]. unfold GetTiling_split.
  destruct (GetTiling_split_from fs 0 1 1) as [h [w [-> [Hhw [Hh Hw]]]]]; try lia.
  { eapply Forall_impl; [|exact Hall]. cbn beta. intros; lia. }
  destruct (h >? w) eqn:E.
  - exists w, h. repeat split; lia.
  - exists h, w. repeat split; lia.
Qed.

Lemma GetTiling_height_times_width_witness :
  exists height width,
    GetTiling 12 = Some (height, width) /\ height * width = 12 /\ height <= width.
Proof.
  apply (GetTiling_height_times_width 12).
  unfold ULONG_MODULUS, ULONG_BITS. lia.
Defined.

(** ** The factors of [GetTiling] are primes *)

Lemma find_range_first (p : Z -> bool) (k : nat) (lo hi i : Z) :
  Z.to_nat (hi + 1 - lo) = k ->
  find p (range lo hi) = Some i ->
  lo <= i <= hi /\ p i = true /\ forall j, lo <= j < i -> p j = false.
Proof.
  revert lo. induction k as [|k IH]; intros lo Hk H.
  - rewrite range_empty in H by lia. discriminate.
  - rewrite range_cons in H by lia. cbn [find] in H.
    destruct (p lo) eqn:E.
    + injection H as <-. repeat split; [lia|lia|exact E|intros j Hj; lia].
    + apply IH in H; [|lia]. destruct H as [Hi [Hp Hfirst]].
      repeat split; [lia|lia|exact Hp|].
      intros j Hj. destruct (Z.eq_dec j lo) as [->|Hne]; [exact E|].
      apply Hfirst. lia.
Qed.

Lemma SmallestFactor_prime (n : Z) : 2 <= n -> is_prime (fst (SmallestFactor n)).
Proof.
  intros Hn. unfold SmallestFactor.
  destruct (find (fun i => n mod i =? 0) (range 2 (n - 1))) as [i|] eqn:E; cbn [fst].
  - apply (find_range_first _ _ _ _ _ eq_refl) in E.
    destruct E as [Hi [Hdiv Hfirst]]. apply Z.eqb_eq in Hdiv.
    split; [lia|]. intros d Hd Hdi.
    assert (Hdn : (d | n)).
    { apply Z.divide_trans with i; [exact Hdi|]. apply Z.mod_divide; [lia|exact Hdiv]. }
    apply Z.mod_divide in Hdn; [|lia].
    specialize (Hfirst d ltac:(lia)). cbn beta in Hfirst.
    rewrite Hdn in Hfirst. discriminate.
  - split; [exact Hn|]. intros d Hd Hdn.
    apply Z.mod_divide in Hdn; [|lia].
    pose proof (find_none _ _ E d (proj2 (in_range 2 (n - 1) d) ltac:(lia))) as H.
    cbn beta in H. rewrite Hdn in H. discriminate.
Qed.

Lemma GetTiling_factors_prime (fuel : nat) (residue : Z) (factors out : list Z) :
  GetTiling_factors fuel residue factors = Some out ->
  Forall is_prime factors -> Forall is_prime out.
Proof.
  revert residue factors. induction fuel as [|fuel IH]; intros residue factors H Hall;
    [discriminate|].
  cbn [GetTiling_factors] in H. destruct (residue >? 1) eqn:E.
  - pose proof (SmallestFactor_prime residue ltac:(lia)) as Hp.
    destruct (SmallestFactor residue) as [cur res']. cbn [fst] in Hp.
    eapply IH; [exact H|]. apply Forall_app. split; [exact Hall|].
    constructor; [exact Hp|constructor].
  - injection H as <-. exact Hall.
Qed.

(** For every [num_elems] from 1 up, the factors that the first loop of
    [GetTiling] pushes are primes and multiply to [num_elems]. *)
Theorem GetTiling_prime_factors (num_elems : Z) :
  1 <= num_elems < ULONG_MODULUS ->
  exists factors,
    GetTiling_factors GetTiling_fuel num_elems [] = Some factors /\
    Forall is_prime factors /\ product factors = num_elems.
Proof.
  intros Hn.
  destruct (GetTiling_factors_returns GetTiling_fuel num_elems [])
    as [fs [H [Hprod _]]].
  { unfold GetTiling_fuel. change (2 ^ (Z.of_nat 65 - 1)) with ULONG_MODULUS. exact Hn. }
  cbn [app] in H. exists fs. split; [exact H|]. split; [|exact Hprod].
  eapply GetTiling_factors_prime; [exact H|constructor].
Qed.

Lemma GetTiling_prime_factors_witness :
  exists factors,
    GetTiling_factors GetTiling_fuel 12 [] = Some factors /\
    Forall is_prime factors /\ product factors = 12.
Proof.
  apply (GetTiling_prime_factors 12). unfold ULONG_MODULUS, ULONG_BITS. lia.
Defined.

(** ** The mixed-radix equation of [EquationSolver_] *)

Lemma mixed_radix_nil (r : list Z) : mixed_radix [] r = 0.
Proof. reflexivity. Qed.

Lemma sum_map_scale (c : Z) (g : nat -> Z) (l : list nat) :
  sum (map (fun i => c * g i) l) = c * sum (map g l).
Proof.
  induction l as [|x l IH]; [change (sum (map g [])) with 0; cbn; lia|].
  change (sum (map (fun i => c * g i) (x :: l)))
    with (c * g x + sum (map (fun i => c * g i) l)).
  change (sum (map g (x :: l))) with (g x + sum (map g l)).
  rewrite IH. ring.
Qed.

(** Horner's form of the reconstruction, the one the loop computes. *)
Lemma mixed_radix_cons (f0 r0 : Z) (f r : list Z) :
  mixed_radix (f0 :: f) (r0 :: r) = (r0 - 1) + f0 * mixed_radix f r.
Proof.
  unfold mixed_radix. cbn [length seq map].
  change (sum (?x :: ?l)) with (x + sum l).
  cbn [nth firstn]. change (product []) with 1.
  rewrite <- seq_shift, map_map.
  rewrite <- (sum_map_scale f0 (fun i => (nth i r 0 - 1) * product (firstn i f))).
  f_equal; [ring|]. f_equal. apply map_ext. intros i. cbn [nth firstn].
  change (product (f0 :: firstn i f)) with (f0 * product (firstn i f)). ring.
Qed.

Lemma wrap_horner (f_j r_j m : Z) :
  uadd (umul f_j (wrap m)) (usub r_j 1) = wrap ((r_j - 1) + f_j * m).
Proof.
  assert (Hm : ULONG_MODULUS <> 0) by (unfold ULONG_MODULUS, ULONG_BITS; lia).
  unfold uadd, umul, usub, wrap.
  rewrite Zplus_mod_idemp_r, Zplus_mod_idemp_l, Z.add_comm.
  rewrite <- Zplus_mod_idemp_r, Z.mul_mod_idemp_r by exact Hm.
  rewrite Zplus_mod_idemp_r. reflexivity.
Qed.

(** What the loop [for (j = f.size(); j > 0; j--)] leaves: the reconstruction
    reduced to 64 bits, and [valid] only if it was so before and no residual
    exceeds its factor. *)
Lemma equation_computes (f r : list Z) (valid : bool) :
  length r = length f ->
  fst (ResidualFactors.equation f r valid) = wrap (mixed_radix f r) /\
  (snd (ResidualFactors.equation f r valid) = true ->
   valid = true /\ Forall2 (fun f_i r_i => r_i <= f_i) f r).
Proof.
  revert r. induction f as [|f0 f IH]; intros [|r0 r] Hlen; try discriminate.
  - split; [reflexivity|]. intros H. split; [exact H|constructor].
  - injection Hlen as Hlen. destruct (IH r Hlen) as [IH1 IH2].
    unfold ResidualFactors.equation in *. cbn [combine fold_right].
    destruct (fold_right _ (0, valid) (combine f r)) as [eq v] eqn:E.
    cbn [fst snd] in *. split.
    + rewrite IH1, mixed_radix_cons. apply wrap_horner.
    + destruct (f0 <? r0) eqn:Hc; [discriminate|].
      intros Hv. destruct (IH2 Hv) as [Hvalid Hall].
      split; [exact Hvalid|]. constructor; [lia|exact Hall].
Qed.

Lemma mixed_radix_bounds (f r : list Z) :
  Forall2 (fun f_i r_i => 1 <= r_i <= f_i) f r ->
  0 <= mixed_radix f r <= product f - 1.
Proof.
  induction 1 as [|f0 r0 f r H0 _ IH].
  - rewrite mixed_radix_nil. change (product []) with 1. lia.
  - rewrite mixed_radix_cons. change (product (f0 :: f)) with (f0 * product f). nia.
Qed.

(** What the loop over the positions of [f] leaves in
    [valid_residual_factors]: one entry per position, the factor itself or an
    entry of the residual candidate [r]. *)
Lemma residual_vector_entries (six sf r fs : list Z) (i : Z) (s_i : nat)
      (acc : list Z) (valid : bool) (vrf : list Z) (v : bool) :
  ResidualFactors.residual_vector six sf r fs i s_i acc valid = Returns (vrf, v) ->
  exists tail, vrf = acc ++ tail /\
               Forall2 (fun f_i r_i => r_i = f_i \/ In r_i r) fs tail.
Proof.
  revert i s_i acc valid. induction fs as [|f_i fs IH]; intros i s_i acc valid H.
  - injection H as <- _. exists []. rewrite app_nil_r. split; [reflexivity|constructor].
  - cbn [ResidualFactors.residual_vector] in H.
    destruct (0 <? count_occ Z.eq_dec six i)%nat.
    + apply bind_returns in H. destruct H as [r_i [Hr H]].
      apply bind_returns in H. destruct H as [bound [_ H]].
      apply IH in H. destruct H as [tail [-> Hall]].
      exists (r_i :: tail). rewrite <- app_assoc. split; [reflexivity|].
      constructor; [|exact Hall]. right.
      unfold at_ in Hr. destruct (nth_error r s_i) eqn:E; [|discriminate].
      injection Hr as <-. eapply nth_error_In. exact E.
    + apply IH in H. destruct H as [tail [-> Hall]].
      exists (f_i :: tail). rewrite <- app_assoc. split; [reflexivity|].
      constructor; [left; reflexivity|exact Hall].
Qed.

Lemma Forall2_and {A B : Type} (P Q : A -> B -> Prop) (a : list A) (b : list B) :
  Forall2 P a b -> Forall2 Q a b -> Forall2 (fun x y => P x y /\ Q x y) a b.
Proof.
  induction 1; intros HQ; inversion HQ; subst; constructor; auto.
Qed.

Lemma solve_pair_accepts (self : ResidualFactors.t) (n : Z) (f r : list Z)
      (sol sol' : list (list Z) * list (list Z)) :
  Forall (fun x => 1 <= x) r ->
  ResidualFactors.solve_pair self n f r sol = Returns sol' ->
  Forall2 (boundary_pair n) (fst sol) (snd sol) ->
  Forall2 (boundary_pair n) (fst sol') (snd sol').
Proof.
  intros Hr H Hsol. unfold ResidualFactors.solve_pair in H.
  apply bind_returns in H. destruct H as [[vrf valid] [Hvec H]].
  apply residual_vector_entries in Hvec. destruct Hvec as [tail [-> Hent]].
  cbn [app] in *.
  assert (Hlen : length tail = length f) by (symmetry; eapply Forall2_length; eauto).
  pose proof (equation_computes f tail valid Hlen) as [Heq Hvalid].
  destruct (ResidualFactors.equation f tail valid) as [ans v]. cbn [fst snd] in *.
  destruct ((uadd ans 1 =? n) && v) eqn:E.
  - injection H as <-. cbn [fst snd]. apply andb_prop in E. destruct E as [En Ev].
    apply Z.eqb_eq in En. destruct (Hvalid Ev) as [_ Hle].
    apply Forall2_app; [exact Hsol|]. constructor; [|constructor].
    assert (Hboth : Forall2 (fun f_i r_i => r_i <= f_i /\ (1 <= f_i -> 1 <= r_i)) f tail).
    { apply Forall2_and; [exact Hle|].
      eapply Forall2_impl; [|exact Hent]. cbn beta. intros a b [->|Hin] Ha; [exact Ha|].
      rewrite Forall_forall in Hr. apply Hr. exact Hin. }
    assert (Hn : wrap (mixed_radix f tail + 1) = n).
    { rewrite <- En, Heq. unfold uadd, wrap.
      rewrite Zplus_mod_idemp_l. reflexivity. }
    split; [exact Hboth|]. split; [exact Hn|].
    intros Hpos Hprod. rewrite <- Hn. symmetry. apply wrap_small.
    assert (Hb : 0 <= mixed_radix f tail <= product f - 1).
    { apply mixed_radix_bounds. clear - Hboth Hpos.
      induction Hboth as [|a b f r [H1 H2] _ IH]; [constructor|].
      inversion Hpos; subst. constructor; [lia|auto]. }
    unfold is_ulong. lia.
  - injection H as <-. exact Hsol.
Qed.

(** ** Candidate pools *)

Lemma fold_left_select {A : Type} (p : A -> bool) (l acc : list A) :
  fold_left (fun acc t => if p t then acc ++ [t] else acc) l acc = acc ++ filter p l.
Proof.
  revert acc. induction l as [|x l IH]; intros acc; cbn [fold_left filter].
  - rewrite app_nil_r. reflexivity.
  - rewrite IH. destruct (p x); [rewrite <- app_assoc|]; reflexivity.
Qed.

Lemma no_member_nil {A : Type} (l : list A) : (forall x, ~ In x l) -> l = [].
Proof.
  destruct l as [|x l]; [reflexivity|]. intros H. exfalso. apply (H x). left. reflexivity.
Qed.

(** Every tuple of a Cartesian product takes its k-th entry from the k-th
    pool. *)
Lemma cart_product_from (v s : list (list Z)) (t : list Z) :
  In t (fold_left (fun s u => flat_map (fun x => map (fun y => x ++ [y]) u) s) v s) ->
  exists x ys, t = x ++ ys /\ In x s /\ Forall2 (fun y u => In y u) ys v.
Proof.
  revert s. induction v as [|u v IH]; intros s H; cbn [fold_left] in H.
  - exists t, []. rewrite app_nil_r. repeat split; [exact H|constructor].
  - apply IH in H. destruct H as [x' [ys [-> [Hx' Hys]]]].
    apply in_flat_map in Hx'. destruct Hx' as [x [Hx Hmap]].
    apply in_map_iff in Hmap. destruct Hmap as [y [<- Hy]].
    exists x, (y :: ys). rewrite <- app_assoc. repeat split; [exact Hx|].
    constructor; assumption.
Qed.

Lemma cart_product_members (v : list (list Z)) (t : list Z) :
  In t (ResidualFactors.cart_product v) -> Forall2 (fun y u => In y u) t v.
Proof.
  intros H. apply cart_product_from in H. destruct H as [x [ys [-> [[<-|[]] Hys]]]].
  exact Hys.
Qed.

Lemma set_nth_length {A : Type} (k : nat) (x : A) (v : list A) :
  length (set_nth k x v) = length v.
Proof.
  revert k. induction v as [|y v IH]; intros [|k]; cbn; auto.
Qed.

Lemma set_nth_members {A : Type} (k : nat) (x u : A) (v : list A) :
  In u (set_nth k x v) -> u = x \/ In u v.
Proof.
  revert k. induction v as [|y v IH]; intros [|k]; cbn; try tauto.
  - intros [H|H]; auto.
  - intros [H|H]; auto. apply IH in H. tauto.
Qed.

Lemma swap_elems_members {A : Type} (d u : A) (i j : nat) (v : list A) :
  In u (swap_elems d i j v) -> u = d \/ In u v.
Proof.
  unfold swap_elems. intros H.
  apply set_nth_members in H. destruct H as [->|H].
  - destruct (nth_in_or_default i v d); auto.
  - apply set_nth_members in H. destruct H as [->|H]; auto.
    destruct (nth_in_or_default j v d); auto.
Qed.

Lemma swap_elems_length {A : Type} (d : A) (i j : nat) (v : list A) :
  length (swap_elems d i j v) = length v.
Proof. unfold swap_elems. rewrite !set_nth_length. reflexivity. Qed.

Lemma foldM_invariant {A B : Type} (f : B -> A -> outcome A)
      (P : A -> Prop) (Q : B -> Prop) (l : list B) (a a' : A) :
  Forall Q l ->
  (forall x b b', Q x -> f x b = Returns b' -> P b -> P b') ->
  ResidualFactors.foldM f l a = Returns a' -> P a -> P a'.
Proof.
  intros Hl Hstep. revert a. induction Hl as [|x l Hx _ IH]; intros a H Ha.
  - injection H as <-. exact Ha.
  - cbn [ResidualFactors.foldM] in H. apply bind_returns in H.
    destruct H as [b [Hb H]]. eapply IH; [exact H|]. eapply Hstep; eauto.
Qed.

Lemma Forall_True {A : Type} (l : list A) : Forall (fun _ => True) l.
Proof. induction l; constructor; auto. Qed.

(** [EquationSolver_] only appends pairs that pass its check. *)
Lemma EquationSolver_accepts (n : Z) (given : given_map) (self self' : ResidualFactors.t) :
  Forall (Forall (fun x => 1 <= x)) (ResidualFactors.pruned_residual_factors_ self) ->
  Forall2 (boundary_pair n) (ResidualFactors.cofactors_ self) (ResidualFactors.rfactors_ self) ->
  ResidualFactors.EquationSolver_ n given self = Returns self' ->
  Forall2 (boundary_pair n) (ResidualFactors.cofactors_ self') (ResidualFactors.rfactors_ self').
Proof.
  intros Hpool Hsol H. unfold ResidualFactors.EquationSolver_ in H.
  apply bind_returns in H. destruct H as [pruned [_ H]].
  apply bind_returns in H. destruct H as [sol [Hfold H]].
  injection H as <-. cbn [ResidualFactors.set_solutions_ ResidualFactors.cofactors_
                          ResidualFactors.rfactors_].
  revert Hfold Hsol.
  change (ResidualFactors.cofactors_ self)
    with (fst (ResidualFactors.cofactors_ self, ResidualFactors.rfactors_ self)).
  change (ResidualFactors.rfactors_ self)
    with (snd (ResidualFactors.cofactors_ self, ResidualFactors.rfactors_ self)) at 2.
  apply (foldM_invariant _ (fun s => Forall2 (boundary_pair n) (fst s) (snd s))
                         (fun _ => True)); [apply Forall_True|].
  intros f b b' _. 
  apply (foldM_invariant _ (fun s => Forall2 (boundary_pair n) (fst s) (snd s))
                         (Forall (fun x => 1 <= x))); [exact Hpool|].
  intros r c c' Hr. apply solve_pair_accepts. exact Hr.
Qed.

Lemma in_ranges_from_one (r spatial : list Z) :
  Forall2 (fun y u => In y u) r (map (fun i => range 1 i) spatial) ->
  Forall (fun x => 1 <= x) r.
Proof.
  revert r. induction spatial as [|b spatial IH]; intros r H; inversion H; subst.
  - constructor.
  - constructor; [|apply IH; assumption].
    match goal with Hin : In _ (range 1 _) |- _ => apply in_range in Hin; lia end.
Qed.

(** The residual candidates are tuples of values from 1 up, one per spatial
    bound. *)
Lemma GenerateResidual_pool (n : Z) (order : nat) (self self' : ResidualFactors.t) :
  ResidualFactors.GenerateResidual_ n order self = Returns self' ->
  ResidualFactors.pruned_residual_factors_ self = [] ->
  Forall (fun r => Forall (fun x => 1 <= x) r /\
                   length r = length (ResidualFactors.spatial_factors_ self))
         (ResidualFactors.pruned_residual_factors_ self') /\
  self' = ResidualFactors.set_pruned_residual_factors_ self
            (ResidualFactors.pruned_residual_factors_ self').
Proof.
  intros H Hnil. unfold ResidualFactors.GenerateResidual_ in H.
  apply bind_returns in H. destruct H as [_ [_ H]]. injection H as <-.
  cbn [ResidualFactors.set_pruned_residual_factors_
         ResidualFactors.pruned_residual_factors_].
  split; [|reflexivity].
  rewrite (fold_left_select
             (fun t => fold_left uadd t 0 <=? uadd n (Z.of_nat order))).
  rewrite Hnil. cbn [app]. apply Forall_forall. intros r Hr.
  apply filter_In in Hr. destruct Hr as [Hr _].
  apply cart_product_members in Hr.
  split.
  - eapply in_ranges_from_one. exact Hr.
  - apply Forall2_length in Hr. rewrite length_map in Hr. exact Hr.
Qed.

Lemma fold_left_app_members {A B : Type} (g : B -> list A) (l : list B)
      (acc : list A) (t : A) :
  In t (fold_left (fun acc x => acc ++ g x) l acc) ->
  In t acc \/ exists x, In x l /\ In t (g x).
Proof.
  revert acc. induction l as [|x l IH]; intros acc H; cbn [fold_left] in H.
  - left. exact H.
  - apply IH in H. destruct H as [H|[x' [Hx' H]]].
    + apply in_app_or in H. destruct H as [H|H]; [left; exact H|].
      right. exists x. split; [left; reflexivity|exact H].
    + right. exists x'. split; [right; exact Hx'|exact H].
Qed.

Lemma Forall2_in_pools (all t : list Z) (v : list (list Z)) :
  Forall2 (fun y u => In y u) t v ->
  (forall u, In u v -> incl u all) ->
  Forall (fun a => In a all) t.
Proof.
  induction 1 as [|y u t v Hy _ IH]; intros Hv; constructor.
  - apply (Hv u); [left; reflexivity|exact Hy].
  - apply IH. intros u' Hu'. apply Hv. right. exact Hu'.
Qed.

(** The factor candidates of one call of [GenerateFactorProduct_] are tuples
    of [order] members of [all_factors_]. *)
Lemma GenerateFactorProduct_members (sqrt_bound : Z -> Z) (n : Z) (order : nat)
      (self : ResidualFactors.t) (t : list Z) :
  In t (ResidualFactors.pruned_product_factors_
          (ResidualFactors.GenerateFactorProduct_ sqrt_bound n order self)) ->
  In t (ResidualFactors.pruned_product_factors_ self) \/
  In t (ResidualFactors.replicated_factors_ self) \/
  (Forall (fun a => In a (ResidualFactors.all_factors_ self)) t /\
   length t = order /\ (1 <= order)%nat).
Proof.
  unfold ResidualFactors.GenerateFactorProduct_.
  cbn [ResidualFactors.set_product_factors_ ResidualFactors.pruned_product_factors_].
  rewrite (fold_left_select (fun t => ResidualFactors.pruning_product t <=? n)).
  intros H. apply in_app_or in H. destruct H as [H|H]; [left; exact H|].
  right. apply filter_In in H. destruct H as [H _].
  apply (fold_left_app_members
           (fun rec =>
              ResidualFactors.cart_product
                (swap_elems [] 0 rec
                   (map (ResidualFactors.position_candidates sqrt_bound self rec)
                        (seq 0 order))))) in H.
  destruct H as [H|[rec [Hrec H]]]; [left; exact H|]. right.
  apply in_seq in Hrec. apply cart_product_members in H.
  split; [|split; [|lia]].
  - eapply Forall2_in_pools; [exact H|].
    intros u Hu. apply swap_elems_members in Hu. destruct Hu as [->|Hu].
    + intros a [].
    + apply in_map_iff in Hu. destruct Hu as [i [<- _]].
      unfold ResidualFactors.position_candidates. intros a Ha.
      apply filter_In in Ha. apply Ha.
  - apply Forall2_length in H. rewrite swap_elems_length, length_map, length_seq in H.
    exact H.
Qed.

Lemma mapM_splice_zero (pool pruned : list (list Z)) :
  mapM (ResidualFactors.splice_given [(0%nat, 0)]) pool = Returns pruned ->
  pruned = map (cons 0) pool.
Proof.
  revert pruned. induction pool as [|f pool IH]; intros pruned H; cbn [mapM] in H.
  - injection H as <-. reflexivity.
  - apply bind_returns in H. destruct H as [f' [Hf H]].
    apply bind_returns in H. destruct H as [rest [Hrest H]].
    injection H as <-. rewrite (IH rest Hrest).
    cbn in Hf. injection Hf as <-. reflexivity.
Qed.

(** A candidate whose position 0 holds the factor 0 is never accepted for a
    dimension size other than 0. *)
Lemma solve_pair_zero_head (self : ResidualFactors.t) (n : Z) (f r : list Z)
      (sol sol' : list (list Z) * list (list Z)) :
  Forall (fun x => 1 <= x) r -> n <> 0 ->
  ResidualFactors.solve_pair self n (0 :: f) r sol = Returns sol' ->
  sol' = sol.
Proof.
  intros Hr Hn H. unfold ResidualFactors.solve_pair in H.
  apply bind_returns in H. destruct H as [[vrf valid] [Hvec H]].
  apply residual_vector_entries in Hvec. destruct Hvec as [tail [-> Hent]].
  cbn [app] in H. inversion Hent as [|? r0 ? tail' Hr0 _]; subst.
  unfold ResidualFactors.equation in H. cbn [combine fold_right] in H.
  destruct (fold_right _ (0, valid) (combine f tail')) as [ans v].
  destruct Hr0 as [->|Hin].
  - replace (uadd (uadd (umul 0 ans) (usub 0 1)) 1) with 0 in H.
    + destruct (0 =? n) eqn:E; [apply Z.eqb_eq in E; congruence|].
      cbn [andb] in H. injection H as <-. reflexivity.
    + unfold umul. rewrite Z.mul_0_l. reflexivity.
  - rewrite Forall_forall in Hr. specialize (Hr r0 Hin).
    replace (0 <? r0) with true in H by (symmetry; apply Z.ltb_lt; lia).
    rewrite andb_false_r in H. injection H as <-. reflexivity.
Qed.

Lemma EquationSolver_zero_head (n : Z) (self self' : ResidualFactors.t) :
  Forall (Forall (fun x => 1 <= x)) (ResidualFactors.pruned_residual_factors_ self) ->
  ResidualFactors.cofactors_ self = [] -> ResidualFactors.rfactors_ self = [] ->
  (n = 0 -> ResidualFactors.pruned_product_factors_ self = []) ->
  ResidualFactors.EquationSolver_ n [(0%nat, 0)] self = Returns self' ->
  ResidualFactors.cofactors_ self' = [] /\ ResidualFactors.rfactors_ self' = [].
Proof.
  intros Hpool Hc Hr Hzero H. unfold ResidualFactors.EquationSolver_ in H.
  apply bind_returns in H. destruct H as [pruned [Hpruned H]].
  apply bind_returns in H. destruct H as [sol [Hfold H]].
  injection H as <-. cbn [ResidualFactors.set_solutions_ ResidualFactors.cofactors_
                          ResidualFactors.rfactors_].
  apply mapM_splice_zero in Hpruned. rewrite Hc, Hr in Hfold.
  assert (Hsol : sol = ([], [])); [|rewrite Hsol; split; reflexivity].
  refine (foldM_invariant _ (fun s => s = ([], []))
                          (fun f => n <> 0 /\ exists f', f = 0 :: f')
                          pruned ([], []) sol _ _ Hfold eq_refl).
  - subst pruned. destruct (Z.eq_dec n 0) as [Hn|Hn].
    + rewrite (Hzero Hn). constructor.
    + apply Forall_forall. intros f Hf. apply in_map_iff in Hf.
      destruct Hf as [f' [<- _]]. split; [exact Hn|]. exists f'. reflexivity.
  - intros f b b' [Hn [f' ->]].
    apply (foldM_invariant _ (fun s => s = ([], []))
                           (Forall (fun x => 1 <= x))); [exact Hpool|].
    intros r c c' Hr1 Hstep ->. eapply solve_pair_zero_head; eauto.
Qed.

(** ** The constructors of [ResidualFactors] *)

Lemma CalculateAllFactors_frame (self self' : ResidualFactors.t) :
  ResidualFactors.CalculateAllFactors_ self = Returns self' ->
  self' = ResidualFactors.set_all_factors_ self (ResidualFactors.all_factors_ self').
Proof.
  unfold ResidualFactors.CalculateAllFactors_.
  destruct (ISqrt_ (ResidualFactors.n_ self)); [|discriminate].
  intros H. injection H as <-. reflexivity.
Qed.

Lemma CalculateSpatialFactors_frame (sm : Z -> Z -> Z) (self self' : ResidualFactors.t) :
  ResidualFactors.CalculateSpatialFactors_ sm self = Returns self' ->
  self' = ResidualFactors.set_all_factors_ self (ResidualFactors.all_factors_ self').
Proof.
  unfold ResidualFactors.CalculateSpatialFactors_. intros H.
  apply bind_returns in H. destruct H as [_ [_ H]].
  apply bind_returns in H. destruct H as [_ [_ H]].
  injection H as <-. reflexivity.
Qed.

Lemma fold_left_unchanged {A B : Type} (g : A -> B -> A) (l : list B) (a : A) :
  (forall a x, g a x = a) -> fold_left g l a = a.
Proof.
  intros Hg. revert a. induction l as [|x l IH]; intros a; cbn [fold_left]; [reflexivity|].
  rewrite Hg. apply IH.
Qed.

(** For the dimension size 0 no factor candidate is found. *)
Lemma no_factors_of_zero (sm : Z -> Z -> Z) (self self1 self2 : ResidualFactors.t) :
  ResidualFactors.n_ self = 0 -> ResidualFactors.all_factors_ self = [] ->
  ResidualFactors.CalculateAllFactors_ self = Returns self1 ->
  ResidualFactors.CalculateSpatialFactors_ sm self1 = Returns self2 ->
  ResidualFactors.all_factors_ self2 = [].
Proof.
  intros Hn Hall H1 H2.
  unfold ResidualFactors.CalculateAllFactors_ in H1. rewrite Hn, Hall in H1.
  change (ISqrt_ 0) with (Some 0) in H1. injection H1 as <-.
  unfold ResidualFactors.CalculateSpatialFactors_ in H2.
  apply bind_returns in H2. destruct H2 as [_ [_ H2]].
  apply bind_returns in H2. destruct H2 as [_ [_ H2]].
  injection H2 as <-.
  cbn [ResidualFactors.set_all_factors_ ResidualFactors.all_factors_
       ResidualFactors.n_ ResidualFactors.spatial_factors_].
  rewrite Hn. apply fold_left_unchanged. intros a x. reflexivity.
Qed.

(** The constructor without a Given Assignment retains no pair: the map
    [given] it hands to [EquationSolver_] holds the entry (0, 0), so every
    candidate gets the factor 0 at position 0, and no such candidate passes
    the check. *)
Lemma plain_constructor_retains_nothing
      (sb : Z -> Z) (sm : Z -> Z -> Z) (n : Z) (order : nat)
      (spatial spatial_indices : list Z) (self : ResidualFactors.t) :
  ResidualFactors.ResidualFactors sb sm n order spatial spatial_indices = Returns self ->
  ResidualFactors.cofactors_ self = [] /\ ResidualFactors.rfactors_ self = [].
Proof.
  intros H. unfold ResidualFactors.ResidualFactors in H.
  apply bind_returns in H. destruct H as [s1 [H1 H]].
  apply bind_returns in H. destruct H as [s2 [H2 H]].
  apply bind_returns in H. destruct H as [s4 [H4 H]].
  apply bind_returns in H. destruct H as [s5 [H5 H]].
  injection H as <-.
  cbn [ResidualFactors.set_solutions_ ResidualFactors.cofactors_ ResidualFactors.rfactors_].
  pose proof (CalculateAllFactors_frame _ _ H1) as F1.
  pose proof (CalculateSpatialFactors_frame _ _ _ H2) as F2.
  apply GenerateResidual_pool in H4; [|rewrite F2, F1; reflexivity].
  destruct H4 as [Hpool F4].
  apply EquationSolver_zero_head in H5.
  - destruct H5 as [-> ->]. split; reflexivity.
  - eapply Forall_impl; [|exact Hpool]. cbn beta. intros r Hr. apply Hr.
  - rewrite F4, F2, F1. reflexivity.
  - rewrite F4, F2, F1. reflexivity.
  - intros Hn. rewrite F4.
    cbn [ResidualFactors.set_pruned_residual_factors_
           ResidualFactors.pruned_product_factors_].
    apply no_member_nil. intros t Ht.
    apply GenerateFactorProduct_members in Ht.
    assert (Hall : ResidualFactors.all_factors_ s2 = []).
    { eapply no_factors_of_zero; [| |exact H1|exact H2]; [exact Hn|reflexivity]. }
    rewrite Hall in Ht. rewrite F2, F1 in Ht.
    destruct Ht as [[]|[[]|[Hmem [Hlen Hord]]]].
    destruct t as [|a t]; [cbn in Hlen; lia|].
    inversion Hmem as [|? ? []].
Qed.

Lemma given_constructor_accepts
      (sb : Z -> Z) (sm : Z -> Z -> Z) (n : Z) (order : nat)
      (spatial spatial_indices : list Z) (given : given_map) (self : ResidualFactors.t) :
  ResidualFactors.ResidualFactors_given sb sm n order spatial spatial_indices given
    = Returns self ->
  Forall2 (boundary_pair n) (ResidualFactors.cofactors_ self) (ResidualFactors.rfactors_ self).
Proof.
  intros H. unfold ResidualFactors.ResidualFactors_given in H.
  apply bind_returns in H. destruct H as [_ [_ H]].
  apply bind_returns in H. destruct H as [[pp given'] [_ H]].
  apply bind_returns in H. destruct H as [s1 [H1 H]].
  apply bind_returns in H. destruct H as [s2 [H2 H]].
  apply bind_returns in H. destruct H as [s4 [H4 H]].
  apply bind_returns in H. destruct H as [s5 [H5 H]].
  injection H as <-.
  cbn [ResidualFactors.cofactors_ ResidualFactors.rfactors_].
  pose proof (CalculateAllFactors_frame _ _ H1) as F1.
  pose proof (CalculateSpatialFactors_frame _ _ _ H2) as F2.
  apply GenerateResidual_pool in H4; [|rewrite F2, F1; reflexivity].
  destruct H4 as [Hpool F4].
  eapply EquationSolver_accepts; [| |exact H5].
  - eapply Forall_impl; [|exact Hpool]. cbn beta. intros r Hr. apply Hr.
  - rewrite F4, F2, F1. constructor.
Qed.

Lemma Forall2_nth_error {A B : Type} (P : A -> B -> Prop) (a : list A) (b : list B)
      (k : nat) (x : A) (y : B) :
  Forall2 P a b -> nth_error a k = Some x -> nth_error b k = Some y -> P x y.
Proof.
  intros H. revert k. induction H as [|x' y' a b Hxy _ IH]; intros [|k] Ha Hb;
    try discriminate.
  - injection Ha as <-. injection Hb as <-. exact Hxy.
  - eapply IH; eauto.
Qed.

(** C2, amended. Every pair that a construction of [ResidualFactors] retains
    has, at every position, a residual not above the factor, and not below 1
    where the factor is 1 or more; its mixed-radix reconstruction V, position
    0 least significant, satisfies V + 1 = n modulo 2^64, and V + 1 = n as
    integers when the factors are positive and their product is below 2^64. *)
Theorem retained_pairs_pass_the_check
        (sb : Z -> Z) (sm : Z -> Z -> Z) (n : Z) (order : nat)
        (spatial spatial_indices : list Z) (given : given_map)
        (self : ResidualFactors.t) (f r : list Z) :
  ResidualFactors.ResidualFactors sb sm n order spatial spatial_indices = Returns self \/
  ResidualFactors.ResidualFactors_given sb sm n order spatial spatial_indices given
    = Returns self ->
  retained self f r ->
  boundary_pair n f r.
Proof.
  intros H [index Hget]. unfold ResidualFactors.get in Hget.
  destruct (nth_error (ResidualFactors.cofactors_ self) index) as [cfm|] eqn:Ef;
    [|discriminate].
  destruct (nth_error (ResidualFactors.rfactors_ self) index) as [rfm|] eqn:Er;
    [|discriminate].
  injection Hget as -> ->.
  destruct H as [H|H].
  - apply plain_constructor_retains_nothing in H. destruct H as [Hc _].
    rewrite Hc in Ef. destruct index; discriminate.
  - apply given_constructor_accepts in H.
    eapply Forall2_nth_error; eauto.
Qed.

Lemma retained_pairs_pass_the_check_witness : boundary_pair 5 [2; 3] [1; 3].
Proof.
  eapply (retained_pairs_pass_the_check
            ResidualFactors.small_sqrt_bound ResidualFactors.small_spatial_multiple
            5 2 [3] [0] [] _ [2; 3] [1; 3]).
  - right. vm_compute. reflexivity.
  - exists 0%nat. reflexivity.
Defined.

(** C2 as stated fails where the 64-bit arithmetic wraps: for n = 4,
    order = 3 and given = {0: 2, 1: 2^63 + 1} the pair with factors and
    residuals (2, 2^63 + 1, 2) is retained, and its reconstruction plus 1 is
    2^65 + 4. *)
Lemma mixed_radix_wraps_counterexample :
  exists self,
    ResidualFactors.ResidualFactors_given
      ResidualFactors.small_sqrt_bound ResidualFactors.small_spatial_multiple
      4 3 [] [] [(0%nat, 2); (1%nat, 9223372036854775809)] = Returns self /\
    retained self [2; 9223372036854775809; 2] [2; 9223372036854775809; 2] /\
    mixed_radix [2; 9223372036854775809; 2] [2; 9223372036854775809; 2] + 1
      = 36893488147419103236 /\
    mixed_radix [2; 9223372036854775809; 2] [2; 9223372036854775809; 2] + 1 <> 4.
Proof.
  eexists. split; [vm_compute; reflexivity|].
  split; [exists 0%nat; reflexivity|].
  split; [reflexivity|]. discriminate.
Qed.

(** ** The constructor without a Given Assignment *)

(** The constructor of [ResidualFactors] that takes no Given Assignment
    never retains a pair, whatever the dimension size, the order and the
    spatial bounds. *)
Theorem plain_residual_constructor_is_empty
        (sb : Z -> Z) (sm : Z -> Z -> Z) (n : Z) (order : nat)
        (spatial spatial_indices : list Z) (self : ResidualFactors.t) :
  ResidualFactors.ResidualFactors sb sm n order spatial spatial_indices = Returns self ->
  ResidualFactors.size self = 0%nat /\
  ResidualFactors.cofactors_ self = [] /\ ResidualFactors.rfactors_ self = [].
Proof.
  intros H. apply plain_constructor_retains_nothing in H. destruct H as [Hc Hr].
  unfold ResidualFactors.size. rewrite Hc, Hr. repeat split.
Qed.

Lemma plain_residual_constructor_is_empty_witness :
  exists self,
    ResidualFactors.ResidualFactors
      ResidualFactors.small_sqrt_bound ResidualFactors.small_spatial_multiple
      6 2 [3] [1] = Returns self /\
    ResidualFactors.size self = 0%nat /\
    ResidualFactors.cofactors_ self = [] /\ ResidualFactors.rfactors_ self = [].
Proof.
  eexists. split.
  - vm_compute. reflexivity.
  - apply (plain_residual_constructor_is_empty
             ResidualFactors.small_sqrt_bound ResidualFactors.small_spatial_multiple
             6 2 [3] [1]).
    vm_compute. reflexivity.
Defined.

(** ** Order zero *)


Lemma forallb_below (bound : Z) (l : list Z) :
  Forall (fun b => b < bound) l -> forallb (fun b => b <? bound) l = true.
Proof.
  intros H. apply forallb_forall. rewrite Forall_forall in H.
  intros b Hb. apply Z.ltb_lt. apply H. exact Hb.
Qed.







(** ** The given-assignment constructor stores pairs as solved *)

(** C7, at the failing input n = 5, order = 2, one spatial bound 3 at
    position 0 and an empty Given Assignment: the pairs are stored as
    [EquationSolver_] pushed them, position 0 being the least significant
    digit of the reconstruction; the constructor has no reversing loop. *)
Theorem given_constructor_stores_unreversed :
  exists self,
    ResidualFactors.ResidualFactors_given
      ResidualFactors.small_sqrt_bound ResidualFactors.small_spatial_multiple
      5 2 [3] [0] [] = Returns self /\
    ResidualFactors.cofactors_ self = [[2; 3]; [3; 2]; [1; 5]; [2; 3]] /\
    ResidualFactors.rfactors_ self = [[1; 3]; [2; 2]; [1; 5]; [1; 3]] /\
    ResidualFactors.get self 0 = Returns ([2; 3], [1; 3]) /\
    mixed_radix [2; 3] [1; 3] + 1 = 5 /\
    mixed_radix (rev [2; 3]) (rev [1; 3]) + 1 = 3.
Proof.
  eexists. split; [vm_compute; reflexivity|].
  repeat split; reflexivity.
Qed.

(** ** Determinism *)










(** * Further properties of the code *)

(** ** [ISqrt_] from 2^32 on *)

(** The invariant of the second loop when [x] is 2^32 or more: every test
    succeeds, so every bit of the 16-bit root is set. *)
Lemma ISqrt_loop_saturates (k fuel : nat) (x op res R : Z) :
  (k < fuel)%nat -> (k <= 16)%nat ->
  R = 65536 - 2 ^ Z.of_nat k -> res = R * 2 ^ Z.of_nat k -> op = x - R * R ->
  4294967296 <= x < ULONG_MODULUS ->
  ISqrt_loop fuel op res (quarter_chain k) = Some 65535.
Proof.
  revert fuel op res R. induction k as [|k IH]; intros fuel op res R Hf Hk HR Hres Hop Hx.
  - destruct fuel as [|fuel]; [lia|]. cbn [ISqrt_loop quarter_chain Z.eqb].
    change (2 ^ Z.of_nat 0) with 1 in *. f_equal. lia.
  - destruct fuel as [|fuel]; [lia|]. cbn [ISqrt_loop].
    pose proof (quarter_chain_pos k) as Hpos.
    destruct (quarter_chain (S k) =? 0) eqn:E; [lia|]. clear E.
    rewrite quarter_chain_step.
    rewrite quarter_chain_square in *. rewrite pow2_succ in *.
    pose proof (pow2_bounds k ltac:(lia)) as Hp.
    assert (Hp2 : 2 * 2 ^ Z.of_nat k <= 65536).
    { rewrite <- pow2_succ. apply pow2_bounds. lia. }
    set (p := 2 ^ Z.of_nat k) in *.
    assert (Hx64 : x < 18446744073709551616) by (unfold ULONG_MODULUS, ULONG_BITS in Hx; lia).
    assert (Hsum : uadd res (p * p) = res + p * p).
    { apply wrap_small. unfold is_ulong, ULONG_MODULUS, ULONG_BITS. subst res R. nia. }
    rewrite Hsum.
    assert (Hc : (op >=? res + p * p) = true).
    { apply Z.geb_le. subst op res R. nia. }
    rewrite Hc.
    assert (Hsub : usub op (res + p * p) = op - (res + p * p)).
    { apply wrap_small. unfold is_ulong, ULONG_MODULUS, ULONG_BITS.
      apply Z.geb_le in Hc. subst op R. nia. }
    assert (Hshl : ushl (p * p) 1 = 2 * (p * p)).
    { unfold ushl. rewrite Z.shiftl_mul_pow2 by lia. change (2 ^ 1) with 2.
      rewrite Z.mul_comm. apply wrap_small.
      unfold is_ulong, ULONG_MODULUS, ULONG_BITS. nia. }
    assert (Hadd : uadd res (2 * (p * p)) = res + 2 * (p * p)).
    { apply wrap_small. unfold is_ulong, ULONG_MODULUS, ULONG_BITS. subst res R. nia. }
    rewrite Hsub, Hshl, Hadd.
    apply (IH fuel _ _ (R + p)); try lia.
    + unfold ushr. rewrite Z.shiftr_div_pow2 by lia. change (2 ^ 1) with 2.
      subst res. replace (R * (2 * p) + 2 * (p * p)) with ((R + p) * p * 2) by ring.
      apply Z.div_mul. lia.
Qed.

Lemma ISqrt_saturates (x : Z) :
  4294967296 <= x < ULONG_MODULUS -> ISqrt_ x = Some 65535.
Proof.
  intros Hx. unfold ISqrt_, ISqrt_fuel. cbn [ISqrt_shrink].
  change (Z.shiftl 1 30) with 1073741824.
  destruct (1073741824 >? x) eqn:E; [lia|]. clear E.
  change 1073741824 with (quarter_chain 16).
  apply (ISqrt_loop_saturates 16 20 x x 0 0); try lia; reflexivity.
Qed.

(** For every argument from 2^32 to 2^64 - 1, [ISqrt_] returns 65535: it
    starts from [1 << 30], so it finds at most sixteen bits of the root. *)
Theorem ISqrt_saturates_above_32_bits (x : Z) :
  4294967296 <= x < ULONG_MODULUS ->
  ISqrt_ x = Some 65535 /\ (65535 + 1) * (65535 + 1) <= x.
Proof.
  intros Hx. split; [apply ISqrt_saturates; exact Hx|lia].
Qed.

Lemma ISqrt_saturates_above_32_bits_witness :
  ISqrt_ 18446744073709551615 = Some 65535 /\
  (65535 + 1) * (65535 + 1) <= 18446744073709551615.
Proof.
  apply (ISqrt_saturates_above_32_bits 18446744073709551615).
  unfold ULONG_MODULUS, ULONG_BITS. lia.
Defined.

(** ** The divisor set from 2^32 on *)

Section DivisorsUpToBound.

(** The trial divisions stop at [s], whose square is below [n]. *)
Variable n s : Z.
Hypothesis s_small : 1 <= s < 4294967296.
Hypothesis s_below_root : s * s < n.

Lemma divisor_pair_below_bound (i : Z) :
  1 <= i <= s ->
  divisor_pair n i = if n mod i =? 0 then [i; n / i] else [].
Proof.
  intros Hi. unfold divisor_pair.
  assert (Hm : umul i i = i * i).
  { apply wrap_small. unfold is_ulong, ULONG_MODULUS, ULONG_BITS. nia. }
  rewrite Hm. destruct (n mod i =? 0); [|reflexivity].
  destruct (i * i =? n) eqn:E; [|reflexivity]. apply Z.eqb_eq in E. nia.
Qed.

Lemma cofactor_above_bound (i : Z) :
  1 <= i <= s -> n mod i = 0 -> s < n / i /\ n = i * (n / i).
Proof.
  intros Hi Hmod.
  assert (Hq : n = i * (n / i)) by (apply Z_div_exact_full_2; lia).
  split; [|exact Hq]. generalize dependent (n / i). intros q Hq. nia.
Qed.

Lemma divisors_up_to_bound_members (d : Z) :
  In d (flat_map (divisor_pair n) (range 1 s)) <->
  0 < d /\ (d | n) /\ (d <= s \/ n / d <= s).
Proof.
  rewrite in_flat_map. split.
  - intros [i [Hi Hd]]. apply in_range in Hi.
    rewrite divisor_pair_below_bound in Hd by exact Hi.
    destruct (n mod i =? 0) eqn:E; [|destruct Hd]. apply Z.eqb_eq in E.
    destruct (cofactor_above_bound i Hi E) as [Hgt Hq].
    destruct Hd as [<-|[<-|[]]].
    + split; [lia|]. split; [apply Z.mod_divide; [lia|exact E]|]. left. lia.
    + split; [lia|]. split; [exists i; lia|]. right.
      assert (Hi' : n / (n / i) = i).
      { clear E. generalize dependent (n / i). intros q Hgt Hq.
        rewrite Hq. apply Z.div_mul. lia. }
      rewrite Hi'. lia.
  - intros [Hd [[q Hq] Hs]]. assert (Hn : 0 < n) by nia. assert (0 < q) by nia.
    assert (Hdiv : n / d = q) by (rewrite Hq; apply Z.div_mul; lia).
    destruct Hs as [Hs|Hs].
    + exists d. split; [apply in_range; lia|].
      rewrite divisor_pair_below_bound by lia.
      replace (n mod d =? 0) with true
        by (symmetry; apply Z.eqb_eq; rewrite Hq; apply Z.mod_mul; lia).
      left. reflexivity.
    + exists q. split; [apply in_range; lia|].
      rewrite divisor_pair_below_bound by lia.
      replace (n mod q =? 0) with true
        by (symmetry; apply Z.eqb_eq; rewrite Hq, Z.mul_comm; apply Z.mod_mul; lia).
      right. left. rewrite Hq. replace (q * d) with (d * q) by ring.
      apply Z.div_mul. lia.
Qed.

Lemma divisors_up_to_bound_NoDup : NoDup (flat_map (divisor_pair n) (range 1 s)).
Proof.
  apply NoDup_flat_map_disjoint; [apply NoDup_range| |].
  - intros i Hi. apply in_range in Hi.
    rewrite divisor_pair_below_bound by exact Hi.
    destruct (n mod i =? 0) eqn:E; [|constructor]. apply Z.eqb_eq in E.
    destruct (cofactor_above_bound i Hi E) as [Hgt _].
    constructor; [|constructor; [intros []|constructor]].
    intros [H|[]]. lia.
  - intros i j b Hi Hj Hne Hbi Hbj. apply in_range in Hi, Hj.
    rewrite divisor_pair_below_bound in Hbi by exact Hi.
    rewrite divisor_pair_below_bound in Hbj by exact Hj.
    destruct (n mod i =? 0) eqn:Ei; [|destruct Hbi]. apply Z.eqb_eq in Ei.
    destruct (n mod j =? 0) eqn:Ej; [|destruct Hbj]. apply Z.eqb_eq in Ej.
    destruct (cofactor_above_bound i Hi Ei) as [Hgi Hqi].
    destruct (cofactor_above_bound j Hj Ej) as [Hgj Hqj].
    destruct Hbi as [<-|[<-|[]]], Hbj as [Hb|[Hb|[]]]; try lia.
    rewrite Hb in Hqj. generalize dependent (n / i). intros q. intros. nia.
Qed.

End DivisorsUpToBound.

Lemma CalculateAllFactors_above_32_bits (n : Z) :
  4294967296 <= n < ULONG_MODULUS ->
  Factors.CalculateAllFactors_ n = Returns (flat_map (divisor_pair n) (range 1 65535)).
Proof.
  intros Hn. unfold Factors.CalculateAllFactors_.
  rewrite ISqrt_saturates by exact Hn. rewrite CalculateAllFactors_flat_map.
  reflexivity.
Qed.

(** For 2^32 <= n < 2^64 the Divisor Set Builder returns, each once, the
    divisors of [n] that are at most 65535 or whose cofactor is: a divisor d
    with 65535 < d and 65535 < n / d is left out. *)
Theorem divisors_above_32_bits (n : Z) :
  4294967296 <= n < ULONG_MODULUS ->
  exists all,
    Factors.CalculateAllFactors_ n = Returns all /\
    NoDup all /\
    forall d, In d all <-> 0 < d /\ (d | n) /\ (d <= 65535 \/ n / d <= 65535).
Proof.
  intros Hn. exists (flat_map (divisor_pair n) (range 1 65535)).
  split; [apply CalculateAllFactors_above_32_bits; exact Hn|]. split.
  - apply divisors_up_to_bound_NoDup; lia.
  - intros d. apply divisors_up_to_bound_members; lia.
Qed.

Lemma divisors_above_32_bits_witness :
  exists all,
    Factors.CalculateAllFactors_ 4295098369 = Returns all /\
    NoDup all /\
    forall d, In d all <->
              0 < d /\ (d | 4295098369) /\ (d <= 65535 \/ 4295098369 / d <= 65535).
Proof.
  apply (divisors_above_32_bits 4295098369).
  unfold ULONG_MODULUS, ULONG_BITS. lia.
Defined.

(** ** [Factors] on the whole 64-bit range *)

Lemma Returns_inj {A : Type} (a b : A) : Returns a = Returns b -> a = b.
Proof. intros H. injection H as H. exact H. Qed.

Lemma all_factors_NoDup_with_one (n : Z) (D : list Z) :
  1 <= n < ULONG_MODULUS ->
  Factors.CalculateAllFactors_ n = Returns D ->
  NoDup D /\ In 1 D.
Proof.
  intros Hn HD. destruct (Z_lt_le_dec n 4294967296) as [Hlt|Hge].
  - destruct (CalculateAllFactors_below_32_bits n ltac:(lia)) as [Hall [Hroot Hsmall]].
    rewrite Hall in HD. apply Returns_inj in HD. subst D. split.
    + apply divisor_pairs_NoDup; [lia|exact Hroot|exact Hsmall].
    + apply divisor_pairs_complete; [lia|exact Hroot|exact Hsmall|].
      split; [lia|apply Z.divide_1_l].
  - rewrite CalculateAllFactors_above_32_bits in HD by lia.
    apply Returns_inj in HD. subst D. split.
    + apply divisors_up_to_bound_NoDup; lia.
    + apply divisors_up_to_bound_members; try lia.
      split; [lia|]. split; [apply Z.divide_1_l|]. left. lia.
Qed.

Lemma MultiplicativeSplitRecursive_distinct (D : list Z) (k : nat) (m : Z) :
  NoDup D -> NoDup (Factors.MultiplicativeSplitRecursive_ D m (S k)).
Proof.
  intros HD. revert m. induction k as [|k IH]; intros m.
  - cbn [Factors.MultiplicativeSplitRecursive_]. constructor; [intros []|constructor].
  - rewrite MultiplicativeSplitRecursive_flat_map.
    apply NoDup_flat_map_disjoint; [exact HD| |].
    + intros f Hf. destruct (m mod f =? 0); [|constructor].
      apply NoDup_map_NoDup_ForallPairs; [|apply IH].
      intros v w _ _ H. apply app_inj_tail in H. apply H.
    + intros f g t _ _ Hne Hf Hg.
      destruct (m mod f =? 0); [|destruct Hf].
      destruct (m mod g =? 0); [|destruct Hg].
      apply in_map_iff in Hf, Hg.
      destruct Hf as [v [<- _]], Hg as [w [Hw _]].
      apply app_inj_tail in Hw. destruct Hw as [_ Hw]. congruence.
Qed.

(** With any candidates that are 1 or more, the recursion produces exactly
    the tuples of positive entries with the requested length and product
    whose entries after position 0 are candidates: the entry at position 0
    is the residual that the order-1 case returns as it is. *)
Lemma MultiplicativeSplitRecursive_exact (D : list Z) (k : nat) (m : Z) (t : list Z) :
  Forall (fun f => 1 <= f) D -> 0 < m ->
  (In t (Factors.MultiplicativeSplitRecursive_ D m (S k)) <->
   length t = S k /\ Forall (fun x => 0 < x) t /\ product t = m /\
   Forall (fun x => In x D) (tl t)).
Proof.
  intros HD. revert m t. induction k as [|k IH]; intros m t Hm.
  - cbn [Factors.MultiplicativeSplitRecursive_ In]. split.
    + intros [<-|[]]. cbn [tl]. repeat split; [repeat constructor; exact Hm| |constructor].
      unfold product. cbn. lia.
    + intros [Hlen [Hpos [Hprod _]]]. left.
      destruct t as [|x [|y t]]; try discriminate.
      unfold product in Hprod. cbn in Hprod. f_equal. lia.
  - rewrite MultiplicativeSplitRecursive_flat_map, in_flat_map. split.
    + intros [f [Hf Ht]]. destruct (m mod f =? 0) eqn:E; [|destruct Ht].
      apply Z.eqb_eq in E. apply in_map_iff in Ht. destruct Ht as [v [<- Hv]].
      pose proof Hf as Hf1. rewrite Forall_forall in HD. apply HD in Hf1.
      assert (Hq : m = f * (m / f)) by (apply Z_div_exact_full_2; lia).
      assert (Hq0 : 0 < m / f) by nia.
      apply IH in Hv; [|exact Hq0]. destruct Hv as [Hlen [Hpos [Hprod Htl]]].
      repeat split.
      * rewrite last_length, Hlen. reflexivity.
      * apply Forall_app. split; [exact Hpos|repeat constructor; lia].
      * rewrite product_app, Hprod. unfold product at 1. cbn [fold_right]. lia.
      * destruct v as [|x v]; [discriminate|]. cbn [app tl] in *.
        apply Forall_app. split; [exact Htl|repeat constructor; exact Hf].
    + intros [Hlen [Hpos [Hprod Htl]]].
      destruct (exists_last (l := t)) as [v [f ->]]; [intros ->; discriminate|].
      rewrite last_length in Hlen. injection Hlen as Hlen.
      apply Forall_app in Hpos. destruct Hpos as [Hv Hf].
      apply Forall_inv in Hf. rename Hf into Hf0.
      rewrite product_app in Hprod. unfold product at 2 in Hprod.
      cbn [fold_right] in Hprod. rewrite Z.mul_1_r in Hprod.
      pose proof (product_positive v Hv) as Hpv.
      assert (Hdiv : m / f = product v).
      { rewrite <- Hprod. apply Z.div_mul. lia. }
      destruct v as [|x v]; [discriminate|]. cbn [app tl] in Htl.
      apply Forall_app in Htl. destruct Htl as [Htl Hfd]. apply Forall_inv in Hfd.
      exists f. split; [exact Hfd|].
      replace (m mod f =? 0) with true
        by (symmetry; apply Z.eqb_eq; rewrite <- Hprod; apply Z.mod_mul; lia).
      apply in_map_iff. exists (x :: v). split; [reflexivity|].
      rewrite Hdiv. apply IH; [exact Hpv|]. repeat split; assumption.
Qed.

(** With 1 among the candidates, the tuple (m, 1, ..., 1) is produced. *)
Lemma MultiplicativeSplitRecursive_trivial (D : list Z) (k : nat) (m : Z) :
  In 1 D -> In (m :: repeat 1 k) (Factors.MultiplicativeSplitRecursive_ D m (S k)).
Proof.
  intros H1. induction k as [|k IH].
  - left. reflexivity.
  - rewrite MultiplicativeSplitRecursive_flat_map, in_flat_map.
    exists 1. split; [exact H1|]. rewrite Z.mod_1_r, Z.div_1_r. cbn [Z.eqb].
    apply in_map_iff. exists (m :: repeat 1 k). split; [|exact IH].
    cbn [app]. f_equal. symmetry. apply (repeat_cons k 1).
Qed.

(** For every n from 1 to 2^64 - 1 and every order from 1 up, [Factors(n,
    order)] holds, each once, exactly the tuples of [order] positive entries
    that multiply to [n] and whose entries after position 0 are members of
    [all_factors_]; the tuple (n, 1, ..., 1) is always one of them. *)
Theorem factorisations_on_64_bits (n : Z) (order : nat) :
  1 <= n < ULONG_MODULUS -> (1 <= order)%nat ->
  exists self,
    Factors.Factors n order = Returns self /\
    NoDup (Factors.cofactors_ self) /\
    In (n :: repeat 1 (order - 1)) (Factors.cofactors_ self) /\
    forall t, In t (Factors.cofactors_ self) <->
              length t = order /\ Forall (fun x => 0 < x) t /\ product t = n /\
              Forall (fun x => In x (Factors.all_factors_ self)) (tl t).
Proof.
  intros Hn Hk. destruct order as [|k]; [lia|].
  destruct (CalculateAllFactors_returns n ltac:(lia)) as [D HD].
  destruct (all_factors_NoDup_with_one n D Hn HD) as [HND H1].
  pose proof (all_factors_positive n D ltac:(lia) HD) as Hpos.
  unfold Factors.Factors. rewrite HD. cbn [bind].
  eexists. split; [reflexivity|]. cbn [Factors.cofactors_ Factors.all_factors_].
  split; [apply MultiplicativeSplitRecursive_distinct; exact HND|].
  split.
  - replace (S k - 1)%nat with k by lia.
    apply MultiplicativeSplitRecursive_trivial. exact H1.
  - intros t. apply MultiplicativeSplitRecursive_exact; [exact Hpos|lia].
Qed.

Lemma factorisations_on_64_bits_witness :
  exists self,
    Factors.Factors 4295098369 3 = Returns self /\
    NoDup (Factors.cofactors_ self) /\
    In (4295098369 :: repeat 1 (3 - 1)) (Factors.cofactors_ self) /\
    forall t, In t (Factors.cofactors_ self) <->
              length t = 3%nat /\ Forall (fun x => 0 < x) t /\ product t = 4295098369 /\
              Forall (fun x => In x (Factors.all_factors_ self)) (tl t).
Proof.
  apply (factorisations_on_64_bits 4295098369 3); [|lia].
  unfold ULONG_MODULUS, ULONG_BITS. lia.
Defined.

(** ** An empty Given Assignment *)

Lemma mapM_insert_nothing (cofactors_ : list (list Z)) :
  mapM (Factors.insert_given []) cofactors_ = Returns cofactors_.
Proof.
  induction cofactors_ as [|c l IH]; [reflexivity|].
  change (mapM (Factors.insert_given []) (c :: l))
    with (ys <- mapM (Factors.insert_given []) l ;; Returns (c :: ys)).
  rewrite IH. reflexivity.
Qed.

(** The constructor that takes a Given Assignment, called with an empty one,
    builds the object that the constructor without one builds. *)
Theorem Factors_given_nothing (n : Z) (order : nat) :
  Factors.Factors_given n order [] = Factors.Factors n order.
Proof.
  unfold Factors.Factors_given, Factors.Factors.
  cbn [length Nat.leb check bind Factors.validate_given].
  destruct (Factors.CalculateAllFactors_ n) as [D|e]; [|reflexivity].
  cbn [bind]. rewrite Z.div_1_r, Nat.sub_0_r, mapM_insert_nothing. reflexivity.
Qed.

(** ** A prime dimension size *)
Lemma prime_all_factors (p : Z) :
  is_prime p -> p < ULONG_MODULUS -> Factors.CalculateAllFactors_ p = Returns [1; p].
Proof.
  intros [Hp Hnd] Hlt.
  assert (Hroot : exists s, ISqrt_ p = Some s /\ 1 <= s < p).
  { destruct (Z_lt_le_dec p 4294967296) as [H32|H32].
    - exists (Z.sqrt p). split; [apply ISqrt_exact; lia|].
      pose proof (Z.sqrt_spec p ltac:(lia)) as Hs. unfold Z.succ in Hs.
      pose proof (Z.sqrt_nonneg p). nia.
    - exists 65535. split; [apply ISqrt_saturates; lia|lia]. }
  destruct Hroot as [s [Hs Hsp]].
  rewrite (CalculateAllFactors_from_one p s); [|lia|exact Hs|].
  - unfold Factors.CalculateAllFactors_step.
    rewrite Z.mod_1_r, Z.div_1_r. cbn [Z.eqb app].
    change (umul 1 1) with 1.
    destruct (1 =? p) eqn:E; [lia|]. reflexivity.
  - intros i Hi Hmod. apply (Hnd i); [lia|]. apply Z.mod_divide; [lia|exact Hmod].
Qed.

Lemma MultiplicativeSplitRecursive_of_one (p : Z) (k : nat) :
  2 <= p ->
  Factors.MultiplicativeSplitRecursive_ [1; p] 1 (S k) = [repeat 1 (S k)].
Proof.
  intros Hp. induction k as [|k IH]; [reflexivity|].
  rewrite MultiplicativeSplitRecursive_flat_map. cbn [flat_map].
  rewrite Z.mod_1_r, Z.div_1_r. cbn [Z.eqb]. rewrite IH.
  rewrite (Z.mod_small 1 p) by lia. cbn [Z.eqb map app].
  f_equal. symmetry. apply (repeat_cons (S k) 1).
Qed.

Lemma MultiplicativeSplitRecursive_of_prime (p : Z) (k : nat) :
  2 <= p ->
  Factors.MultiplicativeSplitRecursive_ [1; p] p (S k)
  = map (unit_tuple p k) (seq 0 (S k)).
Proof.
  intros Hp. induction k as [|k IH]; [reflexivity|].
  rewrite MultiplicativeSplitRecursive_flat_map. cbn [flat_map].
  rewrite Z.mod_1_r, Z.div_1_r, Z.mod_same, Z.div_same by lia. cbn [Z.eqb].
  rewrite IH, MultiplicativeSplitRecursive_of_one by exact Hp.
  rewrite app_nil_r, map_map. cbn [map].
  rewrite (seq_S (S k) 0), map_app. cbn [map Nat.add]. f_equal.
  - apply map_ext_in. intros j Hj. apply in_seq in Hj. unfold unit_tuple.
    rewrite <- app_assoc. cbn [app]. do 2 f_equal.
    replace (S k - j)%nat with (S (k - j)) by lia.
    symmetry. apply (repeat_cons (k - j) 1).
  - unfold unit_tuple. rewrite Nat.sub_diag. reflexivity.
Qed.

(** For a prime [p] below 2^64 and every order from 1 up, [Factors(p, order)]
    holds [order] tuples: [size()] is [order], and [operator[](j)] is the
    tuple with [p] at position [j] and 1 elsewhere. *)
Theorem prime_dimension_size (p : Z) (order : nat) :
  is_prime p -> p < ULONG_MODULUS -> (1 <= order)%nat ->
  exists self,
    Factors.Factors p order = Returns self /\
    Factors.all_factors_ self = [1; p] /\
    Factors.cofactors_ self = map (unit_tuple p (order - 1)) (seq 0 order) /\
    Factors.size self = order /\
    forall j, (j < order)%nat ->
              Factors.get self (Z.of_nat j) = Returns (unit_tuple p (order - 1) j).
Proof.
  intros Hp Hlt Hk. destruct order as [|k]; [lia|].
  unfold Factors.Factors. rewrite prime_all_factors by assumption. cbn [bind].
  eexists. split; [reflexivity|].
  unfold Factors.size, Factors.get. cbn [Factors.all_factors_ Factors.cofactors_].
  rewrite MultiplicativeSplitRecursive_of_prime by (destruct Hp; assumption).
  replace (S k - 1)%nat with k by lia.
  split; [reflexivity|]. split; [reflexivity|].
  split; [rewrite length_map, length_seq; reflexivity|].
  intros j Hj. destruct (Z.of_nat j <? 0) eqn:E; [lia|].
  rewrite Nat2Z.id.
  rewrite (nth_error_nth' _ [] (n := j)) by (rewrite length_map, length_seq; exact Hj).
  rewrite (nth_indep _ [] (unit_tuple p k 0)) by (rewrite length_map, length_seq; exact Hj).
  rewrite map_nth, seq_nth by exact Hj. reflexivity.
Qed.

Lemma seven_is_prime : is_prime 7.
Proof.
  split; [lia|]. intros d Hd [q Hq].
  assert (Hcases : d = 2 \/ d = 3 \/ d = 4 \/ d = 5 \/ d = 6) by lia.
  destruct Hcases as [-> | [-> | [-> | [-> | ->]]]]; lia.
Qed.

Lemma prime_dimension_size_witness :
  exists self,
    Factors.Factors 7 3 = Returns self /\
    Factors.all_factors_ self = [1; 7] /\
    Factors.cofactors_ self = map (unit_tuple 7 (3 - 1)) (seq 0 3) /\
    Factors.size self = 3%nat /\
    forall j, (j < 3)%nat ->
              Factors.get self (Z.of_nat j) = Returns (unit_tuple 7 (3 - 1) j).
Proof.
  apply (prime_dimension_size 7 3); [exact seven_is_prime| |lia].
  unfold ULONG_MODULUS, ULONG_BITS. lia.
Defined.

(** ** A refused entry followed by another one *)

(** When the first of two given entries is refused, the loop steps over the
    second one: its value [g] is inserted at its position [j] without having
    entered the partial product, and every tuple multiplies to [n * g]. *)
Theorem refused_entry_leaves_next_unaccounted
        (n : Z) (order i j : nat) (f g : Z) :
  1 <= n < ULONG_MODULUS -> 1 <= f < ULONG_MODULUS -> n mod f <> 0 ->
  (i < j < order)%nat ->
  exists self,
    Factors.Factors_given n order [(i, f); (j, g)] = Returns self /\
    Factors.cofactors_ self <> [] /\
    Forall (fun t => length t = order /\ nth j t 0 = g /\ product t = n * g)
           (Factors.cofactors_ self).
Proof.
  intros Hn Hf Hmod Hij. unfold Factors.Factors_given.
  replace (length [(i, f); (j, g)] <=? order)%nat with true
    by (symmetry; apply Nat.leb_le; cbn [length]; lia).
  cbn [check bind Factors.validate_given].
  assert (Hd : umul f 1 = f).
  { unfold umul. rewrite Z.mul_1_r. apply wrap_small. unfold is_ulong. lia. }
  rewrite Hd. replace (f =? 0) with false by (symmetry; apply Z.eqb_neq; lia).
  replace (n mod f =? 0) with false by (symmetry; apply Z.eqb_neq; exact Hmod).
  rewrite Z.mod_1_r. cbn [negb check bind Z.eqb app length].
  destruct (CalculateAllFactors_returns n ltac:(lia)) as [D HD].
  rewrite HD. cbn [bind]. rewrite Z.div_1_r.
  destruct (all_factors_NoDup_with_one n D Hn HD) as [_ H1].
  destruct (order - 1)%nat as [|k] eqn:Ek; [lia|].
  destruct (mapM_returns (Factors.insert_given [(j, g)])
              (fun t => length t = order /\ nth j t 0 = g /\ product t = n * g)
              (Factors.MultiplicativeSplitRecursive_ D n (S k)))
    as [ts [-> [Hall Hlen]]].
  - intros c Hc. apply MultiplicativeSplitRecursive_sound in Hc.
    destruct Hc as [Hlc Hprod].
    destruct (insert_given_spec [(j, g)] 0 c) as [t [Ht [Hlt [Hpos [_ Hpt]]]]].
    { cbn [placeable]. split; [lia|exact I]. }
    exists t. split; [exact Ht|]. cbn [length] in Hlt.
    split; [lia|]. split; [apply Hpos; left; reflexivity|].
    rewrite Hpt, Hprod. unfold product. cbn [map snd fold_right]. ring.
  - cbn [bind]. eexists. split; [reflexivity|]. cbn [Factors.cofactors_].
    split; [|exact Hall].
    pose proof (MultiplicativeSplitRecursive_trivial D k n H1) as Hin.
    intros ->. cbn [length] in Hlen.
    destruct (Factors.MultiplicativeSplitRecursive_ D n (S k)); [destruct Hin|discriminate].
Qed.

Lemma refused_entry_leaves_next_unaccounted_witness :
  exists self,
    Factors.Factors_given 12 3 [(0%nat, 5); (1%nat, 4)] = Returns self /\
    Factors.cofactors_ self <> [] /\
    Forall (fun t => length t = 3%nat /\ nth 1 t 0 = 4 /\ product t = 12 * 4)
           (Factors.cofactors_ self).
Proof.
  apply (refused_entry_leaves_next_unaccounted 12 3 0 1 5 4).
  - unfold ULONG_MODULUS, ULONG_BITS. lia.
  - unfold ULONG_MODULUS, ULONG_BITS. lia.
  - discriminate.
  - lia.
Defined.

(** ** The Given Assignment below 2^32 *)

Lemma mapM_members {A B : Type} (f : A -> outcome B) (l : list A) (ys : list B) (y : B) :
  mapM f l = Returns ys ->
  (In y ys <-> exists x, In x l /\ f x = Returns y).
Proof.
  revert ys. induction l as [|x l IH]; intros ys H; cbn [mapM] in H.
  - injection H as <-. split; [intros []|intros [x [[] _]]].
  - apply bind_returns in H. destruct H as [y0 [Hy0 H]].
    apply bind_returns in H. destruct H as [ys0 [Hys0 H]]. injection H as <-.
    specialize (IH ys0 Hys0). cbn [In]. rewrite IH. split.
    + intros [<-|[x' [Hx' Hf]]]; [exists x; auto|exists x'; auto].
    + intros [x' [[<-|Hx'] Hf]]; [left; congruence|right; exists x'; auto].
Qed.

Lemma in_firstn {A : Type} (k : nat) (l : list A) (x : A) : In x (firstn k l) -> In x l.
Proof.
  intros H. rewrite <- (firstn_skipn k l). apply in_or_app. left. exact H.
Qed.

Lemma in_skipn {A : Type} (k : nat) (l : list A) (x : A) : In x (skipn k l) -> In x l.
Proof.
  intros H. rewrite <- (firstn_skipn k l). apply in_or_app. right. exact H.
Qed.

Lemma insert_given_members (given : given_map) (c t : list Z) (x : Z) :
  Factors.insert_given given c = Returns t ->
  In x t -> In x c \/ In x (map snd given).
Proof.
  revert c. induction given as [|[i v] given IH]; intros c H Hx.
  - injection H as <-. left. exact Hx.
  - cbn [Factors.insert_given] in H.
    apply bind_returns in H. destruct H as [_ [_ H]].
    apply bind_returns in H. destruct H as [c' [Hc' H]].
    unfold insert_at in Hc'. destruct (i <=? length c)%nat; [|discriminate].
    injection Hc' as <-. destruct (IH _ H Hx) as [Hin|Hin].
    + apply in_app_or in Hin. destruct Hin as [Hin|[<-|Hin]].
      * left. eapply in_firstn. exact Hin.
      * right. left. reflexivity.
      * left. eapply in_skipn. exact Hin.
    + right. right. exact Hin.
Qed.

(** Every tuple that carries the given values at their positions comes from
    inserting them into the tuple of its other entries. *)
Lemma insert_given_onto (given : given_map) (lo : nat) (t : list Z) :
  ascending_from lo given ->
  Forall (fun kv => (fst kv < length t)%nat) given ->
  (forall i v, In (i, v) given -> nth i t 0 = v) ->
  exists c,
    Factors.insert_given given c = Returns t /\
    length t = (length c + length given)%nat /\
    (forall j, (j < lo)%nat -> nth j c 0 = nth j t 0) /\
    product t = product c * product (map snd given) /\
    incl c t.
Proof.
  revert lo. induction given as [|[i v] given IH]; intros lo Hasc Hlt Hval.
  - exists t. cbn [Factors.insert_given length map]. change (product []) with 1.
    repeat split; [lia|lia|apply incl_refl].
  - destruct Hasc as [Hlo Hasc]. inversion Hlt as [|? ? Hi Hrest]; subst.
    cbn [fst] in Hi.
    destruct (IH (S i) Hasc Hrest) as [c' [Hc' [Hlen [Hlow [Hprod Hincl]]]]].
    { intros i' v' H. apply Hval. right. exact H. }
    destruct (ascending_keys_fit given (S i) (length t) Hasc Hrest ltac:(lia))
      as [Hfit _].
    assert (Hic : (i < length c')%nat) by lia.
    assert (Hv : nth i c' 0 = v).
    { rewrite Hlow by lia. apply Hval. left. reflexivity. }
    assert (Hsplit : c' = firstn i c' ++ v :: skipn (S i) c').
    { symmetry. apply firstn_skipn_middle. rewrite <- Hv. apply nth_error_nth'. exact Hic. }
    exists (firstn i c' ++ skipn (S i) c').
    assert (Hlc : length (firstn i c' ++ skipn (S i) c') = (length c' - 1)%nat).
    { rewrite length_app, length_firstn, length_skipn. lia. }
    repeat split.
    + cbn [Factors.insert_given]. rewrite Hlc.
      replace (i <=? length c' - 1)%nat with true by (symmetry; apply Nat.leb_le; lia).
      cbn [check bind]. unfold insert_at. rewrite Hlc.
      replace (i <=? length c' - 1)%nat with true by (symmetry; apply Nat.leb_le; lia).
      assert (Hf : length (firstn i c') = i) by (rewrite length_firstn; lia).
      rewrite firstn_app, Hf, Nat.sub_diag, firstn_firstn, Nat.min_id.
      rewrite firstn_O, app_nil_r.
      rewrite skipn_app, Hf, Nat.sub_diag, skipn_O.
      rewrite (skipn_all2 (firstn i c')) by lia. cbn [app bind].
      rewrite <- Hsplit. exact Hc'.
    + rewrite Hlc, Hlen. cbn [length]. lia.
    + intros j Hj. rewrite app_nth1 by (rewrite length_firstn; lia).
      rewrite <- Hlow by lia.
      rewrite <- (firstn_skipn i c') at 2.
      rewrite app_nth1 by (rewrite length_firstn; lia). reflexivity.
    + rewrite Hprod. rewrite Hsplit at 1. rewrite !product_app. cbn [map snd].
      change (product (v :: skipn (S i) c')) with (v * product (skipn (S i) c')).
      change (product (v :: map snd given)) with (v * product (map snd given)). ring.
    + intros x Hx. apply Hincl. apply in_app_or in Hx.
      destruct Hx as [Hx|Hx]; [eapply in_firstn|eapply in_skipn]; exact Hx.
Qed.

(** For 1 <= n < 2^32, when no entry of the Given Assignment is refused and
    a position is left free, the collection holds exactly the tuples of
    [order] positive entries that multiply to [n] and carry every given value
    at its position. *)
Theorem given_assignment_exact_below_32_bits (n : Z) (order : nat) (given : given_map) :
  1 <= n < 4294967296 ->
  wf_map given ->
  Forall (fun kv => (fst kv < order)%nat) given ->
  Forall (fun kv => 1 <= snd kv) given ->
  (product (map snd given) | n) ->
  (length given < order)%nat ->
  exists self,
    Factors.Factors_given n order given = Returns self /\
    forall t, In t (Factors.cofactors_ self) <->
              length t = order /\ Forall (fun x => 0 < x) t /\ product t = n /\
              forall i v, In (i, v) given -> nth i t 0 = v.
Proof.
  intros Hn Hwf Hkeys Hvals Hdiv Hfree. unfold Factors.Factors_given.
  destruct (ascending_keys_fit given 0 order Hwf Hkeys ltac:(lia)) as [Hle Hplace].
  replace (length given <=? order)%nat with true by (symmetry; apply Nat.leb_le; lia).
  cbn [check bind].
  assert (Hn64 : 1 <= n < ULONG_MODULUS) by (unfold ULONG_MODULUS, ULONG_BITS; lia).
  rewrite (validate_given_accepts_all n given [] 1 Hn64 ltac:(lia) Hvals)
    by (rewrite Z.mul_1_l; exact Hdiv).
  cbn [bind app]. rewrite Z.mul_1_l.
  destruct (CalculateAllFactors_below_32_bits n Hn) as [HD [Hroot Hsmall]].
  rewrite HD. cbn [bind].
  pose proof (fun d => divisor_pairs_complete n (Z.sqrt n) ltac:(lia) Hroot Hsmall d)
    as HDdiv.
  set (D := flat_map (divisor_pair n) (range 1 (Z.sqrt n))) in *.
  set (P := product (map snd given)) in *.
  assert (HP : 1 <= P).
  { apply product_pos. clear - Hvals. induction Hvals; constructor; auto. }
  assert (Hq : n = P * (n / P)).
  { destruct Hdiv as [q Hq]. rewrite Hq, Z.div_mul by lia. ring. }
  assert (Hq0 : 0 < n / P) by nia.
  assert (Hqn : (n / P | n)) by (exists P; lia).
  destruct (order - length given)%nat as [|k] eqn:Ek; [lia|].
  pose proof (fun t => MultiplicativeSplitRecursive_members n D HDdiv k (n / P) t
                         Hq0 Hqn) as Hmem.
  destruct (mapM_returns (Factors.insert_given given) (fun _ => True)
              (Factors.MultiplicativeSplitRecursive_ D (n / P) (S k)))
    as [ts [Hts _]].
  - intros c Hc. apply Hmem in Hc. destruct Hc as [Hlen _].
    destruct (insert_given_spec given 0 c) as [t [Ht _]];
      [rewrite Hlen; exact Hplace|].
    exists t. split; [exact Ht|exact I].
  - rewrite Hts. cbn [bind]. eexists. split; [reflexivity|].
    cbn [Factors.cofactors_]. intros t.
    rewrite (mapM_members _ _ _ t Hts). split.
    + intros [c [Hc Ht]]. apply Hmem in Hc. destruct Hc as [Hlen [Hpos Hprod]].
      destruct (insert_given_spec given 0 c) as [t' [Ht' [Hlt [Hat [_ Hpt]]]]];
        [rewrite Hlen; exact Hplace|].
      rewrite Ht in Ht'. injection Ht' as <-.
      split; [lia|]. split; [|split; [rewrite Hpt, Hprod; fold P; lia|exact Hat]].
      apply Forall_forall. intros x Hx.
      destruct (insert_given_members given c t x Ht Hx) as [Hin|Hin].
      * rewrite Forall_forall in Hpos. apply Hpos. exact Hin.
      * apply in_map_iff in Hin. destruct Hin as [[i v] [<- Hin]].
        rewrite Forall_forall in Hvals. specialize (Hvals (i, v) Hin). cbn [snd] in *. lia.
    + intros [Hlen [Hpos [Hprod Hat]]].
      destruct (insert_given_onto given 0 t Hwf) as [c [Hc [Hlc [_ [Hpc Hincl]]]]].
      { rewrite Hlen. exact Hkeys. }
      { exact Hat. }
      exists c. split; [|exact Hc]. apply Hmem.
      split; [lia|]. split.
      * apply Forall_forall. intros x Hx. rewrite Forall_forall in Hpos.
        apply Hpos. apply Hincl. exact Hx.
      * fold P in Hpc. rewrite Hprod in Hpc.
        apply Z.div_unique_exact; [lia|]. lia.
Qed.

Lemma given_assignment_exact_below_32_bits_witness :
  exists self,
    Factors.Factors_given 12 3 [(1%nat, 4)] = Returns self /\
    forall t, In t (Factors.cofactors_ self) <->
              length t = 3%nat /\ Forall (fun x => 0 < x) t /\ product t = 12 /\
              forall i v, In (i, v) [(1%nat, 4)] -> nth i t 0 = v.
Proof.
  apply (given_assignment_exact_below_32_bits 12 3 [(1%nat, 4)]).
  - lia.
  - cbn. split; [lia|exact I].
  - repeat constructor.
  - repeat constructor. cbn. lia.
  - exists 3. reflexivity.
  - cbn. lia.
Defined.

(** ** [PruneMax] whenever it returns *)

(** The inner loop answers [false] only when every position named in [max]
    exists in the tuple, and its answer is then the test [within_max]. *)
Lemma illegal_returns (max : given_map) (c : list Z) (bad : bool) :
  Factors.illegal max c = Returns bad ->
  bad = negb (within_max max c) /\
  (bad = false -> forall i m, In (i, m) max -> (i < length c)%nat).
Proof.
  revert bad. induction max as [|[i m] max IH]; intros bad H.
  - injection H as <-. split; [reflexivity|]. intros _ i m [].
  - cbn [Factors.illegal] in H.
    apply bind_returns in H. destruct H as [_ [_ H]].
    apply bind_returns in H. destruct H as [value [Hat H]].
    unfold at_ in Hat. destruct (nth_error c i) as [x|] eqn:E; [|discriminate].
    injection Hat as ->.
    assert (Hi : (i < length c)%nat) by (apply nth_error_Some; congruence).
    cbn [within_max forallb]. rewrite (nth_error_nth _ _ 0 E).
    destruct (value >? m) eqn:Ev.
    + injection H as <-. split; [reflexivity|discriminate].
    + apply IH in H. destruct H as [Hb Hkeys]. split; [exact Hb|].
      intros Hf i' m' [Heq|Hin]; [injection Heq as <- <-; exact Hi|].
      apply (Hkeys Hf i' m' Hin).
Qed.

Lemma PruneMax_loop_returns (max : given_map) (cof pruned : list (list Z)) :
  Factors.PruneMax_loop max cof = Returns pruned ->
  pruned = filter (within_max max) cof /\
  forall c i m, In c pruned -> In (i, m) max -> (i < length c)%nat.
Proof.
  revert pruned. induction cof as [|c cof IH]; intros pruned H.
  - injection H as <-. split; [reflexivity|]. intros c i m [].
  - cbn [Factors.PruneMax_loop] in H.
    apply bind_returns in H. destruct H as [bad [Hbad H]].
    apply bind_returns in H. destruct H as [rest [Hrest H]].
    injection H as <-. apply illegal_returns in Hbad. destruct Hbad as [-> Hkeys].
    apply IH in Hrest. destruct Hrest as [-> Hrest].
    cbn [filter]. destruct (within_max max c); cbn [negb] in *.
    + split; [reflexivity|]. intros c' i m [<-|Hin] Hm.
      * apply (Hkeys eq_refl i m Hm).
      * apply (Hrest c' i m Hin Hm).
    + split; [reflexivity|exact Hrest].
Qed.

(** Whenever [PruneMax(max)] returns, it has kept, in their order, exactly the
    tuples that are within [max], every position named in [max] exists in
    every tuple it has kept, and the dimension size and the divisors are
    unchanged. *)
Theorem PruneMax_returns_only_in_range (max : given_map) (self pruned : Factors.t) :
  Factors.PruneMax max self = Returns pruned ->
  Factors.n_ pruned = Factors.n_ self /\
  Factors.all_factors_ pruned = Factors.all_factors_ self /\
  Factors.cofactors_ pruned = filter (within_max max) (Factors.cofactors_ self) /\
  forall c i m, In c (Factors.cofactors_ pruned) -> In (i, m) max ->
                (i < length c)%nat /\ nth i c 0 <= m.
Proof.
  intros H. unfold Factors.PruneMax in H.
  apply bind_returns in H. destruct H as [cof [Hloop H]]. injection H as <-.
  cbn [Factors.n_ Factors.all_factors_ Factors.cofactors_].
  apply PruneMax_loop_returns in Hloop. destruct Hloop as [-> Hkeys].
  split; [reflexivity|]. split; [reflexivity|]. split; [reflexivity|].
  intros c i m Hc Hm. split; [apply (Hkeys c i m Hc Hm)|].
  apply filter_In in Hc. destruct Hc as [_ Hc].
  unfold within_max in Hc. rewrite forallb_forall in Hc.
  specialize (Hc (i, m) Hm). cbn beta iota in Hc.
  destruct (nth i c 0 >? m) eqn:E; [discriminate|]. lia.
Qed.

Lemma PruneMax_returns_only_in_range_witness :
  Factors.n_ (Factors.mk 6 [1; 6; 2; 3] [[3; 2]])
    = Factors.n_ (Factors.mk 6 [1; 6; 2; 3] [[6; 1]; [1; 6]; [3; 2]; [2; 3]]) /\
  Factors.all_factors_ (Factors.mk 6 [1; 6; 2; 3] [[3; 2]])
    = Factors.all_factors_ (Factors.mk 6 [1; 6; 2; 3] [[6; 1]; [1; 6]; [3; 2]; [2; 3]]) /\
  Factors.cofactors_ (Factors.mk 6 [1; 6; 2; 3] [[3; 2]])
    = filter (within_max [(0%nat, 5); (1%nat, 2)])
             (Factors.cofactors_
                (Factors.mk 6 [1; 6; 2; 3] [[6; 1]; [1; 6]; [3; 2]; [2; 3]])) /\
  forall c i m, In c (Factors.cofactors_ (Factors.mk 6 [1; 6; 2; 3] [[3; 2]])) ->
                In (i, m) [(0%nat, 5); (1%nat, 2)] ->
                (i < length c)%nat /\ nth i c 0 <= m.
Proof.
  apply (PruneMax_returns_only_in_range [(0%nat, 5); (1%nat, 2)]).
  reflexivity.
Defined.

(** ** [PruneMax] with a position past the end of a tuple *)

Lemma illegal_past_the_end (pre post : given_map) (i : nat) (m : Z) (c : list Z) :
  (forall j mj, In (j, mj) pre -> (j < length c)%nat /\ nth j c 0 <= mj) ->
  (length c <= i)%nat ->
  Factors.illegal (pre ++ (i, m) :: post) c
  = Fails (if (i =? length c)%nat then OutOfRange else AssertionFailure).
Proof.
  intros Hpre Hi. induction pre as [|[j mj] pre IH]; cbn [app Factors.illegal].
  - destruct (i =? length c)%nat eqn:E.
    + apply Nat.eqb_eq in E. subst i. rewrite Nat.leb_refl. cbn [check bind].
      unfold at_. replace (nth_error c (length c)) with (@None Z); [reflexivity|].
      symmetry. apply nth_error_None. lia.
    + apply Nat.eqb_neq in E.
      replace (i <=? length c)%nat with false by (symmetry; apply Nat.leb_gt; lia).
      reflexivity.
  - destruct (Hpre j mj ltac:(left; reflexivity)) as [Hj Hle].
    replace (j <=? length c)%nat with true by (symmetry; apply Nat.leb_le; lia).
    cbn [check bind]. unfold at_.
    destruct (nth_error c j) as [x|] eqn:E; [|apply nth_error_None in E; lia].
    rewrite (nth_error_nth _ _ 0 E) in Hle. cbn [bind].
    destruct (x >? mj) eqn:Ex; [lia|].
    apply IH. intros j' mj' H. apply Hpre. right. exact H.
Qed.

(** The assertion of [PruneMax] lets a position equal to the tuple's length
    through. When the first tuple is within the maxima stated before such a
    position, the call throws [std::out_of_range] if the position is the
    tuple's length, and fails the assertion if it is beyond. *)
Theorem PruneMax_position_past_the_end
        (pre post : given_map) (i : nat) (m : Z)
        (n : Z) (all : list Z) (c : list Z) (rest : list (list Z)) :
  (forall j mj, In (j, mj) pre -> (j < length c)%nat /\ nth j c 0 <= mj) ->
  (length c <= i)%nat ->
  Factors.PruneMax (pre ++ (i, m) :: post) (Factors.mk n all (c :: rest))
  = Fails (if (i =? length c)%nat then OutOfRange else AssertionFailure).
Proof.
  intros Hpre Hi. unfold Factors.PruneMax.
  cbn [Factors.cofactors_ Factors.PruneMax_loop].
  rewrite illegal_past_the_end by assumption. reflexivity.
Qed.

Lemma PruneMax_position_past_the_end_witness :
  Factors.PruneMax ([(0%nat, 6)] ++ (2%nat, 1) :: [])
                   (Factors.mk 6 [1; 6; 2; 3] ([6; 1] :: [[1; 6]; [3; 2]; [2; 3]]))
  = Fails (if (2 =? length [6; 1])%nat then OutOfRange else AssertionFailure).
Proof.
  apply (PruneMax_position_past_the_end [(0%nat, 6)] [] 2 1 6 [1; 6; 2; 3] [6; 1]).
  - intros j mj [H|[]]. injection H as <- <-. cbn. split; lia.
  - cbn. lia.
Defined.

(** ** Two prunings *)

Lemma filter_filter {A : Type} (p q : A -> bool) (l : list A) :
  filter q (filter p l) = filter (fun x => p x && q x) l.
Proof.
  induction l as [|x l IH]; [reflexivity|]. cbn [filter].
  destruct (p x); cbn [filter andb]; [destruct (q x)|]; rewrite IH; reflexivity.
Qed.

Lemma PruneMax_twice (max1 max2 : given_map) (self : Factors.t) :
  (forall c i m, In c (Factors.cofactors_ self) -> In (i, m) max1 -> (i < length c)%nat) ->
  (forall c i m, In c (Factors.cofactors_ self) -> In (i, m) max2 -> (i < length c)%nat) ->
  (p <- Factors.PruneMax max1 self ;; Factors.PruneMax max2 p)
  = Returns (Factors.mk (Factors.n_ self) (Factors.all_factors_ self)
               (filter (fun c => within_max max1 c && within_max max2 c)
                       (Factors.cofactors_ self))).
Proof.
  intros H1 H2. unfold Factors.PruneMax.
  rewrite PruneMax_loop_filter by exact H1.
  cbn [bind Factors.cofactors_ Factors.n_ Factors.all_factors_].
  rewrite PruneMax_loop_filter.
  - cbn [bind]. rewrite filter_filter. reflexivity.
  - intros c i m Hc. apply filter_In in Hc. apply H2. apply Hc.
Qed.

(** When every position named in the two maps exists in every tuple, pruning
    with one map and then with the other keeps the tuples that are within
    both, whichever map comes first. *)
Theorem PruneMax_commutes (max1 max2 : given_map) (self : Factors.t) :
  (forall c i m, In c (Factors.cofactors_ self) -> In (i, m) max1 -> (i < length c)%nat) ->
  (forall c i m, In c (Factors.cofactors_ self) -> In (i, m) max2 -> (i < length c)%nat) ->
  exists pruned,
    (p <- Factors.PruneMax max1 self ;; Factors.PruneMax max2 p) = Returns pruned /\
    (p <- Factors.PruneMax max2 self ;; Factors.PruneMax max1 p) = Returns pruned /\
    Factors.cofactors_ pruned
    = filter (fun c => within_max max1 c && within_max max2 c) (Factors.cofactors_ self).
Proof.
  intros H1 H2. eexists. split; [apply PruneMax_twice; assumption|].
  split; [|reflexivity].
  rewrite PruneMax_twice by assumption. do 2 f_equal.
  apply filter_ext. intros c. apply andb_comm.
Qed.

Lemma PruneMax_commutes_witness :
  exists pruned,
    (p <- Factors.PruneMax [(0%nat, 3)]
            (Factors.mk 6 [1; 6; 2; 3] [[6; 1]; [1; 6]; [3; 2]; [2; 3]]) ;;
     Factors.PruneMax [(1%nat, 3)] p) = Returns pruned /\
    (p <- Factors.PruneMax [(1%nat, 3)]
            (Factors.mk 6 [1; 6; 2; 3] [[6; 1]; [1; 6]; [3; 2]; [2; 3]]) ;;
     Factors.PruneMax [(0%nat, 3)] p) = Returns pruned /\
    Factors.cofactors_ pruned
    = filter (fun c => within_max [(0%nat, 3)] c && within_max [(1%nat, 3)] c)
             (Factors.cofactors_
                (Factors.mk 6 [1; 6; 2; 3] [[6; 1]; [1; 6]; [3; 2]; [2; 3]])).
Proof.
  apply PruneMax_commutes.
  - intros c i m Hc Hm. simpl in Hc, Hm.
    destruct Hm as [Hm|[]]. inversion Hm; subst.
    repeat (destruct Hc as [Hc|Hc]; [subst c; simpl; lia|]). destruct Hc.
  - intros c i m Hc Hm. simpl in Hc, Hm.
    destruct Hm as [Hm|[]]. inversion Hm; subst.
    repeat (destruct Hc as [Hc|Hc]; [subst c; simpl; lia|]). destruct Hc.
Defined.

(** ** A given position past the end *)

Lemma insert_given_past_the_end (given : given_map) (c : list Z) :
  Exists (fun kv => (length c + length given <= fst kv)%nat) given ->
  Factors.insert_given given c = Fails AssertionFailure.
Proof.
  revert c. induction given as [|[i v] given IH]; intros c H; [inversion H|].
  cbn [Factors.insert_given]. destruct (i <=? length c)%nat eqn:E; [|reflexivity].
  apply Nat.leb_le in E. cbn [check bind]. unfold insert_at.
  replace (i <=? length c)%nat with true by (symmetry; apply Nat.leb_le; lia).
  cbn [bind]. apply IH.
  assert (Hlen : length (firstn i c ++ v :: skipn i c) = S (length c)).
  { rewrite length_app. cbn [length]. rewrite length_firstn, length_skipn. lia. }
  rewrite Hlen. inversion H as [? ? Hhd|? ? Htl]; subst.
  - cbn [fst length] in Hhd. lia.
  - eapply Exists_impl; [|exact Htl]. cbn beta. intros kv Hkv.
    cbn [length] in Hkv. lia.
Qed.

(** When no entry of the Given Assignment is refused (its values are 1 or
    more and their product divides [n]) and one of its positions is [order]
    or beyond, the construction fails an assertion. *)
Theorem given_position_past_the_end (n : Z) (order : nat) (given : given_map) :
  1 <= n < ULONG_MODULUS ->
  Forall (fun kv => 1 <= snd kv) given ->
  (product (map snd given) | n) ->
  Exists (fun kv => (order <= fst kv)%nat) given ->
  Factors.Factors_given n order given = Fails AssertionFailure.
Proof.
  intros Hn Hvals Hdiv Hkey. unfold Factors.Factors_given.
  destruct (length given <=? order)%nat eqn:Elen; [|reflexivity].
  apply Nat.leb_le in Elen. cbn [check bind].
  rewrite (validate_given_accepts_all n given [] 1 Hn ltac:(lia) Hvals)
    by (rewrite Z.mul_1_l; exact Hdiv).
  cbn [bind app]. rewrite Z.mul_1_l.
  destruct (CalculateAllFactors_returns n ltac:(lia)) as [D HD].
  rewrite HD. cbn [bind].
  destruct (all_factors_NoDup_with_one n D Hn HD) as [_ H1].
  set (m := n / product (map snd given)).
  assert (Hfirst : exists c rest,
             Factors.MultiplicativeSplitRecursive_ D m (order - length given) = c :: rest /\
             length c = (order - length given)%nat).
  { destruct (order - length given)%nat as [|k] eqn:Ek.
    - exists [], []. split; reflexivity.
    - pose proof (MultiplicativeSplitRecursive_trivial D k m H1) as Hin.
      destruct (Factors.MultiplicativeSplitRecursive_ D m (S k)) as [|c rest] eqn:E;
        [destruct Hin|].
      exists c, rest. split; [reflexivity|].
      apply (MultiplicativeSplitRecursive_sound D k m c). rewrite E. left. reflexivity. }
  destruct Hfirst as [c [rest [-> Hc]]]. cbn [mapM].
  rewrite insert_given_past_the_end; [reflexivity|].
  eapply Exists_impl; [|exact Hkey]. cbn beta. intros kv Hkv. lia.
Qed.

Lemma given_position_past_the_end_witness :
  Factors.Factors_given 12 3 [(3%nat, 4)] = Fails AssertionFailure.
Proof.
  apply (given_position_past_the_end 12 3 [(3%nat, 4)]).
  - unfold ULONG_MODULUS, ULONG_BITS. lia.
  - repeat constructor. cbn. lia.
  - exists 3. reflexivity.
  - constructor. cbn. lia.
Defined.

(** ** [SmallestFactor] *)

Lemma SmallestFactor_least (n : Z) :
  2 <= n ->
  2 <= fst (SmallestFactor n) /\
  snd (SmallestFactor n) = n / fst (SmallestFactor n) /\
  fst (SmallestFactor n) * snd (SmallestFactor n) = n /\
  forall d, 2 <= d -> (d | n) -> fst (SmallestFactor n) <= d.
Proof.
  intros Hn. unfold SmallestFactor.
  destruct (find (fun i => n mod i =? 0) (range 2 (n - 1))) as [i|] eqn:E; cbn [fst snd].
  - apply (find_range_first _ _ _ _ _ eq_refl) in E.
    destruct E as [Hi [Hdiv Hfirst]]. apply Z.eqb_eq in Hdiv.
    split; [lia|]. split; [reflexivity|].
    split; [symmetry; apply Z_div_exact_full_2; lia|].
    intros d Hd Hdn. destruct (Z_lt_le_dec d i) as [Hlt|Hle]; [|exact Hle].
    apply Z.mod_divide in Hdn; [|lia].
    specialize (Hfirst d ltac:(lia)). cbn beta in Hfirst.
    rewrite Hdn in Hfirst. discriminate.
  - split; [exact Hn|]. split; [symmetry; apply Z.div_same; lia|].
    split; [lia|].
    intros d Hd Hdn. destruct (Z_lt_le_dec d n) as [Hlt|Hle]; [|exact Hle].
    apply Z.mod_divide in Hdn; [|lia].
    pose proof (find_none _ _ E d (proj2 (in_range 2 (n - 1) d) ltac:(lia))) as H.
    cbn beta in H. rewrite Hdn in H. discriminate.
Qed.

(** [SmallestFactor(n)] returns (n, 1) for n below 2; from 2 on it returns
    the least divisor of [n] that is 2 or more, with the quotient of [n] by
    it. *)
Theorem SmallestFactor_least_divisor (n : Z) :
  0 <= n ->
  (n < 2 -> SmallestFactor n = (n, 1)) /\
  (2 <= n ->
   exists factor residue,
     SmallestFactor n = (factor, residue) /\
     2 <= factor <= n /\ residue = n / factor /\ factor * residue = n /\
     forall d, 2 <= d -> (d | n) -> factor <= d).
Proof.
  intros H0. split.
  - intros Hn. unfold SmallestFactor. rewrite range_empty by lia. reflexivity.
  - intros Hn. destruct (SmallestFactor_least n Hn) as [H2 [Hres [Hmul Hleast]]].
    destruct (SmallestFactor n) as [factor residue]. cbn [fst snd] in *.
    exists factor, residue. split; [reflexivity|].
    split; [|split; [exact Hres|split; [exact Hmul|exact Hleast]]].
    split; [exact H2|]. apply Hleast; [lia|apply Z.divide_refl].
Qed.

Lemma SmallestFactor_least_divisor_witness :
  (91 < 2 -> SmallestFactor 91 = (91, 1)) /\
  (2 <= 91 ->
   exists factor residue,
     SmallestFactor 91 = (factor, residue) /\
     2 <= factor <= 91 /\ residue = 91 / factor /\ factor * residue = 91 /\
     forall d, 2 <= d -> (d | 91) -> factor <= d).
Proof.
  apply (SmallestFactor_least_divisor 91). lia.
Defined.

(** ** The factors of [GetTiling] in ascending order *)

Lemma GetTiling_factors_sorted (fuel : nat) (residue lower : Z) (factors out : list Z) :
  GetTiling_factors fuel residue factors = Some out ->
  (forall d, 2 <= d -> (d | residue) -> lower <= d) ->
  exists fs, out = factors ++ fs /\
             Forall (fun f => lower <= f) fs /\ StronglySorted Z.le fs.
Proof.
  revert residue lower factors.
  induction fuel as [|fuel IH]; intros residue lower factors H Hlow; [discriminate|].
  cbn [GetTiling_factors] in H. destruct (residue >? 1) eqn:E.
  - destruct (SmallestFactor_least residue ltac:(lia)) as [H2 [Hres [Hmul Hleast]]].
    destruct (SmallestFactor residue) as [cur res']. cbn [fst snd] in *.
    apply (IH res' cur) in H.
    + destruct H as [fs [-> [Hall Hsorted]]]. exists (cur :: fs).
      rewrite <- app_assoc. split; [reflexivity|]. split.
      * constructor.
        -- apply Hlow; [lia|]. exists res'. lia.
        -- eapply Forall_impl; [|exact Hall]. cbn beta. intros f Hf.
           assert (lower <= cur) by (apply Hlow; [lia|exists res'; lia]). lia.
      * constructor; assumption.
    + intros d Hd Hdr. apply Hleast; [exact Hd|].
      apply Z.divide_trans with res'; [exact Hdr|]. exists cur. lia.
  - injection H as <-. exists []. rewrite app_nil_r.
    split; [reflexivity|]. split; constructor.
Qed.

(** For every [num_elems] from 1 up, the first loop of [GetTiling] pushes the
    factors in ascending order. *)
Theorem GetTiling_factors_ascending (num_elems : Z) :
  1 <= num_elems < ULONG_MODULUS ->
  exists factors,
    GetTiling_factors GetTiling_fuel num_elems [] = Some factors /\
    StronglySorted Z.le factors /\ product factors = num_elems.
Proof.
  intros Hn.
  destruct (GetTiling_factors_returns GetTiling_fuel num_elems [])
    as [fs [H [Hprod _]]].
  { unfold GetTiling_fuel. change (2 ^ (Z.of_nat 65 - 1)) with ULONG_MODULUS. exact Hn. }
  cbn [app] in H. exists fs. split; [exact H|]. split; [|exact Hprod].
  destruct (GetTiling_factors_sorted _ _ 2 _ _ H) as [fs' [Hfs [_ Hsorted]]].
  { intros d Hd _. exact Hd. }
  cbn [app] in Hfs. subst fs'. exact Hsorted.
Qed.

Lemma GetTiling_factors_ascending_witness :
  exists factors,
    GetTiling_factors GetTiling_fuel 360 [] = Some factors /\
    StronglySorted Z.le factors /\ product factors = 360.
Proof.
  apply (GetTiling_factors_ascending 360). unfold ULONG_MODULUS, ULONG_BITS. lia.
Defined.

(** ** [GetTiling] on a power of two *)

Lemma SmallestFactor_power_of_two (j : Z) :
  0 <= j -> SmallestFactor (2 ^ (j + 1)) = (2, 2 ^ j).
Proof.
  intros Hj. rewrite Z.pow_add_r by lia. change (2 ^ 1) with 2.
  assert (Hp : 1 <= 2 ^ j) by (assert (0 < 2 ^ j) by (apply Z.pow_pos_nonneg; lia); lia).
  unfold SmallestFactor. destruct (Z.eq_dec (2 ^ j) 1) as [E|E].
  - rewrite E. reflexivity.
  - rewrite range_cons by lia. cbn [find].
    rewrite Z.mod_mul by lia. cbn [Z.eqb]. rewrite Z.div_mul by lia. reflexivity.
Qed.

Lemma GetTiling_factors_power_of_two (k fuel : nat) (factors : list Z) :
  (k < fuel)%nat ->
  GetTiling_factors fuel (2 ^ Z.of_nat k) factors = Some (factors ++ repeat 2 k).
Proof.
  revert fuel factors. induction k as [|k IH]; intros fuel factors Hf.
  - destruct fuel as [|fuel]; [lia|]. cbn [GetTiling_factors repeat].
    change (2 ^ Z.of_nat 0 >? 1) with false. cbv iota. rewrite app_nil_r. reflexivity.
  - destruct fuel as [|fuel]; [lia|]. cbn [GetTiling_factors].
    assert (0 < 2 ^ Z.of_nat k) by (apply Z.pow_pos_nonneg; lia).
    replace (Z.of_nat (S k)) with (Z.of_nat k + 1) by lia.
    rewrite SmallestFactor_power_of_two by lia.
    rewrite Z.pow_add_r by lia. change (2 ^ 1) with 2.
    destruct (2 ^ Z.of_nat k * 2 >? 1) eqn:E; [|lia].
    rewrite IH by lia. rewrite <- app_assoc. reflexivity.
Qed.

Lemma GetTiling_split_power_of_two (len s : nat) (a b : Z) :
  0 <= a -> 0 <= b -> a + b + Z.of_nat len <= 63 ->
  fold_left
    (fun '(height, width) '(i, f) =>
       if Nat.even i then (umul height f, width) else (height, umul width f))
    (combine (seq s len) (repeat 2 len)) (2 ^ a, 2 ^ b)
  = if Nat.even s
    then (2 ^ (a + (Z.of_nat len + 1) / 2), 2 ^ (b + Z.of_nat len / 2))
    else (2 ^ (a + Z.of_nat len / 2), 2 ^ (b + (Z.of_nat len + 1) / 2)).
Proof.
  revert s a b. induction len as [|len IH]; intros s a b Ha Hb Hsum.
  - cbn [seq repeat combine fold_left]. change (Z.of_nat 0) with 0.
    change ((0 + 1) / 2) with 0. change (0 / 2) with 0. rewrite !Z.add_0_r.
    destruct (Nat.even s); reflexivity.
  - cbn [seq repeat combine fold_left].
    assert (Hmul : forall e, 0 <= e < 63 -> umul (2 ^ e) 2 = 2 ^ (e + 1)).
    { intros e He. rewrite Z.pow_add_r by lia. change (2 ^ 1) with 2.
      apply wrap_small. unfold is_ulong, ULONG_MODULUS, ULONG_BITS.
      assert (0 < 2 ^ e) by (apply Z.pow_pos_nonneg; lia).
      assert (2 ^ e <= 2 ^ 62) by (apply Z.pow_le_mono_r; lia).
      change (2 ^ 62) with 4611686018427387904 in *.
      change (2 ^ 64) with 18446744073709551616. lia. }
    destruct (Nat.even s) eqn:Es.
    + rewrite Hmul by lia. rewrite IH by lia.
      rewrite Nat.even_succ, <- Nat.negb_even, Es. cbn [negb].
      f_equal; f_equal; [|lia].
      replace (Z.of_nat (S len) + 1) with (Z.of_nat len + 1 * 2) by lia.
      rewrite Z.div_add by lia. lia.
    + rewrite Hmul by lia. rewrite IH by lia.
      rewrite Nat.even_succ, <- Nat.negb_even, Es. cbn [negb].
      f_equal; f_equal; [lia|].
      replace (Z.of_nat (S len) + 1) with (Z.of_nat len + 1 * 2) by lia.
      rewrite Z.div_add by lia. lia.
Qed.

(** For k from 0 to 63, [GetTiling] lays 2^k elements out as 2^(k/2) by
    2^((k+1)/2), the quotients rounded down: a square for an even k, a
    rectangle twice as wide as high for an odd one. *)
Theorem GetTiling_power_of_two (k : Z) :
  0 <= k <= 63 ->
  GetTiling (2 ^ k) = Some (2 ^ (k / 2), 2 ^ ((k + 1) / 2)).
Proof.
  intros Hk. unfold GetTiling.
  replace k with (Z.of_nat (Z.to_nat k)) at 1 by lia.
  rewrite GetTiling_factors_power_of_two by (unfold GetTiling_fuel; lia).
  cbn [app]. unfold GetTiling_split. rewrite repeat_length.
  change (1, 1) with (2 ^ 0, 2 ^ 0).
  rewrite GetTiling_split_power_of_two by lia.
  cbn [Nat.even]. rewrite Z2Nat.id, !Z.add_0_l by lia.
  assert (Hle : k / 2 <= (k + 1) / 2) by (apply Z.div_le_mono; lia).
  assert (Hpow : 2 ^ (k / 2) <= 2 ^ ((k + 1) / 2)) by (apply Z.pow_le_mono_r; lia).
  destruct (2 ^ ((k + 1) / 2) >? 2 ^ (k / 2)) eqn:E; [reflexivity|].
  f_equal. f_equal; lia.
Qed.

Lemma GetTiling_power_of_two_witness :
  GetTiling (2 ^ 63) = Some (2 ^ (63 / 2), 2 ^ ((63 + 1) / 2)).
Proof.
  apply (GetTiling_power_of_two 63). lia.
Defined.

(** ** [cart_product] *)

Lemma cart_product_into (v s : list (list Z)) (x ys : list Z) :
  In x s -> Forall2 (fun y u => In y u) ys v ->
  In (x ++ ys)
     (fold_left (fun s u => flat_map (fun x => map (fun y => x ++ [y]) u) s) v s).
Proof.
  intros Hx Hys. revert s x Hx.
  induction Hys as [|y u ys v Hy _ IH]; intros s x Hx; cbn [fold_left].
  - rewrite app_nil_r. exact Hx.
  - replace (x ++ y :: ys) with ((x ++ [y]) ++ ys) by (rewrite <- app_assoc; reflexivity).
    apply IH. apply in_flat_map. exists x. split; [exact Hx|].
    apply in_map_iff. exists y. split; [reflexivity|exact Hy].
Qed.

Lemma cart_product_size (v s : list (list Z)) :
  length (fold_left (fun s u => flat_map (fun x => map (fun y => x ++ [y]) u) s) v s)
  = (length s * product_of_sizes v)%nat.
Proof.
  revert s. induction v as [|u v IH]; intros s; cbn [fold_left product_of_sizes fold_right].
  - lia.
  - rewrite IH. fold (product_of_sizes v).
    assert (Hlen : length (flat_map (fun x => map (fun y => x ++ [y]) u) s)
                   = (length s * length u)%nat).
    { induction s as [|x s IHs]; [reflexivity|].
      cbn [flat_map length]. rewrite length_app, length_map, IHs. lia. }
    rewrite Hlen. lia.
Qed.

Lemma cart_product_exact (v : list (list Z)) (t : list Z) :
  In t (ResidualFactors.cart_product v) <-> Forall2 (fun y u => In y u) t v.
Proof.
  split; [apply cart_product_members|].
  intros H. unfold ResidualFactors.cart_product.
  apply (cart_product_into v [[]] [] t); [left; reflexivity|exact H].
Qed.

(** [cart_product(v)] holds exactly the tuples that take their k-th entry
    from the k-th vector of [v], and as many tuples as the sizes of the
    vectors multiply to: one, the empty tuple, for an empty [v], and none as
    soon as one vector is empty. *)
Theorem cart_product_tuples (v : list (list Z)) :
  (forall t, In t (ResidualFactors.cart_product v) <-> Forall2 (fun y u => In y u) t v) /\
  length (ResidualFactors.cart_product v) = product_of_sizes v /\
  (v = [] -> ResidualFactors.cart_product v = [[]]) /\
  (In [] v -> ResidualFactors.cart_product v = []).
Proof.
  assert (Hsize : length (ResidualFactors.cart_product v) = product_of_sizes v).
  { unfold ResidualFactors.cart_product. rewrite cart_product_size. cbn [length]. lia. }
  split; [|split; [exact Hsize|split]].
  - intros t. apply cart_product_exact.
  - intros ->. reflexivity.
  - intros Hin. apply length_zero_iff_nil. rewrite Hsize.
    clear Hsize. induction v as [|u v IH]; [destruct Hin|].
    cbn [product_of_sizes fold_right]. destruct Hin as [->|Hin]; [reflexivity|].
    fold (product_of_sizes v). rewrite (IH Hin). lia.
Qed.

(** ** Factor tuples and residual tuples side by side *)

Lemma Forall2_nth_error_left {A B : Type} (P : A -> B -> Prop) (a : list A) (b : list B)
      (k : nat) (x : A) :
  Forall2 P a b -> nth_error a k = Some x -> exists y, nth_error b k = Some y /\ P x y.
Proof.
  intros H. revert k. induction H as [|x' y' a b Hxy _ IH]; intros [|k] Ha;
    try discriminate.
  - injection Ha as <-. exists y'. split; [reflexivity|exact Hxy].
  - apply IH. exact Ha.
Qed.

Lemma constructors_accept
      (sb : Z -> Z) (sm : Z -> Z -> Z) (n : Z) (order : nat)
      (spatial spatial_indices : list Z) (given : given_map) (self : ResidualFactors.t) :
  ResidualFactors.ResidualFactors sb sm n order spatial spatial_indices = Returns self \/
  ResidualFactors.ResidualFactors_given sb sm n order spatial spatial_indices given
    = Returns self ->
  Forall2 (boundary_pair n) (ResidualFactors.cofactors_ self) (ResidualFactors.rfactors_ self).
Proof.
  intros [H|H].
  - apply plain_constructor_retains_nothing in H. destruct H as [-> ->]. constructor.
  - apply given_constructor_accepts in H. exact H.
Qed.

(** After either constructor, [cofactors_] and [rfactors_] have the same
    number of entries: [operator[]] returns a factor tuple and a residual
    tuple of the same length for every index below [size()], and throws
    [std::out_of_range] for every other index. *)
Theorem operator_index_in_range
        (sb : Z -> Z) (sm : Z -> Z -> Z) (n : Z) (order : nat)
        (spatial spatial_indices : list Z) (given : given_map)
        (self : ResidualFactors.t) (index : nat) :
  ResidualFactors.ResidualFactors sb sm n order spatial spatial_indices = Returns self \/
  ResidualFactors.ResidualFactors_given sb sm n order spatial spatial_indices given
    = Returns self ->
  length (ResidualFactors.rfactors_ self) = ResidualFactors.size self /\
  ((index < ResidualFactors.size self)%nat ->
   exists f r, ResidualFactors.get self index = Returns (f, r) /\ length f = length r) /\
  ((ResidualFactors.size self <= index)%nat ->
   ResidualFactors.get self index = Fails OutOfRange).
Proof.
  intros H. apply constructors_accept in H.
  unfold ResidualFactors.size, ResidualFactors.get.
  split; [symmetry; eapply Forall2_length; exact H|]. split.
  - intros Hi.
    destruct (nth_error (ResidualFactors.cofactors_ self) index) as [f|] eqn:Ef;
      [|apply nth_error_None in Ef; lia].
    destruct (Forall2_nth_error_left _ _ _ _ _ H Ef) as [r [-> [Hpair _]]].
    exists f, r. split; [reflexivity|]. eapply Forall2_length. exact Hpair.
  - intros Hi. apply nth_error_None in Hi. rewrite Hi. reflexivity.
Qed.

Lemma operator_index_in_range_witness :
  exists self,
    ResidualFactors.ResidualFactors_given
      ResidualFactors.small_sqrt_bound ResidualFactors.small_spatial_multiple
      5 2 [3] [0] [] = Returns self /\
    length (ResidualFactors.rfactors_ self) = ResidualFactors.size self /\
    ((0 < ResidualFactors.size self)%nat ->
     exists f r, ResidualFactors.get self 0 = Returns (f, r) /\ length f = length r) /\
    ((ResidualFactors.size self <= 0)%nat ->
     ResidualFactors.get self 0 = Fails OutOfRange).
Proof.
  eexists. split.
  - vm_compute. reflexivity.
  - apply (operator_index_in_range
             ResidualFactors.small_sqrt_bound ResidualFactors.small_spatial_multiple
             5 2 [3] [0] []).
    right. vm_compute. reflexivity.
Defined.

(** ** Spatial positions of the retained pairs *)

(** What the loop over the positions of [f] leaves, position by position:
    at a position that is not spatial the factor itself, at a spatial one the
    entry of [r] at the position's rank; and [valid] stays [true] only if no
    factor at a spatial position exceeds the bound at its rank. *)
Lemma residual_vector_positions (six sf r fs : list Z) (i0 s0 : nat)
      (acc : list Z) (valid : bool) (vrf : list Z) (v : bool) :
  ResidualFactors.residual_vector six sf r fs (Z.of_nat i0) s0 acc valid
    = Returns (vrf, v) ->
  exists tail,
    vrf = acc ++ tail /\
    (v = true -> valid = true) /\
    forall k f_k r_k,
      nth_error fs k = Some f_k -> nth_error tail k = Some r_k ->
      (flagged six (i0 + k) = false -> r_k = f_k) /\
      (flagged six (i0 + k) = true ->
       exists bound,
         nth_error sf (s0 + length (filter (flagged six) (seq i0 k))) = Some bound /\
         nth_error r (s0 + length (filter (flagged six) (seq i0 k))) = Some r_k /\
         (v = true -> f_k <= bound)).
Proof.
  revert i0 s0 acc valid. induction fs as [|f_i fs IH]; intros i0 s0 acc valid H.
  - injection H as <- <-. exists []. rewrite app_nil_r.
    split; [reflexivity|]. split; [auto|]. intros [|k] ? ? Hk; discriminate.
  - cbn [ResidualFactors.residual_vector] in H.
    fold (flagged six i0) in H.
    replace (Z.of_nat i0 + 1) with (Z.of_nat (S i0)) in H by lia.
    destruct (flagged six i0) eqn:Eflag.
    + apply bind_returns in H. destruct H as [r_i [Hr H]].
      apply bind_returns in H. destruct H as [bound [Hb H]].
      apply IH in H. destruct H as [tail [-> [Hvalid Hpos]]].
      unfold at_ in Hr. destruct (nth_error r s0) as [x|] eqn:Er; [|discriminate].
      injection Hr as ->.
      destruct (nth_error sf s0) as [b|] eqn:Esf; [|discriminate].
      injection Hb as ->.
      exists (r_i :: tail). rewrite <- app_assoc. split; [reflexivity|].
      split.
      { intros Hv. specialize (Hvalid Hv). destruct (f_i >? bound); [discriminate|].
        exact Hvalid. }
      intros [|k] f_k r_k Hf Ht.
      * injection Hf as <-. injection Ht as <-. rewrite Nat.add_0_r, Eflag.
        split; [discriminate|]. intros _. exists bound.
        cbn [seq filter length]. rewrite Nat.add_0_r.
        split; [exact Esf|]. split; [exact Er|].
        intros Hv. specialize (Hvalid Hv).
        destruct (f_i >? bound) eqn:E; [discriminate|]. lia.
      * cbn [nth_error] in Hf, Ht. specialize (Hpos k f_k r_k Hf Ht).
        replace (i0 + S k)%nat with (S i0 + k)%nat by lia.
        cbn [seq filter]. rewrite Eflag. cbn [length].
        replace (s0 + S (length (filter (flagged six) (seq (S i0) k))))%nat
          with (S s0 + length (filter (flagged six) (seq (S i0) k)))%nat by lia.
        exact Hpos.
    + apply IH in H. destruct H as [tail [-> [Hvalid Hpos]]].
      exists (f_i :: tail). rewrite <- app_assoc. split; [reflexivity|].
      split; [exact Hvalid|].
      intros [|k] f_k r_k Hf Ht.
      * injection Hf as <-. injection Ht as <-. rewrite Nat.add_0_r, Eflag.
        split; [reflexivity|discriminate].
      * cbn [nth_error] in Hf, Ht. specialize (Hpos k f_k r_k Hf Ht).
        replace (i0 + S k)%nat with (S i0 + k)%nat by lia.
        cbn [seq filter]. rewrite Eflag. exact Hpos.
Qed.

Lemma solve_pair_spatial (self : ResidualFactors.t) (n : Z) (f r : list Z)
      (sol sol' : list (list Z) * list (list Z)) :
  Forall2 (fun x b => 1 <= x <= b) r (ResidualFactors.spatial_factors_ self) ->
  ResidualFactors.solve_pair self n f r sol = Returns sol' ->
  Forall2 (spatial_pair (ResidualFactors.spatial_factors_ self)
                        (ResidualFactors.spatial_ix_ self)) (fst sol) (snd sol) ->
  Forall2 (spatial_pair (ResidualFactors.spatial_factors_ self)
                        (ResidualFactors.spatial_ix_ self)) (fst sol') (snd sol').
Proof.
  intros Hr H Hsol. unfold ResidualFactors.solve_pair in H.
  apply bind_returns in H. destruct H as [[vrf valid] [Hvec H]].
  pose proof (residual_vector_entries _ _ _ _ _ _ _ _ _ _ Hvec) as [tail0 [E0 Hent]].
  apply (residual_vector_positions _ _ _ _ 0 0) in Hvec.
  destruct Hvec as [tail [-> [_ Hpos]]]. cbn [app] in *. subst tail0.
  assert (Hlen : length tail = length f) by (symmetry; eapply Forall2_length; eauto).
  pose proof (equation_computes f tail valid Hlen) as [_ Hvalid].
  destruct (ResidualFactors.equation f tail valid) as [ans v]. cbn [fst snd] in *.
  destruct ((uadd ans 1 =? n) && v) eqn:E.
  - injection H as <-. cbn [fst snd]. apply andb_prop in E. destruct E as [_ Ev].
    destruct (Hvalid Ev) as [Hv _].
    apply Forall2_app; [exact Hsol|]. constructor; [|constructor].
    intros i f_i r_i Hf Ht. specialize (Hpos i f_i r_i Hf Ht).
    cbn [Nat.add] in Hpos. destruct Hpos as [Hfree Hflag].
    split; [exact Hfree|]. intros Hi.
    destruct (Hflag Hi) as [bound [Hsf [Hri Hle]]]. exists bound.
    unfold flag_rank. split; [exact Hsf|]. split; [apply Hle; exact Hv|].
    apply (Forall2_nth_error _ _ _ _ _ _ Hr Hri Hsf).
  - injection H as <-. exact Hsol.
Qed.

(** The residual candidates are within the spatial bounds, one entry per
    bound. *)
Lemma GenerateResidual_within_bounds (n : Z) (order : nat)
      (self self' : ResidualFactors.t) :
  ResidualFactors.GenerateResidual_ n order self = Returns self' ->
  ResidualFactors.pruned_residual_factors_ self = [] ->
  Forall (fun r => Forall2 (fun x b => 1 <= x <= b) r
                           (ResidualFactors.spatial_factors_ self))
         (ResidualFactors.pruned_residual_factors_ self').
Proof.
  intros H Hnil. unfold ResidualFactors.GenerateResidual_ in H.
  apply bind_returns in H. destruct H as [_ [_ H]]. injection H as <-.
  cbn [ResidualFactors.set_pruned_residual_factors_
         ResidualFactors.pruned_residual_factors_].
  rewrite (fold_left_select
             (fun t => fold_left uadd t 0 <=? uadd n (Z.of_nat order))).
  rewrite Hnil. cbn [app]. apply Forall_forall. intros r Hr.
  apply filter_In in Hr. destruct Hr as [Hr _].
  apply cart_product_members in Hr.
  generalize dependent r.
  induction (ResidualFactors.spatial_factors_ self) as [|b l IH]; intros r Hr;
    inversion Hr; subst; constructor.
  - match goal with Hin : In _ (range 1 _) |- _ => apply in_range in Hin; exact Hin end.
  - apply IH. assumption.
Qed.

Lemma EquationSolver_spatial (n : Z) (given : given_map) (self self' : ResidualFactors.t) :
  Forall (fun r => Forall2 (fun x b => 1 <= x <= b) r
                           (ResidualFactors.spatial_factors_ self))
         (ResidualFactors.pruned_residual_factors_ self) ->
  Forall2 (spatial_pair (ResidualFactors.spatial_factors_ self)
                        (ResidualFactors.spatial_ix_ self))
          (ResidualFactors.cofactors_ self) (ResidualFactors.rfactors_ self) ->
  ResidualFactors.EquationSolver_ n given self = Returns self' ->
  Forall2 (spatial_pair (ResidualFactors.spatial_factors_ self)
                        (ResidualFactors.spatial_ix_ self))
          (ResidualFactors.cofactors_ self') (ResidualFactors.rfactors_ self').
Proof.
  intros Hpool Hsol H. unfold ResidualFactors.EquationSolver_ in H.
  apply bind_returns in H. destruct H as [pruned [_ H]].
  apply bind_returns in H. destruct H as [sol [Hfold H]].
  injection H as <-. cbn [ResidualFactors.set_solutions_ ResidualFactors.cofactors_
                          ResidualFactors.rfactors_].
  revert Hfold Hsol.
  change (ResidualFactors.cofactors_ self)
    with (fst (ResidualFactors.cofactors_ self, ResidualFactors.rfactors_ self)).
  change (ResidualFactors.rfactors_ self)
    with (snd (ResidualFactors.cofactors_ self, ResidualFactors.rfactors_ self)) at 2.
  apply (foldM_invariant _
           (fun s => Forall2 (spatial_pair (ResidualFactors.spatial_factors_ self)
                                           (ResidualFactors.spatial_ix_ self))
                             (fst s) (snd s))
           (fun _ => True)); [apply Forall_True|].
  intros f b b' _.
  apply (foldM_invariant _
           (fun s => Forall2 (spatial_pair (ResidualFactors.spatial_factors_ self)
                                           (ResidualFactors.spatial_ix_ self))
                             (fst s) (snd s))
           (fun r => Forall2 (fun x b => 1 <= x <= b) r
                             (ResidualFactors.spatial_factors_ self)));
    [exact Hpool|].
  intros r c c' Hr. apply solve_pair_spatial. exact Hr.
Qed.

Lemma given_constructor_spatial
      (sb : Z -> Z) (sm : Z -> Z -> Z) (n : Z) (order : nat)
      (spatial spatial_indices : list Z) (given : given_map) (self : ResidualFactors.t) :
  ResidualFactors.ResidualFactors_given sb sm n order spatial spatial_indices given
    = Returns self ->
  Forall2 (spatial_pair spatial spatial_indices)
          (ResidualFactors.cofactors_ self) (ResidualFactors.rfactors_ self).
Proof.
  intros H. unfold ResidualFactors.ResidualFactors_given in H.
  apply bind_returns in H. destruct H as [_ [_ H]].
  apply bind_returns in H. destruct H as [[pp given'] [_ H]].
  apply bind_returns in H. destruct H as [s1 [H1 H]].
  apply bind_returns in H. destruct H as [s2 [H2 H]].
  apply bind_returns in H. destruct H as [s4 [H4 H]].
  apply bind_returns in H. destruct H as [s5 [H5 H]].
  injection H as <-.
  cbn [ResidualFactors.cofactors_ ResidualFactors.rfactors_].
  pose proof (CalculateAllFactors_frame _ _ H1) as F1.
  pose proof (CalculateSpatialFactors_frame _ _ _ H2) as F2.
  pose proof (GenerateResidual_within_bounds _ _ _ _ H4) as Hpool.
  apply GenerateResidual_pool in H4; [|rewrite F2, F1; reflexivity].
  destruct H4 as [_ F4].
  assert (Hsf : ResidualFactors.spatial_factors_ s4 = spatial)
    by (rewrite F4, F2, F1; reflexivity).
  assert (Hix : ResidualFactors.spatial_ix_ s4 = spatial_indices)
    by (rewrite F4, F2, F1; reflexivity).
  rewrite <- Hsf, <- Hix.
  eapply EquationSolver_spatial; [| |exact H5].
  - rewrite Hsf.
    assert (Hg : ResidualFactors.spatial_factors_
                   (ResidualFactors.GenerateFactorProduct_
                      sb (n / pp) (order - length given') s2) = spatial)
      by (rewrite F2, F1; reflexivity).
    rewrite Hg in Hpool. apply Hpool. rewrite F2, F1. reflexivity.
  - rewrite F4, F2, F1. constructor.
Qed.

(** Every pair that a construction of [ResidualFactors] retains has, at a
    position that is not spatial, a residual equal to the factor, and at a
    spatial position a factor and a residual within the spatial bound of that
    position, the residual being 1 or more; the bound of the k-th spatial
    position, counted from position 0, is the k-th entry of [spatial]. *)
Theorem retained_pairs_respect_spatial_bounds
        (sb : Z -> Z) (sm : Z -> Z -> Z) (n : Z) (order : nat)
        (spatial spatial_indices : list Z) (given : given_map)
        (self : ResidualFactors.t) (f r : list Z) :
  ResidualFactors.ResidualFactors sb sm n order spatial spatial_indices = Returns self \/
  ResidualFactors.ResidualFactors_given sb sm n order spatial spatial_indices given
    = Returns self ->
  retained self f r ->
  spatial_pair spatial spatial_indices f r.
Proof.
  intros H [index Hget]. unfold ResidualFactors.get in Hget.
  destruct (nth_error (ResidualFactors.cofactors_ self) index) as [cfm|] eqn:Ef;
    [|discriminate].
  destruct (nth_error (ResidualFactors.rfactors_ self) index) as [rfm|] eqn:Er;
    [|discriminate].
  injection Hget as -> ->.
  destruct H as [H|H].
  - apply plain_constructor_retains_nothing in H. destruct H as [Hc _].
    rewrite Hc in Ef. destruct index; discriminate.
  - apply given_constructor_spatial in H.
    eapply Forall2_nth_error; eauto.
Qed.

Lemma retained_pairs_respect_spatial_bounds_witness :
  spatial_pair [3] [0] [2; 3] [1; 3].
Proof.
  eapply (retained_pairs_respect_spatial_bounds
            ResidualFactors.small_sqrt_bound ResidualFactors.small_spatial_multiple
            5 2 [3] [0] [] _ [2; 3] [1; 3]).
  - right. vm_compute. reflexivity.
  - exists 0%nat. reflexivity.
Defined.

(** ** The factor candidates *)

Lemma nth_error_set_nth {A : Type} (k : nat) (x : A) (v : list A) (i : nat) :
  nth_error (set_nth k x v) i
  = if (i =? k)%nat then (if (k <? length v)%nat then Some x else None)
    else nth_error v i.
Proof.
  revert k i. induction v as [|y v IH]; intros k i.
  - replace (set_nth k x []) with (@nil A) by (destruct k; reflexivity).
    destruct (i =? k)%nat; destruct i; reflexivity.
  - destruct k as [|k]; cbn [set_nth].
    + destruct i as [|i]; reflexivity.
    + destruct i as [|i]; [reflexivity|]. cbn [nth_error]. rewrite IH.
      cbn [length]. reflexivity.
Qed.

Lemma Forall2_pointwise {A B : Type} (P : A -> B -> Prop) (a : list A) (b : list B) :
  Forall2 P a b <->
  length a = length b /\
  forall i x y, nth_error a i = Some x -> nth_error b i = Some y -> P x y.
Proof.
  split.
  - intros H. split; [eapply Forall2_length; exact H|].
    intros i x y. apply Forall2_nth_error. exact H.
  - revert b. induction a as [|x a IH]; intros [|y b] [Hlen H]; try discriminate.
    + constructor.
    + constructor; [apply (H 0%nat); reflexivity|].
      apply IH. split; [cbn in Hlen; lia|].
      intros i x' y' Hx Hy. apply (H (S i)); assumption.
Qed.

(** The pool of position [i] in rotation [rec], after the swap of positions
    0 and [rec]: position [rec] holds the candidates of [sqrt_bound] or more
    (every candidate when [rec] is 0), the other positions those of at most
    [sqrt_bound]. *)
Lemma rotated_pool (sqrt_bound : Z -> Z) (self : ResidualFactors.t)
      (order rec i : nat) (pool : list Z) (a : Z) :
  (rec < order)%nat ->
  nth_error (swap_elems [] 0 rec
               (map (ResidualFactors.position_candidates sqrt_bound self rec)
                    (seq 0 order))) i = Some pool ->
  (In a pool <->
   In a (ResidualFactors.all_factors_ self) /\
   (i <> rec -> a <= sqrt_bound (ResidualFactors.n_ self)) /\
   (i = rec -> rec <> 0%nat -> sqrt_bound (ResidualFactors.n_ self) <= a)).
Proof.
  intros Hrec H. unfold swap_elems in H.
  set (v := map (ResidualFactors.position_candidates sqrt_bound self rec) (seq 0 order)) in *.
  assert (Hv : forall j, (j < order)%nat ->
                 nth j v [] = ResidualFactors.position_candidates sqrt_bound self rec j).
  { intros j Hj. unfold v.
    rewrite (nth_indep _ [] (ResidualFactors.position_candidates sqrt_bound self rec 0))
      by (rewrite length_map, length_seq; exact Hj).
    rewrite map_nth, seq_nth by exact Hj. reflexivity. }
  assert (Hlen : length v = order) by (unfold v; rewrite length_map, length_seq; reflexivity).
  rewrite nth_error_set_nth, set_nth_length, Hlen in H.
  assert (Hpool : exists j, (j < order)%nat /\
                    pool = ResidualFactors.position_candidates sqrt_bound self rec j /\
                    (i = rec -> j = 0%nat) /\ (i <> rec -> i = 0%nat -> j = rec) /\
                    (i <> rec -> i <> 0%nat -> j = i)).
  { destruct (i =? rec)%nat eqn:E.
    - apply Nat.eqb_eq in E. subst i.
      replace (rec <? order)%nat with true in H by (symmetry; apply Nat.ltb_lt; exact Hrec).
      injection H as <-. exists 0%nat. rewrite Hv by lia.
      repeat split; try lia.
    - apply Nat.eqb_neq in E. rewrite nth_error_set_nth, Hlen in H.
      destruct (i =? 0)%nat eqn:E0.
      + apply Nat.eqb_eq in E0. subst i.
        replace (0 <? order)%nat with true in H by (symmetry; apply Nat.ltb_lt; lia).
        injection H as <-. exists rec. rewrite Hv by lia. repeat split; try lia.
      + apply Nat.eqb_neq in E0.
        assert (Hi : (i < order)%nat).
        { rewrite <- Hlen. apply nth_error_Some. congruence. }
        rewrite (nth_error_nth' v [] (n := i)) in H by lia. injection H as <-.
        exists i. rewrite Hv by lia. repeat split; try lia. }
  destruct Hpool as [j [Hj [-> [H1 [H2 H3]]]]].
  unfold ResidualFactors.position_candidates. rewrite filter_In.
  destruct (Nat.eq_dec i rec) as [Hi|Hi].
  - rewrite (H1 Hi). destruct rec as [|r].
    + cbn [Nat.eqb andb]. intuition (try congruence; try lia).
    + cbn [Nat.eqb Nat.ltb Nat.leb andb]. rewrite andb_false_r.
      destruct (a >=? sqrt_bound (ResidualFactors.n_ self)) eqn:Ea;
        intuition (try congruence; try lia).
  - assert (Hj0 : (0 < j)%nat).
    { destruct (Nat.eq_dec i 0) as [Hi0|Hi0]; [rewrite (H2 Hi Hi0)|rewrite (H3 Hi Hi0)]; lia. }
    destruct j as [|j]; [lia|]. cbn [Nat.eqb andb].
    replace (0 <? S j)%nat with true by reflexivity.
    rewrite andb_true_r, andb_false_r. cbn [andb].
    destruct (a <=? sqrt_bound (ResidualFactors.n_ self)) eqn:Ea;
      intuition (try congruence; try lia).
Qed.

(** [GenerateFactorProduct_], run on an object that has no candidates yet,
    leaves as factor candidates exactly the tuples of [order] members of
    [all_factors_] whose pruning product is at most [n] and in which, for
    some position [rec], every entry at another position is at most
    [sqrt_bound] and, when [rec] is not position 0, the entry at [rec] is
    [sqrt_bound] or more. *)
Theorem GenerateFactorProduct_candidates
        (sqrt_bound : Z -> Z) (n : Z) (order : nat) (self : ResidualFactors.t)
        (t : list Z) :
  ResidualFactors.replicated_factors_ self = [] ->
  ResidualFactors.pruned_product_factors_ self = [] ->
  (In t (ResidualFactors.pruned_product_factors_
           (ResidualFactors.GenerateFactorProduct_ sqrt_bound n order self)) <->
   length t = order /\
   ResidualFactors.pruning_product t <= n /\
   exists rec,
     (rec < order)%nat /\
     forall i a, nth_error t i = Some a ->
                 In a (ResidualFactors.all_factors_ self) /\
                 (i <> rec -> a <= sqrt_bound (ResidualFactors.n_ self)) /\
                 (i = rec -> rec <> 0%nat -> sqrt_bound (ResidualFactors.n_ self) <= a)).
Proof.
  intros Hrep Hpruned. unfold ResidualFactors.GenerateFactorProduct_.
  cbn [ResidualFactors.set_product_factors_ ResidualFactors.pruned_product_factors_].
  rewrite (fold_left_select (fun t => ResidualFactors.pruning_product t <=? n)).
  rewrite Hpruned, Hrep. cbn [app]. rewrite filter_In.
  set (pools := fun rec =>
         swap_elems [] 0 rec
           (map (ResidualFactors.position_candidates sqrt_bound self rec) (seq 0 order))).
  assert (Hfold : forall l acc,
             In t (fold_left
                     (fun replicated rec =>
                        replicated ++ ResidualFactors.cart_product (pools rec)) l acc)
             <-> In t acc \/
                 exists rec, In rec l /\ Forall2 (fun y u => In y u) t (pools rec)).
  { induction l as [|rec l IH]; intros acc; cbn [fold_left].
    - split; [auto|]. intros [H|[rec [[] _]]]. exact H.
    - rewrite IH, in_app_iff.
      rewrite (cart_product_exact (pools rec) t).
      split.
      + intros [[H|H]|[r [Hr H]]]; [auto| |].
        * right. exists rec. split; [left; reflexivity|exact H].
        * right. exists r. split; [right; exact Hr|exact H].
      + intros [H|[r [[<-|Hr] H]]]; [auto|auto|]. right. exists r. auto. }
  match goal with
  | |- In t (fold_left ?f _ _) /\ _ <-> _ =>
    change f with (fun (replicated : list (list Z)) (rec : nat) =>
                     replicated ++ ResidualFactors.cart_product (pools rec))
  end.
  rewrite Hfold. clear Hfold.
  assert (Hlen : forall rec, length (pools rec) = order).
  { intros rec. unfold pools. rewrite swap_elems_length, length_map, length_seq.
    reflexivity. }
  split.
  - intros [[[]|[rec [Hrec H]]] Hprune]. apply in_seq in Hrec.
    apply Forall2_pointwise in H. destruct H as [Hl H]. rewrite Hlen in Hl.
    split; [exact Hl|]. split; [apply Z.leb_le; exact Hprune|].
    exists rec. split; [lia|]. intros i a Ha.
    assert (Hi : (i < length (pools rec))%nat).
    { rewrite Hlen, <- Hl. apply nth_error_Some. congruence. }
    destruct (nth_error (pools rec) i) as [pool|] eqn:Ep;
      [|apply nth_error_None in Ep; lia].
    apply (rotated_pool sqrt_bound self order rec i pool a ltac:(lia) Ep).
    apply (H i a pool Ha Ep).
  - intros [Hl [Hprune [rec [Hrec H]]]].
    split; [|apply Z.leb_le; exact Hprune]. right. exists rec.
    split; [apply in_seq; lia|]. apply Forall2_pointwise.
    split; [rewrite Hlen; exact Hl|]. intros i a pool Ha Ep.
    apply (rotated_pool sqrt_bound self order rec i pool a Hrec Ep).
    apply H. exact Ha.
Qed.

Lemma GenerateFactorProduct_candidates_witness :
  In [2; 3]
     (ResidualFactors.pruned_product_factors_
        (ResidualFactors.GenerateFactorProduct_ ResidualFactors.small_sqrt_bound 6 2
           (ResidualFactors.mk 6 [] [] [1; 2; 3; 6] [] [] [] [] []))) <->
  length [2; 3] = 2%nat /\
  ResidualFactors.pruning_product [2; 3] <= 6 /\
  exists rec,
    (rec < 2)%nat /\
    forall i a, nth_error [2; 3] i = Some a ->
                In a (ResidualFactors.all_factors_
                        (ResidualFactors.mk 6 [] [] [1; 2; 3; 6] [] [] [] [] [])) /\
                (i <> rec ->
                 a <= ResidualFactors.small_sqrt_bound
                        (ResidualFactors.n_
                           (ResidualFactors.mk 6 [] [] [1; 2; 3; 6] [] [] [] [] []))) /\
                (i = rec -> rec <> 0%nat ->
                 ResidualFactors.small_sqrt_bound
                   (ResidualFactors.n_
                      (ResidualFactors.mk 6 [] [] [1; 2; 3; 6] [] [] [] [] [])) <= a).
Proof.
  apply (GenerateFactorProduct_candidates
           ResidualFactors.small_sqrt_bound 6 2
           (ResidualFactors.mk 6 [] [] [1; 2; 3; 6] [] [] [] [] []) [2; 3]);
    reflexivity.
Defined.

(** ** The residual candidates *)

Lemma fold_left_uadd (t : list Z) (acc : Z) :
  fold_left uadd t acc = wrap (acc + sum t) \/ t = [].
Proof.
  destruct t as [|x t]; [right; reflexivity|left].
  revert acc x. induction t as [|y t IH]; intros acc x.
  - cbn [fold_left sum fold_right]. unfold uadd. rewrite Z.add_0_r. reflexivity.
  - change (fold_left uadd (x :: y :: t) acc) with (fold_left uadd (y :: t) (uadd acc x)).
    rewrite IH. unfold uadd, wrap.
    change (sum (x :: y :: t)) with (x + sum (y :: t)).
    rewrite Zplus_mod_idemp_l. f_equal. ring.
Qed.

Lemma sum_within_bounds (r spatial : list Z) :
  Forall2 (fun x b => 1 <= x <= b) r spatial ->
  Forall (fun b => b < UINT_MAX) spatial ->
  0 <= sum r <= Z.of_nat (length spatial) * UINT_MAX.
Proof.
  induction 1 as [|x b r spatial Hx _ IH]; intros Hb.
  - cbn. lia.
  - inversion Hb; subst. specialize (IH ltac:(assumption)).
    change (sum (x :: r)) with (x + sum r). cbn [length].
    rewrite Nat2Z.inj_succ. unfold UINT_MAX in *. lia.
Qed.

(** When every spatial bound is below [UINT_MAX] (and there are fewer than
    2^32 of them), [GenerateResidual_] returns, and the residual candidates
    it leaves are exactly the tuples with one entry per spatial bound, each
    from 1 to its bound, whose sum is at most [n + order]; nothing else of
    the object changes. *)
Theorem GenerateResidual_candidates (n : Z) (order : nat) (self : ResidualFactors.t) :
  Forall (fun b => b < UINT_MAX) (ResidualFactors.spatial_factors_ self) ->
  Z.of_nat (length (ResidualFactors.spatial_factors_ self)) <= UINT_MAX ->
  ResidualFactors.pruned_residual_factors_ self = [] ->
  exists pool,
    ResidualFactors.GenerateResidual_ n order self
      = Returns (ResidualFactors.set_pruned_residual_factors_ self pool) /\
    forall r, In r pool <->
              Forall2 (fun x b => 1 <= x <= b) r (ResidualFactors.spatial_factors_ self) /\
              sum r <= uadd n (Z.of_nat order).
Proof.
  intros Hb Hlen Hnil. unfold ResidualFactors.GenerateResidual_.
  rewrite (forallb_below _ _ Hb). cbn [check bind].
  eexists. split; [reflexivity|]. intros r.
  rewrite (fold_left_select
             (fun t => fold_left uadd t 0 <=? uadd n (Z.of_nat order))).
  rewrite Hnil. cbn [app]. rewrite filter_In.
  assert (Hmem : In r (ResidualFactors.cart_product
                         (map (fun i => range 1 i) (ResidualFactors.spatial_factors_ self)))
                 <-> Forall2 (fun x b => 1 <= x <= b) r
                             (ResidualFactors.spatial_factors_ self)).
  { split.
    - intros H. apply cart_product_members in H. revert r H.
      induction (ResidualFactors.spatial_factors_ self) as [|b l IH]; intros r H;
        inversion H; subst; constructor.
      + match goal with Hin : In _ (range 1 _) |- _ => apply in_range in Hin; exact Hin end.
      + apply IH; [inversion Hb|cbn [length] in Hlen; lia|]; assumption.
    - intros H. unfold ResidualFactors.cart_product.
      apply (cart_product_into _ [[]] [] r); [left; reflexivity|].
      clear - H. induction H; constructor; [apply in_range; assumption|assumption]. }
  rewrite Hmem. split; intros [Hr Hsum]; (split; [exact Hr|]).
  - apply Z.leb_le in Hsum.
    pose proof (sum_within_bounds _ _ Hr Hb) as Hs.
    destruct (fold_left_uadd r 0) as [E| ->]; [|cbn in *; exact Hsum].
    rewrite E, Z.add_0_l, wrap_small in Hsum; [exact Hsum|].
    unfold is_ulong, ULONG_MODULUS, ULONG_BITS, UINT_MAX in *. nia.
  - apply Z.leb_le.
    pose proof (sum_within_bounds _ _ Hr Hb) as Hs.
    destruct (fold_left_uadd r 0) as [E| ->]; [|cbn in *; exact Hsum].
    rewrite E, Z.add_0_l, wrap_small; [exact Hsum|].
    unfold is_ulong, ULONG_MODULUS, ULONG_BITS, UINT_MAX in *. nia.
Qed.

Lemma GenerateResidual_candidates_witness :
  exists pool,
    ResidualFactors.GenerateResidual_ 5 2 (ResidualFactors.init 5 [3; 2] [0; 1])
      = Returns (ResidualFactors.set_pruned_residual_factors_
                   (ResidualFactors.init 5 [3; 2] [0; 1]) pool) /\
    forall r, In r pool <->
              Forall2 (fun x b => 1 <= x <= b) r
                      (ResidualFactors.spatial_factors_
                         (ResidualFactors.init 5 [3; 2] [0; 1])) /\
              sum r <= uadd 5 (Z.of_nat 2).
Proof.
  apply (GenerateResidual_candidates 5 2 (ResidualFactors.init 5 [3; 2] [0; 1])).
  - repeat constructor.
  - cbn. unfold UINT_MAX. lia.
  - reflexivity.
Defined.

(** ** The divisors of the two classes *)

Lemma set_insert_members (x y : Z) (s : list Z) :
  In y (set_insert x s) <-> y = x \/ In y s.
Proof.
  induction s as [|z s IH]; cbn [set_insert].
  - cbn [In]. intuition congruence.
  - destruct (x <? z) eqn:E1; [cbn [In]; intuition congruence|].
    destruct (x =? z) eqn:E2.
    + apply Z.eqb_eq in E2. subst z. cbn [In]. intuition congruence.
    + cbn [In]. rewrite IH. intuition congruence.
Qed.

Lemma set_insert_ascending (x : Z) (s : list Z) :
  StronglySorted Z.lt s -> StronglySorted Z.lt (set_insert x s).
Proof.
  induction 1 as [|z s Hs IH Hz]; cbn [set_insert].
  - repeat constructor.
  - destruct (x <? z) eqn:E1.
    + apply Z.ltb_lt in E1. constructor; [constructor; assumption|].
      constructor; [exact E1|]. eapply Forall_impl; [|exact Hz].
      cbn beta. intros; lia.
    + destruct (x =? z) eqn:E2; [constructor; assumption|].
      apply Z.ltb_ge in E1. apply Z.eqb_neq in E2.
      constructor; [exact IH|]. apply Forall_forall. intros y Hy.
      apply set_insert_members in Hy. destruct Hy as [->|Hy]; [lia|].
      rewrite Forall_forall in Hz. apply Hz. exact Hy.
Qed.

Lemma ResidualFactors_step_members (n_ : Z) (l acc : list Z) (d : Z) :
  In d (fold_left (ResidualFactors.CalculateAllFactors_step n_) l acc) <->
  In d acc \/ In d (flat_map (divisor_pair n_) l).
Proof.
  revert acc. induction l as [|i l IH]; intros acc; cbn [fold_left flat_map].
  - cbn [In]. intuition.
  - rewrite IH, in_app_iff.
    unfold ResidualFactors.CalculateAllFactors_step, divisor_pair.
    destruct (n_ mod i =? 0); [|cbn [In]; intuition].
    destruct (negb (umul i i =? n_)); cbn [In]; rewrite ?set_insert_members;
      intuition congruence.
Qed.

Lemma ResidualFactors_step_ascending (n_ : Z) (l acc : list Z) :
  StronglySorted Z.lt acc ->
  StronglySorted Z.lt (fold_left (ResidualFactors.CalculateAllFactors_step n_) l acc).
Proof.
  revert acc. induction l as [|i l IH]; intros acc H; cbn [fold_left]; [exact H|].
  apply IH. unfold ResidualFactors.CalculateAllFactors_step.
  destruct (n_ mod i =? 0); [|exact H].
  destruct (negb (umul i i =? n_)); repeat apply set_insert_ascending; exact H.
Qed.

(** [ResidualFactors::CalculateAllFactors_], run after [ClearAllFactors_],
    finds the divisors that [Factors::CalculateAllFactors_] finds for the
    same dimension size, and holds them in strictly ascending order. *)
Theorem both_classes_find_the_same_divisors (self : ResidualFactors.t) :
  0 <= ResidualFactors.n_ self ->
  exists all self',
    Factors.CalculateAllFactors_ (ResidualFactors.n_ self) = Returns all /\
    ResidualFactors.CalculateAllFactors_ (ResidualFactors.ClearAllFactors_ self)
      = Returns self' /\
    (forall d, In d (ResidualFactors.all_factors_ self') <-> In d all) /\
    StronglySorted Z.lt (ResidualFactors.all_factors_ self').
Proof.
  intros Hn. unfold Factors.CalculateAllFactors_, ResidualFactors.CalculateAllFactors_.
  change (ResidualFactors.n_ (ResidualFactors.ClearAllFactors_ self))
    with (ResidualFactors.n_ self).
  change (ResidualFactors.all_factors_ (ResidualFactors.ClearAllFactors_ self))
    with (@nil Z).
  destruct (ISqrt_returns _ Hn) as [s ->].
  eexists. eexists. split; [reflexivity|]. split; [reflexivity|].
  change (ResidualFactors.all_factors_ (ResidualFactors.set_all_factors_ ?x ?v))
    with v.
  split.
  - intros d. rewrite ResidualFactors_step_members, CalculateAllFactors_flat_map.
    cbn [In app]. intuition.
  - apply ResidualFactors_step_ascending. constructor.
Qed.

Lemma both_classes_find_the_same_divisors_witness :
  exists all self',
    Factors.CalculateAllFactors_
      (ResidualFactors.n_ (ResidualFactors.init 12 [] [])) = Returns all /\
    ResidualFactors.CalculateAllFactors_
      (ResidualFactors.ClearAllFactors_ (ResidualFactors.init 12 [] []))
      = Returns self' /\
    (forall d, In d (ResidualFactors.all_factors_ self') <-> In d all) /\
    StronglySorted Z.lt (ResidualFactors.all_factors_ self').
Proof.
  apply (both_classes_find_the_same_divisors (ResidualFactors.init 12 [] [])).
  cbn. lia.
Defined.

(** ** The candidates added for the spatial bounds *)

Lemma fold_left_members {A B : Type} (step : list A -> B -> list A)
      (added : B -> A -> Prop) (l : list B) (acc : list A) (v : A) :
  (forall acc x v, In v (step acc x) <-> In v acc \/ added x v) ->
  (In v (fold_left step l acc) <-> In v acc \/ exists x, In x l /\ added x v).
Proof.
  intros Hstep. revert acc. induction l as [|x l IH]; intros acc; cbn [fold_left].
  - split; [auto|]. intros [H|[x [[] _]]]. exact H.
  - rewrite IH, Hstep. split.
    + intros [[H|H]|[y [Hy H]]]; [auto| |].
      * right. exists x. split; [left; reflexivity|exact H].
      * right. exists y. split; [right; exact Hy|exact H].
    + intros [H|[y [[<-|Hy] H]]]; [auto|auto|]. right. exists y. auto.
Qed.

Lemma fold_left_ascending {B : Type} (step : list Z -> B -> list Z) (l : list B)
      (acc : list Z) :
  (forall acc x, StronglySorted Z.lt acc -> StronglySorted Z.lt (step acc x)) ->
  StronglySorted Z.lt acc -> StronglySorted Z.lt (fold_left step l acc).
Proof.
  intros Hstep. revert acc. induction l as [|x l IH]; intros acc H; cbn [fold_left];
    [exact H|]. apply IH. apply Hstep. exact H.
Qed.

Lemma CalculateSpatialFactors_step_members (n_ g : Z) (all : list Z) (i v : Z) :
  In v (ResidualFactors.CalculateSpatialFactors_step n_ g all i) <->
  In v all \/
  (g mod i = 0 /\
   ((v = i /\ i < n_) \/ (umul i i <> g /\ v = g / i /\ g / i < n_))).
Proof.
  unfold ResidualFactors.CalculateSpatialFactors_step.
  destruct (g mod i =? 0) eqn:E; [apply Z.eqb_eq in E|apply Z.eqb_neq in E; tauto].
  destruct (umul i i =? g) eqn:E2; [apply Z.eqb_eq in E2|apply Z.eqb_neq in E2];
    cbn [negb]; destruct (i <? n_) eqn:E3;
    [apply Z.ltb_lt in E3|apply Z.ltb_ge in E3|apply Z.ltb_lt in E3|apply Z.ltb_ge in E3].
  - rewrite set_insert_members. intuition (try congruence; try lia).
  - intuition (try congruence; try lia).
  - destruct (g / i <? n_) eqn:E4; [apply Z.ltb_lt in E4|apply Z.ltb_ge in E4];
      rewrite ?set_insert_members; intuition (try congruence; try lia).
  - destruct (g / i <? n_) eqn:E4; [apply Z.ltb_lt in E4|apply Z.ltb_ge in E4];
      rewrite ?set_insert_members; intuition (try congruence; try lia).
Qed.

(** The inner loop, for one spatial multiple [g] above 0: it adds the values
    from 1 to [n_ - 1] that divide [g]. *)
Lemma spatial_multiple_divisors (n_ g : Z) (all : list Z) (v : Z) :
  0 < g ->
  (In v (fold_left (ResidualFactors.CalculateSpatialFactors_step n_ g) (range 1 n_) all)
   <-> In v all \/ (1 <= v < n_ /\ (v | g))).
Proof.
  intros Hg.
  rewrite (fold_left_members
             (ResidualFactors.CalculateSpatialFactors_step n_ g)
             (fun i v => g mod i = 0 /\
                         ((v = i /\ i < n_) \/
                          (umul i i <> g /\ v = g / i /\ g / i < n_)))).
  2: { intros acc x w. apply CalculateSpatialFactors_step_members. }
  split.
  - intros [H|[i [Hi [Hmod Hv]]]]; [auto|right]. apply in_range in Hi.
    assert (Hq : g = i * (g / i)) by (apply Z_div_exact_full_2; lia).
    destruct Hv as [[-> Hlt]|[_ [-> Hlt]]].
    + split; [lia|]. apply Z.mod_divide; [lia|exact Hmod].
    + split; [|exists i; lia]. split; [|exact Hlt].
      assert (0 < g / i) by nia. lia.
  - intros [H|[Hv Hdiv]]; [auto|right]. exists v.
    split; [apply in_range; lia|].
    split; [apply Z.mod_divide; [lia|exact Hdiv]|]. left. split; [reflexivity|lia].
Qed.

(** When the counting loops end (the spatial bounds and [n_] are below
    [ULONG_MAX]) and every spatial multiple is above 0,
    [CalculateSpatialFactors_] adds to [all_factors_] exactly the values
    from 1 to [n_ - 1] that divide the spatial multiple of some value from 1
    to a spatial bound; [all_factors_] stays in strictly ascending order and
    nothing else of the object changes. *)
Theorem CalculateSpatialFactors_adds_divisors
        (spatial_multiple : Z -> Z -> Z) (self : ResidualFactors.t) :
  Forall (fun b => b < ULONG_MAX) (ResidualFactors.spatial_factors_ self) ->
  ResidualFactors.n_ self < ULONG_MAX ->
  (forall b n, In b (ResidualFactors.spatial_factors_ self) -> 1 <= n <= b ->
               0 < spatial_multiple n (ResidualFactors.n_ self)) ->
  StronglySorted Z.lt (ResidualFactors.all_factors_ self) ->
  exists all,
    ResidualFactors.CalculateSpatialFactors_ spatial_multiple self
      = Returns (ResidualFactors.set_all_factors_ self all) /\
    StronglySorted Z.lt all /\
    forall v, In v all <->
              In v (ResidualFactors.all_factors_ self) \/
              (1 <= v < ResidualFactors.n_ self /\
               exists b n, In b (ResidualFactors.spatial_factors_ self) /\
                           1 <= n <= b /\
                           (v | spatial_multiple n (ResidualFactors.n_ self))).
Proof.
  intros Hb Hn Hpos Hsorted. unfold ResidualFactors.CalculateSpatialFactors_.
  rewrite (forallb_below _ _ Hb). cbn [check bind].
  replace (ResidualFactors.n_ self <? ULONG_MAX) with true
    by (symmetry; apply Z.ltb_lt; exact Hn).
  assert (Hcheck : forall l : list Z,
             check (match l with [] => true | _ :: _ => true end) Diverges = Returns tt)
    by (intros [|? ?]; reflexivity).
  rewrite Hcheck. cbn [bind]. eexists. split; [reflexivity|]. split.
  - apply fold_left_ascending; [|exact Hsorted].
    intros acc n Hacc. apply fold_left_ascending; [|exact Hacc].
    intros acc' i Hacc'. unfold ResidualFactors.CalculateSpatialFactors_step.
    destruct (_ mod i =? 0); [|exact Hacc'].
    destruct (negb _); destruct (i <? _); try destruct (_ / i <? _);
      repeat apply set_insert_ascending; exact Hacc'.
  - intros v.
    assert (Hin : forall l acc,
               (forall n, In n l ->
                          exists b, In b (ResidualFactors.spatial_factors_ self) /\
                                    1 <= n <= b) ->
               (In v (fold_left
                        (fun all_factors_ n =>
                           fold_left (ResidualFactors.CalculateSpatialFactors_step
                                        (ResidualFactors.n_ self)
                                        (spatial_multiple n (ResidualFactors.n_ self)))
                                     (range 1 (ResidualFactors.n_ self)) all_factors_)
                        l acc)
                <-> In v acc \/
                    exists n, In n l /\ 1 <= v < ResidualFactors.n_ self /\
                              (v | spatial_multiple n (ResidualFactors.n_ self)))).
    { induction l as [|n l IH]; intros acc Hl; cbn [fold_left].
      - split; [auto|]. intros [H|[n [[] _]]]. exact H.
      - rewrite IH by (intros n' Hn'; apply Hl; right; exact Hn').
        destruct (Hl n ltac:(left; reflexivity)) as [b [Hbin Hnb]].
        rewrite spatial_multiple_divisors by (apply (Hpos b n Hbin Hnb)).
        split.
        + intros [[H|H]|[n' [Hn' H]]]; [auto| |].
          * right. exists n. split; [left; reflexivity|exact H].
          * right. exists n'. split; [right; exact Hn'|exact H].
        + intros [H|[n' [[<-|Hn'] H]]]; [auto|auto|]. right. exists n'. auto. }
    rewrite Hin.
    + split; (intros [H|H]; [left; exact H|right]).
      * destruct H as [n [Hn' [Hv Hdiv]]]. split; [exact Hv|].
        apply in_flat_map in Hn'. destruct Hn' as [b [Hbin Hnb]].
        apply in_range in Hnb. exists b, n. auto.
      * destruct H as [Hv [b [n [Hbin [Hnb Hdiv]]]]]. exists n.
        split; [|auto]. apply in_flat_map. exists b. split; [exact Hbin|].
        apply in_range. exact Hnb.
    + intros n Hn'. apply in_flat_map in Hn'. destruct Hn' as [b [Hbin Hnb]].
      apply in_range in Hnb. exists b. auto.
Qed.

Lemma CalculateSpatialFactors_adds_divisors_witness :
  exists all,
    ResidualFactors.CalculateSpatialFactors_ ResidualFactors.small_spatial_multiple
      (ResidualFactors.init 6 [2] [0])
      = Returns (ResidualFactors.set_all_factors_ (ResidualFactors.init 6 [2] [0]) all) /\
    StronglySorted Z.lt all /\
    forall v, In v all <->
              In v (ResidualFactors.all_factors_ (ResidualFactors.init 6 [2] [0])) \/
              (1 <= v < ResidualFactors.n_ (ResidualFactors.init 6 [2] [0]) /\
               exists b n,
                 In b (ResidualFactors.spatial_factors_ (ResidualFactors.init 6 [2] [0])) /\
                 1 <= n <= b /\
                 (v | ResidualFactors.small_spatial_multiple n
                        (ResidualFactors.n_ (ResidualFactors.init 6 [2] [0])))).
Proof.
  apply (CalculateSpatialFactors_adds_divisors
           ResidualFactors.small_spatial_multiple (ResidualFactors.init 6 [2] [0])).
  - repeat constructor.
  - reflexivity.
  - intros b n [<-|[]] Hn. cbn [ResidualFactors.n_ ResidualFactors.init].
    assert (Hcases : n = 1 \/ n = 2) by lia.
    destruct Hcases as [-> | ->]; reflexivity.
  - constructor.
Defined.

(** ** [SequenceGenerator128] *)

Lemma wrap128_small (z : Z) : 0 <= z < UINT128_MODULUS -> wrap128 z = z.
Proof. intros H. apply Z.mod_small. exact H. Qed.

Lemma Next_times_counts (bound : Z) (k : nat) (c : Z) :
  1 <= bound < UINT128_MODULUS -> 0 <= c < bound ->
  Next_times k (SequenceGenerator128.mk bound true c)
  = Returns (map (fun j => (c + Z.of_nat j) mod bound) (seq 0 k),
             SequenceGenerator128.mk bound true ((c + Z.of_nat k) mod bound)).
Proof.
  intros Hb. revert c. induction k as [|k IH]; intros c Hc.
  - cbn [Next_times seq map]. rewrite Z.add_0_r, Z.mod_small by lia. reflexivity.
  - cbn [Next_times]. unfold SequenceGenerator128.Next.
    cbn [SequenceGenerator128.cur_ SequenceGenerator128.bound_
         SequenceGenerator128.autoloop_ check bind].
    rewrite (wrap128_small (bound - 1)) by lia.
    assert (Hnext : (if c =? bound - 1
                     then Returns (c, SequenceGenerator128.mk bound true 0)
                     else Returns (c, SequenceGenerator128.mk bound true (wrap128 (c + 1))))
                    = Returns (c, SequenceGenerator128.mk bound true ((c + 1) mod bound))).
    { destruct (c =? bound - 1) eqn:E.
      - apply Z.eqb_eq in E. replace (c + 1) with bound by lia.
        rewrite Z.mod_same by lia. reflexivity.
      - apply Z.eqb_neq in E. rewrite wrap128_small by lia.
        rewrite (Z.mod_small (c + 1)) by lia. reflexivity. }
    rewrite Hnext. cbn [bind].
    rewrite IH by (apply Z.mod_pos_bound; lia). cbn [bind seq map].
    rewrite Z.add_0_r, (Z.mod_small c) by lia.
    rewrite <- seq_shift, map_map. do 2 f_equal.
    + f_equal. apply map_ext. intros j.
      rewrite Z.add_mod_idemp_l by lia. f_equal. lia.
    + f_equal. rewrite Z.add_mod_idemp_l by lia. f_equal. lia.
Qed.

(** With [autoloop] set and a bound from 1 up, the calls of [Next()] return
    0, 1, ..., bound - 1 and start again from 0: the k-th call, counted from
    0, returns k modulo the bound, and no call fails. *)
Theorem SequenceGenerator128_counts_modulo_bound (bound : Z) (k : nat) :
  1 <= bound < UINT128_MODULUS ->
  exists self,
    Next_times k (SequenceGenerator128.SequenceGenerator128 bound true)
    = Returns (map (fun j => Z.of_nat j mod bound) (seq 0 k), self) /\
    SequenceGenerator128.cur_ self = Z.of_nat k mod bound.
Proof.
  intros Hb. unfold SequenceGenerator128.SequenceGenerator128.
  rewrite (Next_times_counts bound k 0 Hb) by lia.
  eexists. split; [reflexivity|]. reflexivity.
Qed.

Lemma SequenceGenerator128_counts_modulo_bound_witness :
  exists self,
    Next_times 7 (SequenceGenerator128.SequenceGenerator128 3 true)
    = Returns (map (fun j => Z.of_nat j mod 3) (seq 0 7), self) /\
    SequenceGenerator128.cur_ self = Z.of_nat 7 mod 3.
Proof.
  apply (SequenceGenerator128_counts_modulo_bound 3 7).
  unfold UINT128_MODULUS. lia.
Defined.

Lemma Next_times_before_the_end (bound : Z) (k : nat) (c : Z) :
  1 <= bound < UINT128_MODULUS -> 0 <= c -> c + Z.of_nat k < bound ->
  Next_times k (SequenceGenerator128.mk bound false c)
  = Returns (map (fun j => c + Z.of_nat j) (seq 0 k),
             SequenceGenerator128.mk bound false (c + Z.of_nat k)).
Proof.
  intros Hb. revert c. induction k as [|k IH]; intros c Hc Hk.
  - cbn [Next_times seq map]. rewrite Z.add_0_r. reflexivity.
  - cbn [Next_times]. unfold SequenceGenerator128.Next.
    cbn [SequenceGenerator128.cur_ SequenceGenerator128.bound_
         SequenceGenerator128.autoloop_].
    rewrite (wrap128_small (bound - 1)) by lia.
    destruct (c =? bound - 1) eqn:E; [lia|].
    rewrite wrap128_small by lia. cbn [bind].
    rewrite IH by lia. cbn [bind seq map].
    rewrite Z.add_0_r, <- seq_shift, map_map. do 2 f_equal.
    + f_equal. apply map_ext. intros j. lia.
    + f_equal. lia.
Qed.

(** Without [autoloop] and with a bound from 1 up, the first bound - 1 calls
    of [Next()] return 0, 1, ..., bound - 2, and the call after them fails the
    assertion: the value bound - 1 is never returned. *)
Theorem SequenceGenerator128_stops_before_the_bound (bound : Z) :
  1 <= bound < UINT128_MODULUS ->
  Next_times (Z.to_nat (bound - 1)) (SequenceGenerator128.SequenceGenerator128 bound false)
  = Returns (map Z.of_nat (seq 0 (Z.to_nat (bound - 1))),
             SequenceGenerator128.mk bound false (bound - 1)) /\
  SequenceGenerator128.Next (SequenceGenerator128.mk bound false (bound - 1))
  = Fails AssertionFailure /\
  Next_times (Z.to_nat bound) (SequenceGenerator128.SequenceGenerator128 bound false)
  = Fails AssertionFailure.
Proof.
  intros Hb. unfold SequenceGenerator128.SequenceGenerator128.
  assert (Hlast : SequenceGenerator128.Next (SequenceGenerator128.mk bound false (bound - 1))
                  = Fails AssertionFailure).
  { unfold SequenceGenerator128.Next.
    cbn [SequenceGenerator128.cur_ SequenceGenerator128.bound_
         SequenceGenerator128.autoloop_].
    rewrite (wrap128_small (bound - 1)) by lia. rewrite Z.eqb_refl. reflexivity. }
  assert (Hfirst : Next_times (Z.to_nat (bound - 1))
                              (SequenceGenerator128.mk bound false 0)
                   = Returns (map Z.of_nat (seq 0 (Z.to_nat (bound - 1))),
                              SequenceGenerator128.mk bound false (bound - 1))).
  { rewrite (Next_times_before_the_end bound _ 0 Hb) by lia.
    do 2 f_equal. f_equal. lia. }
  split; [exact Hfirst|]. split; [exact Hlast|].
  assert (Hgen : forall k c, 0 <= c -> c + Z.of_nat k = bound - 1 ->
                   Next_times (k + 1) (SequenceGenerator128.mk bound false c)
                   = Fails AssertionFailure).
  { induction k as [|k IH]; intros c Hc Hk.
    - replace c with (bound - 1) by lia. cbn [Nat.add Next_times].
      rewrite Hlast. reflexivity.
    - cbn [Nat.add Next_times]. unfold SequenceGenerator128.Next at 1.
      cbn [SequenceGenerator128.cur_ SequenceGenerator128.bound_
           SequenceGenerator128.autoloop_].
      rewrite (wrap128_small (bound - 1)) by lia.
      destruct (c =? bound - 1) eqn:E; [lia|].
      rewrite wrap128_small by lia. cbn [bind].
      rewrite IH by lia. reflexivity. }
  replace (Z.to_nat bound) with (Z.to_nat (bound - 1) + 1)%nat by lia.
  apply Hgen; lia.
Qed.

Lemma SequenceGenerator128_stops_before_the_bound_witness :
  Next_times (Z.to_nat (4 - 1)) (SequenceGenerator128.SequenceGenerator128 4 false)
  = Returns (map Z.of_nat (seq 0 (Z.to_nat (4 - 1))),
             SequenceGenerator128.mk 4 false (4 - 1)) /\
  SequenceGenerator128.Next (SequenceGenerator128.mk 4 false (4 - 1))
  = Fails AssertionFailure /\
  Next_times (Z.to_nat 4) (SequenceGenerator128.SequenceGenerator128 4 false)
  = Fails AssertionFailure.
Proof.
  apply (SequenceGenerator128_stops_before_the_bound 4).
  unfold UINT128_MODULUS. lia.
Defined.

(** ** [RandomGenerator128] *)

Section RandomDraws.

Variable uint64_max_ : Z.
Hypothesis uint64_max_range : 1 <= uint64_max_ < ULONG_MODULUS.

Lemma single_generator (bound low high : Z) :
  1 <= bound <= uint64_max_ ->
  RandomGenerator128.use_two_generators_
    (RandomGenerator128.RandomGenerator128 uint64_max_ bound) = false /\
  (delivers (RandomGenerator128.low_gen_
               (RandomGenerator128.RandomGenerator128 uint64_max_ bound)) low
   <-> 0 <= low < bound) /\
  (0 <= low < bound ->
   RandomGenerator128.Next uint64_max_
     (RandomGenerator128.RandomGenerator128 uint64_max_ bound) low high = Returns low).
Proof.
  intros Hb. unfold ULONG_MODULUS, ULONG_BITS in uint64_max_range.
  unfold RandomGenerator128.RandomGenerator128, RandomGenerator128.Next, delivers.
  cbn [RandomGenerator128.use_two_generators_ RandomGenerator128.low_gen_
       RandomGenerator128.bound_].
  destruct (bound >? uint64_max_) eqn:E; [lia|]. cbn [fst snd].
  assert (Hw : wrap (wrap128 (bound - 1)) = bound - 1).
  { rewrite wrap128_small by (unfold UINT128_MODULUS; lia).
    apply wrap_small. unfold is_ulong, ULONG_MODULUS, ULONG_BITS. lia. }
  rewrite Hw. split; [reflexivity|]. split; [lia|]. intros Hl.
  rewrite Z.mul_0_l. change (wrap128 0) with 0. rewrite Z.add_0_r.
  rewrite wrap128_small by (unfold UINT128_MODULUS; lia).
  replace (low <? bound) with true by (symmetry; apply Z.ltb_lt; lia).
  reflexivity.
Qed.

Lemma two_generators (bound low high : Z) :
  uint64_max_ < bound < UINT128_MODULUS ->
  bound / uint64_max_ <= ULONG_MODULUS ->
  delivers (RandomGenerator128.low_gen_
              (RandomGenerator128.RandomGenerator128 uint64_max_ bound)) low ->
  delivers (RandomGenerator128.high_gen_
              (RandomGenerator128.RandomGenerator128 uint64_max_ bound)) high ->
  low + high * uint64_max_ <= bound / uint64_max_ * uint64_max_ <= bound /\
  RandomGenerator128.Next uint64_max_
    (RandomGenerator128.RandomGenerator128 uint64_max_ bound) low high
  = if low + high * uint64_max_ <? bound
    then Returns (low + high * uint64_max_)
    else Fails AssertionFailure.
Proof.
  intros Hb Hq. unfold ULONG_MODULUS, ULONG_BITS in *.
  unfold RandomGenerator128.RandomGenerator128, RandomGenerator128.Next, delivers.
  cbn [RandomGenerator128.use_two_generators_ RandomGenerator128.low_gen_
       RandomGenerator128.high_gen_ RandomGenerator128.bound_].
  destruct (bound >? uint64_max_) eqn:E; [|lia]. cbn [fst snd].
  assert (Hq1 : 1 <= bound / uint64_max_).
  { apply Z.div_le_lower_bound; lia. }
  assert (Hw : wrap (wrap128 (bound / uint64_max_ - 1)) = bound / uint64_max_ - 1).
  { rewrite wrap128_small by (unfold UINT128_MODULUS; lia).
    apply wrap_small. unfold is_ulong, ULONG_MODULUS, ULONG_BITS. lia. }
  rewrite Hw. intros Hl Hh.
  assert (Hmul : bound / uint64_max_ * uint64_max_ <= bound).
  { rewrite Z.mul_comm. apply Z.mul_div_le. lia. }
  assert (Hle : low + high * uint64_max_ <= bound / uint64_max_ * uint64_max_) by nia.
  split; [split; [exact Hle|exact Hmul]|].
  unfold UINT128_MODULUS in Hb.
  rewrite (wrap128_small (high * uint64_max_)) by (unfold UINT128_MODULUS; nia).
  rewrite wrap128_small by (unfold UINT128_MODULUS; nia).
  destruct (low + high * uint64_max_ <? bound); reflexivity.
Qed.

End RandomDraws.

(** With a bound from 1 to [uint64_max_], only [low_gen_] is used: it
    delivers exactly the values below the bound, and [Next()] returns the
    value delivered, never failing the assertion. *)
Theorem RandomGenerator128_single_generator (uint64_max_ bound low high : Z) :
  1 <= uint64_max_ < ULONG_MODULUS ->
  1 <= bound <= uint64_max_ ->
  RandomGenerator128.use_two_generators_
    (RandomGenerator128.RandomGenerator128 uint64_max_ bound) = false /\
  (delivers (RandomGenerator128.low_gen_
               (RandomGenerator128.RandomGenerator128 uint64_max_ bound)) low
   <-> 0 <= low < bound) /\
  (0 <= low < bound ->
   RandomGenerator128.Next uint64_max_
     (RandomGenerator128.RandomGenerator128 uint64_max_ bound) low high = Returns low).
Proof.
  intros HM Hb. apply single_generator; assumption.
Qed.

Lemma RandomGenerator128_single_generator_witness :
  RandomGenerator128.use_two_generators_
    (RandomGenerator128.RandomGenerator128 18446744073709551615 10) = false /\
  (delivers (RandomGenerator128.low_gen_
               (RandomGenerator128.RandomGenerator128 18446744073709551615 10)) 9
   <-> 0 <= 9 < 10) /\
  (0 <= 9 < 10 ->
   RandomGenerator128.Next 18446744073709551615
     (RandomGenerator128.RandomGenerator128 18446744073709551615 10) 9 0 = Returns 9).
Proof.
  apply (RandomGenerator128_single_generator 18446744073709551615 10 9 0).
  - unfold ULONG_MODULUS, ULONG_BITS. lia.
  - lia.
Defined.

(** With a bound above [uint64_max_], both distributions are used. The value
    that [Next()] builds from what they deliver is at most the largest
    multiple of [uint64_max_] not above the bound; it is returned when it is
    below the bound. When [uint64_max_] divides the bound, the largest values
    that the two distributions deliver build the bound itself, and [Next()]
    fails its assertion. *)
Theorem RandomGenerator128_two_generators (uint64_max_ bound : Z) :
  1 <= uint64_max_ < ULONG_MODULUS ->
  uint64_max_ < bound < UINT128_MODULUS ->
  bound / uint64_max_ <= ULONG_MODULUS ->
  (forall low high,
      delivers (RandomGenerator128.low_gen_
                  (RandomGenerator128.RandomGenerator128 uint64_max_ bound)) low ->
      delivers (RandomGenerator128.high_gen_
                  (RandomGenerator128.RandomGenerator128 uint64_max_ bound)) high ->
      low + high * uint64_max_ <= bound / uint64_max_ * uint64_max_ <= bound /\
      RandomGenerator128.Next uint64_max_
        (RandomGenerator128.RandomGenerator128 uint64_max_ bound) low high
      = if low + high * uint64_max_ <? bound
        then Returns (low + high * uint64_max_)
        else Fails AssertionFailure) /\
  (bound mod uint64_max_ = 0 ->
   delivers (RandomGenerator128.low_gen_
               (RandomGenerator128.RandomGenerator128 uint64_max_ bound)) uint64_max_ /\
   delivers (RandomGenerator128.high_gen_
               (RandomGenerator128.RandomGenerator128 uint64_max_ bound))
            (bound / uint64_max_ - 1) /\
   RandomGenerator128.Next uint64_max_
     (RandomGenerator128.RandomGenerator128 uint64_max_ bound)
     uint64_max_ (bound / uint64_max_ - 1) = Fails AssertionFailure).
Proof.
  intros HM Hb Hq. split.
  - intros low high. apply two_generators; assumption.
  - intros Hmod.
    assert (Hq1 : 1 <= bound / uint64_max_) by (apply Z.div_le_lower_bound; lia).
    assert (Hexact : bound = uint64_max_ * (bound / uint64_max_))
      by (apply Z_div_exact_full_2; lia).
    assert (Hlow : delivers (RandomGenerator128.low_gen_
                     (RandomGenerator128.RandomGenerator128 uint64_max_ bound))
                            uint64_max_).
    { unfold delivers, RandomGenerator128.RandomGenerator128.
      cbn [RandomGenerator128.low_gen_ fst snd].
      destruct (bound >? uint64_max_) eqn:E; [lia|lia]. }
    assert (Hhigh : delivers (RandomGenerator128.high_gen_
                      (RandomGenerator128.RandomGenerator128 uint64_max_ bound))
                             (bound / uint64_max_ - 1)).
    { unfold delivers, RandomGenerator128.RandomGenerator128.
      cbn [RandomGenerator128.high_gen_ fst snd].
      rewrite wrap128_small by (unfold UINT128_MODULUS, ULONG_MODULUS, ULONG_BITS in *; lia).
      rewrite wrap_small by (unfold is_ulong; lia). lia. }
    split; [exact Hlow|]. split; [exact Hhigh|].
    destruct (two_generators uint64_max_ HM bound _ _ Hb Hq Hlow Hhigh) as [_ ->].
    replace (uint64_max_ + (bound / uint64_max_ - 1) * uint64_max_) with bound by lia.
    rewrite Z.ltb_irrefl. reflexivity.
Qed.

Lemma RandomGenerator128_two_generators_witness :
  (forall low high,
      delivers (RandomGenerator128.low_gen_
                  (RandomGenerator128.RandomGenerator128
                     18446744073709551615 36893488147419103230)) low ->
      delivers (RandomGenerator128.high_gen_
                  (RandomGenerator128.RandomGenerator128
                     18446744073709551615 36893488147419103230)) high ->
      low + high * 18446744073709551615
      <= 36893488147419103230 / 18446744073709551615 * 18446744073709551615
      <= 36893488147419103230 /\
      RandomGenerator128.Next 18446744073709551615
        (RandomGenerator128.RandomGenerator128
           18446744073709551615 36893488147419103230) low high
      = if low + high * 18446744073709551615 <? 36893488147419103230
        then Returns (low + high * 18446744073709551615)
        else Fails AssertionFailure) /\
  (36893488147419103230 mod 18446744073709551615 = 0 ->
   delivers (RandomGenerator128.low_gen_
               (RandomGenerator128.RandomGenerator128
                  18446744073709551615 36893488147419103230)) 18446744073709551615 /\
   delivers (RandomGenerator128.high_gen_
               (RandomGenerator128.RandomGenerator128
                  18446744073709551615 36893488147419103230))
            (36893488147419103230 / 18446744073709551615 - 1) /\
   RandomGenerator128.Next 18446744073709551615
     (RandomGenerator128.RandomGenerator128 18446744073709551615 36893488147419103230)
     18446744073709551615 (36893488147419103230 / 18446744073709551615 - 1)
   = Fails AssertionFailure).
Proof.
  apply (RandomGenerator128_two_generators 18446744073709551615 36893488147419103230).
  - unfold ULONG_MODULUS, ULONG_BITS. lia.
  - unfold UINT128_MODULUS. lia.
  - unfold ULONG_MODULUS, ULONG_BITS. vm_compute. discriminate.
Defined.
